(** * RimWorld translation extractor: extraction and reconciliation engine

    A shallow embedding of [Programas/extractor.py] (class
    [RimWorldTranslatorGUI]): the recursive key-path deriver
    [extract_recursive], the archive index builders, the two writers
    [save_translations] (DefInjected) and [save_keyed_translations] (Keyed)
    and the wrapper-folder flattening of [run_extraction].

    Conventions.
    - A Python [str] is the [string] of its UTF-8 bytes, as the files hold
      it.  Searching, splitting, replacing and comparing give the same
      result on the bytes as on the characters.  [strip] removes the white
      space of [str.strip], with the characters outside ASCII that count as
      white space.  [lower], [upper] and [isalnum] are those of the ASCII
      characters and leave every other byte alone.
    - A Python [dict] is an association list in insertion order with unique
      keys ([Dict.set] overwrites in place or appends), because the writers
      iterate over dictionaries.
    - A file written through [f.write] is the list of the chunks written,
      in order; its content is their concatenation.
    - An XML document read through [ET.parse] is given by the child
      elements of its root, each with a tag and an optional text. *)

From Stdlib Require Import String Ascii List Arith Lia Bool.
From Stdlib Require Import DecimalString DecimalNat.
From Stdlib Require Import Permutation Sorted.
Import ListNotations.

#[local] Open Scope string_scope.
#[local] Open Scope bool_scope.
#[local] Set Warnings "-register-all".

(** ** Python string primitives *)

Module Text.

(** Python truthiness of a [str]. *)
Definition truthy (s : string) : bool := negb (s =? "").

(** Truthiness of an optional string ([None] and [""] are falsy). *)
Definition truthy_opt (o : option string) : bool :=
  match o with
  | Some s => truthy s
  | None => false
  end.

Definition in_range (lo hi : nat) (c : ascii) : bool :=
  let n := nat_of_ascii c in Nat.leb lo n && Nat.leb n hi.

Definition is_upper (c : ascii) : bool := in_range 65 90 c.
Definition is_lower (c : ascii) : bool := in_range 97 122 c.
Definition is_digit (c : ascii) : bool := in_range 48 57 c.

(** [str.isalnum] on a character below 128.  The letters and digits outside
    ASCII, which Python also keeps, are not told apart from the other bytes
    here: the statements that depend on it ask for ASCII text. *)
Definition isalnum (c : ascii) : bool := is_upper c || is_lower c || is_digit c.

(** [str.isspace] on a character below 128: tab to carriage return, the
    four separators 28..31 and the blank. *)
Definition isspace (c : ascii) : bool :=
  in_range 9 13 c || in_range 28 31 c || Nat.eqb (nat_of_ascii c) 32.

(** The white space outside ASCII, in UTF-8: U+0085 and U+00A0 take two
    bytes (194 and then 133 or 160). *)
Definition space2 (a b : ascii) : bool :=
  Nat.eqb (nat_of_ascii a) 194
  && (Nat.eqb (nat_of_ascii b) 133 || Nat.eqb (nat_of_ascii b) 160).

(** U+1680 (225 154 128), U+2000 to U+200A (226 128 128 to 226 128 138),
    U+2028, U+2029 and U+202F (226 128 and then 168, 169 or 175), U+205F
    (226 129 159) and U+3000 (227 128 128) take three. *)
Definition space3 (a b c : ascii) : bool :=
  let x := nat_of_ascii a in
  let y := nat_of_ascii b in
  let z := nat_of_ascii c in
  (Nat.eqb x 225 && Nat.eqb y 154 && Nat.eqb z 128)
  || (Nat.eqb x 226 && Nat.eqb y 128
      && (in_range 128 138 c || Nat.eqb z 168 || Nat.eqb z 169 || Nat.eqb z 175))
  || (Nat.eqb x 226 && Nat.eqb y 129 && Nat.eqb z 159)
  || (Nat.eqb x 227 && Nat.eqb y 128 && Nat.eqb z 128).

(** How many bytes the white-space character at the start of [s] takes; 0
    when [s] does not start with one. *)
Definition space_len (s : string) : nat :=
  match s with
  | String a (String b (String c _)) =>
      if isspace a then 1 else if space2 a b then 2 else if space3 a b c then 3 else 0
  | String a (String b EmptyString) =>
      if isspace a then 1 else if space2 a b then 2 else 0
  | String a EmptyString => if isspace a then 1 else 0
  | EmptyString => 0
  end.

Definition lower_char (c : ascii) : ascii :=
  if is_upper c then ascii_of_nat (nat_of_ascii c + 32) else c.

Definition upper_char (c : ascii) : ascii :=
  if is_lower c then ascii_of_nat (nat_of_ascii c - 32) else c.

Fixpoint map_chars (f : ascii -> ascii) (s : string) : string :=
  match s with
  | EmptyString => EmptyString
  | String c r => String (f c) (map_chars f r)
  end.

(** [s.lower()] and [s.upper()] on the ASCII letters; every other byte is
    left as it is. *)
Definition lower : string -> string := map_chars lower_char.
Definition upper : string -> string := map_chars upper_char.

(** [s.lstrip()]: the white-space characters at the start go, one after
    the other. *)
Fixpoint lstrip (s : string) : string :=
  match s with
  | EmptyString => EmptyString
  | String a r =>
      if isspace a then lstrip r
      else
        match r with
        | EmptyString => s
        | String b r' =>
            if space2 a b then lstrip r'
            else
              match r' with
              | EmptyString => s
              | String c r'' => if space3 a b c then lstrip r'' else s
              end
        end
  end.

(** [s.rstrip()]: the string is cut where what follows is white space
    only. *)
Fixpoint rstrip (s : string) : string :=
  match s with
  | EmptyString => EmptyString
  | String c r => if lstrip s =? "" then EmptyString else String c (rstrip r)
  end.

(** [s.strip()]. *)
Definition strip (s : string) : string := rstrip (lstrip s).

(** [sub in s]. *)
Fixpoint contains (sub s : string) : bool :=
  prefix sub s ||
  match s with
  | EmptyString => false
  | String _ r => contains sub r
  end.

(** [s.startswith(p)] is [prefix p s]; [s.endswith(suf)]. *)
Fixpoint endswith (suf s : string) : bool :=
  (s =? suf) ||
  match s with
  | EmptyString => false
  | String _ r => endswith suf r
  end.

(** [s.replace(old, new)] for a non-empty [old]: the occurrences are found
    from the left and do not overlap.  [skip] counts the characters of a
    matched occurrence that remain to be consumed. *)
Fixpoint replace_from (old new : string) (skip : nat) (s : string) : string :=
  match s with
  | EmptyString => EmptyString
  | String c r =>
      match skip with
      | S k => replace_from old new k r
      | O =>
          if prefix old s
          then new ++ replace_from old new (String.length old - 1) r
          else String c (replace_from old new 0 r)
      end
  end.

Definition replace (old new s : string) : string := replace_from old new 0 s.

(** Keep the characters of [s] that satisfy [keep]. *)
Fixpoint filter_chars (keep : ascii -> bool) (s : string) : string :=
  match s with
  | EmptyString => EmptyString
  | String c r =>
      if keep c then String c (filter_chars keep r) else filter_chars keep r
  end.

(** [s[n:]]. *)
Fixpoint drop (n : nat) (s : string) : string :=
  match n, s with
  | S m, String _ r => drop m r
  | _, _ => s
  end.

Definition dot : ascii := "."%char.

(** ['.' in s]. *)
Fixpoint has_dot (s : string) : bool :=
  match s with
  | EmptyString => false
  | String c r => Ascii.eqb c dot || has_dot r
  end.

(** [s.split('.')[0]]. *)
Fixpoint before_dot (s : string) : string :=
  match s with
  | EmptyString => EmptyString
  | String c r => if Ascii.eqb c dot then EmptyString else String c (before_dot r)
  end.

(** ['.'.join(s.split('.')[1:])]: what follows the first dot. *)
Fixpoint after_dot (s : string) : string :=
  match s with
  | EmptyString => EmptyString
  | String c r => if Ascii.eqb c dot then r else after_dot r
  end.

(** [str(n)] for a natural number. *)
Definition str_of_nat (n : nat) : string :=
  NilEmpty.string_of_uint (Nat.to_uint n).

(** [xml.sax.saxutils.escape]: the ampersand first, then the two angle
    brackets. *)
Definition escape (data : string) : string :=
  replace "<" "&lt;" (replace ">" "&gt;" (replace "&" "&amp;" data)).

(** *** Predicates used in the statements *)

(** The string does not begin with a white-space character. *)
Definition starts_clean (s : string) : bool := Nat.eqb (space_len s) 0.

(** [old] occurs in [p ++ old] at no position inside [p]: the final
    occurrence is the only one. *)
Fixpoint only_final (old p : string) : bool :=
  match p with
  | EmptyString => true
  | String _ r => negb (prefix old (p ++ old)) && only_final old r
  end.

Fixpoint all_digits (s : string) : bool :=
  match s with
  | EmptyString => true
  | String c r => is_digit c && all_digits r
  end.

(** The last character of a string. *)
Fixpoint last_char (s : string) : option ascii :=
  match s with
  | EmptyString => None
  | String c r =>
      match r with
      | EmptyString => Some c
      | String _ _ => last_char r
      end
  end.

(** What may follow a path component in a key: nothing, or a character
    that is not a digit (the dot before the next component). *)
Definition tail_ok (s : string) : bool :=
  match s with
  | EmptyString => true
  | String c _ => negb (is_digit c)
  end.

End Text.

(** ** Python dictionaries, in insertion order *)

Module Dict.

Section WithValue.
Context {V : Type}.

Definition t := list (string * V).

Fixpoint get (k : string) (d : t) : option V :=
  match d with
  | [] => None
  | (k', v) :: r => if k' =? k then Some v else get k r
  end.

(** [d[k] = v]: an existing key keeps its place. *)
Fixpoint set (k : string) (v : V) (d : t) : t :=
  match d with
  | [] => [(k, v)]
  | (k', v') :: r => if k' =? k then (k', v) :: r else (k', v') :: set k v r
  end.

(** [k in d]. *)
Definition mem (k : string) (d : t) : bool :=
  match get k d with
  | Some _ => true
  | None => false
  end.

(** [d.get(k, default)]. *)
Definition get_default (k : string) (default : V) (d : t) : V :=
  match get k d with
  | Some v => v
  | None => default
  end.

Definition keys (d : t) : list string := map fst d.

End WithValue.

Arguments t : clear implicits.

End Dict.

(** A Python [set] of strings, used only through [add] and [in]. *)
Definition set_mem (k : string) (s : list string) : bool :=
  existsb (String.eqb k) s.

(** ** The key-path deriver ([extract_recursive]) *)

(** An [ElementTree] node.  The tag of a comment or processing instruction
    is not a string ([None] here); the text may be absent. *)
Inductive Element : Type :=
| Elem (tag : option string) (text : option string) (children : list Element).

Definition tag (e : Element) : option string :=
  match e with Elem t _ _ => t end.
Definition text (e : Element) : option string :=
  match e with Elem _ x _ => x end.
Definition children (e : Element) : list Element :=
  match e with Elem _ _ cs => cs end.

(** One derived fragment: [{'key': ..., 'value': ...}]. *)
Record Entry : Type := mkEntry { key : string; value : string }.

(** The two tag lists of the extractor object. *)
Record TagLists : Type := mkTagLists {
  translatable_tags : list string;
  blacklisted_tags : list string
}.

Module Deriver.

Import Text.

Definition tag_is (name : string) (e : Element) : bool :=
  match tag e with
  | Some t => t =? name
  | None => false
  end.

(** [element.find(name)]: the first child with that tag. *)
Definition find_child (name : string) (e : Element) : option Element :=
  List.find (tag_is name) (children e).

(** The text of [element.find(name)] when that child exists and its text is
    truthy. *)
Definition found_text (name : string) (e : Element) : option string :=
  match find_child name e with
  | Some c => if truthy_opt (text c) then text c else None
  | None => None
  end.

Definition safe_char (c : ascii) : bool :=
  isalnum c || Ascii.eqb c "_" || Ascii.eqb c "-".

(** The helper [get_li_name]: the sanitised [customLabel] if there is one,
    else the trimmed [def], else [None]. *)
Definition get_li_name (element : Element) : option string :=
  match found_text "customLabel" element with
  | Some t => Some (filter_chars safe_char (replace " " "_" (strip t)))
  | None =>
      match found_text "def" element with
      | Some t => Some (strip t)
      | None => None
      end
  end.

(** The first loop: the histogram [name_counts] and the list
    [li_children_names], one slot per child. *)
Definition prescan_step (acc : Dict.t nat * list (option string)) (child : Element)
  : Dict.t nat * list (option string) :=
  let '(name_counts, li_children_names) := acc in
  if tag_is "li" child then
    let name := get_li_name child in
    let name_counts' :=
      match name with
      | Some n =>
          if truthy n
          then Dict.set n (Dict.get_default n 0 name_counts + 1) name_counts
          else name_counts
      | None => name_counts
      end in
    (name_counts', (li_children_names ++ [name])%list)
  else (name_counts, (li_children_names ++ [None])%list).

Definition prescan (cs : list Element) : Dict.t nat * list (option string) :=
  fold_left prescan_step cs ([], []).

(** The variables the second loop carries from one child to the next. *)
Record Walk : Type := mkWalk {
  w_i : nat;
  w_name_indices : Dict.t nat;
  w_li_index : nat;
  w_results : list Entry
}.

(** The path component chosen for a child with string tag [t] other than
    [defName], with the updated counters. *)
Definition choose_part (name_counts : Dict.t nat)
    (li_children_names : list (option string))
    (i : nat) (name_indices : Dict.t nat) (li_index : nat) (t : string)
  : string * Dict.t nat * nat :=
  if t =? "li" then
    match nth i li_children_names None with
    | Some name =>
        if truthy name then
          if Nat.ltb 1 (Dict.get_default name 0 name_counts) then
            let idx := Dict.get_default name 0 name_indices in
            (name ++ "-" ++ str_of_nat idx,
             Dict.set name (idx + 1) name_indices, li_index + 1)
          else (name, name_indices, li_index + 1)
        else (str_of_nat li_index, name_indices, li_index + 1)
    | None => (str_of_nat li_index, name_indices, li_index + 1)
    end
  else (t, name_indices, li_index).

(** [any(b.lower() in tag.lower() for b in tags)]. *)
Definition any_in_tag (tags : list string) (t : string) : bool :=
  existsb (fun b => contains (lower b) (lower t)) tags.

(** A final node with text: [child.text and child.text.strip() and
    len(child) == 0]. *)
Definition leaf_with_text (child : Element) : bool :=
  match text child with
  | Some x =>
      truthy x && truthy (strip x) &&
      Nat.eqb (List.length (children child)) 0
  | None => false
  end.

Definition text_or_empty (child : Element) : string :=
  match text child with
  | Some x => x
  | None => ""
  end.

(** The entry appended for a child, if any: nothing for a blacklisted tag,
    else one entry for a whitelisted tag or an item of a rule-strings list. *)
Definition emit (tl : TagLists) (is_rules_list : bool) (t new_path : string)
    (child : Element) (results : list Entry) : list Entry :=
  if leaf_with_text child then
    if any_in_tag (blacklisted_tags tl) t then results
    else if any_in_tag (translatable_tags tl) t || is_rules_list
    then (results ++ [mkEntry new_path (strip (text_or_empty child))])%list
    else results
  else results.

(** The body of the second loop; [recurse] is the recursive call. *)
Definition loop_body (tl : TagLists)
    (recurse : Element -> string -> list Entry -> list Entry)
    (node_tag : option string) (current_path : string)
    (name_counts : Dict.t nat) (li_children_names : list (option string))
    (w : Walk) (child : Element) : Walk :=
  match tag child with
  | None => mkWalk (w_i w + 1) (w_name_indices w) (w_li_index w) (w_results w)
  | Some t =>
      if t =? "defName"
      then mkWalk (w_i w + 1) (w_name_indices w) (w_li_index w) (w_results w)
      else
        let '(part, name_indices, li_index) :=
          choose_part name_counts li_children_names
            (w_i w) (w_name_indices w) (w_li_index w) t in
        let new_path := current_path ++ "." ++ part in
        let is_rules_list :=
          match node_tag with
          | Some nt => (nt =? "rulesStrings") && (t =? "li")
          | None => false
          end in
        let results := emit tl is_rules_list t new_path child (w_results w) in
        mkWalk (w_i w + 1) name_indices li_index
          (recurse child new_path results)
  end.

(** [extract_recursive(node, current_path, results)]; the list [results]
    is appended to and returned. *)
Fixpoint extract_recursive (tl : TagLists) (node : Element)
    (current_path : string) (results : list Entry) {struct node} : list Entry :=
  match node with
  | Elem node_tag _ cs =>
      let '(name_counts, li_children_names) := prescan cs in
      w_results
        (fold_left
           (fun w child =>
              loop_body tl (extract_recursive tl) node_tag current_path
                name_counts li_children_names w child)
           cs (mkWalk 0 [] 0 results))
  end.

(** The counters of the second loop after one child, with the path
    component the child was given ([None] for a child the loop skips): the
    loop body with its results left out. *)
Definition advance (name_counts : Dict.t nat)
    (li_children_names : list (option string))
    (i : nat) (name_indices : Dict.t nat) (li_index : nat) (child : Element)
  : option string * Dict.t nat * nat :=
  match tag child with
  | None => (None, name_indices, li_index)
  | Some t =>
      if t =? "defName" then (None, name_indices, li_index)
      else
        let '(part, name_indices', li_index') :=
          choose_part name_counts li_children_names i name_indices li_index t in
        (Some part, name_indices', li_index')
  end.

(** The path components given to the children of a node, in order. *)
Fixpoint parts_from (name_counts : Dict.t nat)
    (li_children_names : list (option string))
    (i : nat) (name_indices : Dict.t nat) (li_index : nat)
    (cs : list Element) : list (option string) :=
  match cs with
  | [] => []
  | child :: rest =>
      let '(part, name_indices', li_index') :=
        advance name_counts li_children_names i name_indices li_index child in
      part :: parts_from name_counts li_children_names
                (i + 1) name_indices' li_index' rest
  end.

Definition sibling_parts (node : Element) : list (option string) :=
  let '(name_counts, li_children_names) := prescan (children node) in
  parts_from name_counts li_children_names 0 [] 0 (children node).

(** The display name of a list item as the second loop reads it: the
    resolved name when the child is an [li] with a truthy name. *)
Definition display_name (child : Element) : option string :=
  if tag_is "li" child then
    match get_li_name child with
    | Some n => if truthy n then Some n else None
    | None => None
    end
  else None.

Definition named (n : string) (child : Element) : bool :=
  match display_name child with
  | Some m => m =? n
  | None => false
  end.

(** How many of the children [cs] are list items with display name [n]. *)
Definition count_named (n : string) (cs : list Element) : nat :=
  List.length (filter (named n) cs).

(** The entries a child contributes when it is given the component [part]:
    its own entry, if any, then those of its subtree. *)
Definition child_entries (tl : TagLists) (node_tag : option string)
    (current_path : string) (child : Element) (part : option string)
  : list Entry :=
  match part, tag child with
  | Some p, Some t =>
      let new_path := current_path ++ "." ++ p in
      let is_rules_list :=
        match node_tag with
        | Some nt => (nt =? "rulesStrings") && (t =? "li")
        | None => false
        end in
      (emit tl is_rules_list t new_path child []
       ++ extract_recursive tl child new_path [])%list
  | _, _ => []
  end.

(** The slot of a child in [li_children_names]. *)
Definition name_slot (child : Element) : option string :=
  if tag_is "li" child then get_li_name child else None.

(** The running counters agree with the children [pre] already visited,
    for every name the histogram of [all] gives a suffix to. *)
Definition counted (all pre : list Element) (name_indices : Dict.t nat) : Prop :=
  forall m, 1 < count_named m all ->
            Dict.get_default m 0 name_indices = count_named m pre.

(** Appending to [results] commutes with the walk of a subtree. *)
Definition appends (tl : TagLists) (e : Element) : Prop :=
  forall p r, extract_recursive tl e p r = (r ++ extract_recursive tl e p [])%list.

End Deriver.

(** ** Documents read and written *)

(** What [ET.parse] finds at a path: no file, a file that does not parse, or
    the children of the root, each with its tag and its text. *)
Inductive FileState : Type :=
| Missing
| Unparseable
| Parsed (root_children : list (string * option string)).

(** One [f.write] call.  The call that writes a translated element is kept
    apart from the others so that the document can be read back. *)
Inductive Write : Type :=
| Raw (chunk : string)
| LiveElement (k v : string).

Module Output.

Import Text.

Definition nl : string := String (ascii_of_nat 10) EmptyString.
Definition quote : string := String (ascii_of_nat 34) EmptyString.

Definition xml_declaration : string :=
  "<?xml version=" ++ quote ++ "1.0" ++ quote ++
  " encoding=" ++ quote ++ "UTF-8" ++ quote ++ "?>" ++ nl.

(** [f'  <{key}>{val_to_write}</{key}>\n'], the value already escaped. *)
Definition element_line (k escaped : string) : string :=
  "  <" ++ k ++ ">" ++ escaped ++ "</" ++ k ++ ">" ++ nl.

(** [f'  <!-- <{k}>{val}</{k}> -->\n']: a disabled record. *)
Definition disabled_line (k v : string) : string :=
  "  <!-- <" ++ k ++ ">" ++ v ++ "</" ++ k ++ "> -->" ++ nl.

Definition unused_marker : string := nl ++ "  <!-- INUTILIZADO -->" ++ nl.

Definition render (w : Write) : string :=
  match w with
  | Raw chunk => chunk
  | LiveElement k v => element_line k (escape v)
  end.

(** The bytes of the file after the writes. *)
Definition content (ws : list Write) : string :=
  String.concat "" (map render ws).

(** *** Reading a written file back

    The parser ([ET.parse]) is outside this program.  What follows says what
    it returns for a file one of the two writers has written, from the
    chunks written, in the cases where that can be told from the chunks. *)

Definition cr : ascii := ascii_of_nat 13.
Definition lf : ascii := ascii_of_nat 10.

(** The parser hands on every line end as a line feed: a carriage return,
    with the line feed after it when there is one, becomes a line feed. *)
Fixpoint line_ends (s : string) : string :=
  match s with
  | EmptyString => EmptyString
  | String c r =>
      if Ascii.eqb c cr then
        String lf
          match r with
          | EmptyString => EmptyString
          | String c' r' => if Ascii.eqb c' lf then line_ends r' else line_ends r
          end
      else String c (line_ends r)
  end.

(** The rest of [s] from its first two hyphens in a row on; empty when it
    has none. *)
Fixpoint from_dashes (s : string) : string :=
  match s with
  | EmptyString => EmptyString
  | String _ r => if prefix "--" s then s else from_dashes r
  end.

(** A chunk the parser drops: text without markup and then, if anything,
    one comment that is closed at the end of the chunk and nowhere before
    (two hyphens in a row inside a comment are an error unless they close
    it). *)
Fixpoint inert (chunk : string) : bool :=
  if prefix "<!--" chunk then from_dashes (drop 4 chunk) =? "-->" ++ nl
  else
    match chunk with
    | EmptyString => true
    | String c r => negb (Ascii.eqb c "<") && inert r
    end.

(** The chunks around the elements: the declaration and the two tags of
    the root, as the writers write them. *)
Definition frame (chunk : string) : bool :=
  (chunk =? xml_declaration)
  || (chunk =? "<LanguageData>" ++ nl)
  || (chunk =? "</LanguageData>")
  || (chunk =? nl ++ "</LanguageData>" ++ nl).

(** A key that can only be read as the element name it is written as: it
    has no white space, which would end the name, no [>], which would end
    the tag, and no colon, which would make a prefix of what is before it. *)
Fixpoint plain_name (k : string) : bool :=
  match k with
  | EmptyString => true
  | String c r =>
      negb (isspace c || Ascii.eqb c ">" || Ascii.eqb c ":") && plain_name r
  end.

(** The chunks tell what the parser finds: every chunk other than an
    element is dropped and every element has a plain name. *)
Definition read_as_written (ws : list Write) : bool :=
  forallb (fun w => match w with
                    | Raw chunk => frame chunk || inert chunk
                    | LiveElement k _ => plain_name k
                    end) ws.

(** An element as the parser returns it: the escaping is undone, the line
    ends are line feeds, and an element without characters has no text. *)
Definition read_element (w : Write) : list (string * option string) :=
  match w with
  | Raw _ => []
  | LiveElement k v =>
      let text := line_ends v in
      [(k, if text =? "" then None else Some text)]
  end.

(** What the parser returns for the file.  [accepted] tells whether it
    takes the file (it raises an error on a name, a character or a comment
    that is not well formed).  When it takes a file whose chunks do not tell
    what it finds, this model gives no answer. *)
Definition read_back (accepted : bool) (ws : list Write) : option FileState :=
  if accepted then
    if read_as_written ws then Some (Parsed (flat_map read_element ws)) else None
  else Some Unparseable.

(** The trailing section shared by both writers: the keys of the old output
    that were not written, kept as disabled records under a marker. *)
Definition unused_section (existing_translations : Dict.t string)
    (used_keys : list string) : list Write :=
  let unused_keys :=
    filter (fun k => negb (set_mem k used_keys)) (Dict.keys existing_translations) in
  match unused_keys with
  | [] => []
  | _ :: _ =>
      Raw unused_marker ::
      map (fun k => Raw (disabled_line k (Dict.get_default k "" existing_translations)))
          unused_keys
  end.

(** The old output has a child with a tag and a text, so that the readers
    of both writers find an entry in it. *)
Definition has_text_child (output_file : FileState) : bool :=
  match output_file with
  | Parsed cs =>
      existsb (fun child : string * option string =>
                 truthy (fst child) && truthy_opt (snd child)) cs
  | Missing | Unparseable => false
  end.

(** [action = "Actualizado" if existing_translations else "Generado"]. *)
Definition action (existing_translations : Dict.t string) : string :=
  match existing_translations with
  | [] => "Generado"
  | _ :: _ => "Actualizado"
  end.

End Output.

(** ** The archive index builders *)

Module Archive.

Import Text.

(** The loop shared by [load_archive_translations] and
    [load_single_xml_translations]: trimmed texts, without the empty ones
    and without the placeholder in any letter case. *)
Definition index_child (translations : Dict.t string) (child : string * option string)
  : Dict.t string :=
  let '(child_tag, child_text) := child in
  match child_text with
  | Some raw =>
      if truthy child_tag && truthy raw then
        let text := strip raw in
        if truthy text && negb (upper text =? "TODO")
        then Dict.set child_tag text translations
        else translations
      else translations
  | None => translations
  end.

Definition index_file (translations : Dict.t string) (f : FileState) : Dict.t string :=
  match f with
  | Parsed cs => fold_left index_child cs translations
  | Missing | Unparseable => translations
  end.

(** [load_archive_translations]: every [*.xml] file under the archive
    path, in the order of the directory walk; [None] when there is no
    archive path. *)
Definition load_archive_translations (archive_files : option (list FileState))
  : Dict.t string :=
  match archive_files with
  | Some files => fold_left index_file files []
  | None => []
  end.

(** [load_single_xml_translations]. *)
Definition load_single_xml_translations (f : FileState) : Dict.t string :=
  index_file [] f.

(** Every value of a dictionary satisfies [P]. *)
Definition all_values (P : string -> Prop) (d : Dict.t string) : Prop :=
  forall k v, Dict.get k d = Some v -> P v.

(** What the archive loaders let in: trimmed, not empty, not the
    placeholder in any letter case. *)
Definition archived (v : string) : Prop :=
  strip v = v /\ v <> "" /\ upper v <> "TODO".

End Archive.

(** ** The Keyed writer ([save_keyed_translations]) *)

Module Keyed.

Import Text Output.

(** The old output as the Keyed writer reads it: the texts as they are. *)
Definition read_child (existing_translations : Dict.t string)
    (child : string * option string) : Dict.t string :=
  let '(child_tag, child_text) := child in
  match child_text with
  | Some raw =>
      if truthy child_tag && truthy raw
      then Dict.set child_tag raw existing_translations
      else existing_translations
  | None => existing_translations
  end.

Definition load_existing (output_file : FileState) : Dict.t string :=
  match output_file with
  | Parsed cs => fold_left read_child cs []
  | Missing | Unparseable => []
  end.

(** The value written for a key: the old value, or, for a placeholder or
    empty one and a key of the global archive, the local archive value
    before the global one. *)
Definition resolve (existing_translations local_translations
                    archive_translations : Dict.t string) (k : string) : string :=
  let val_to_write := Dict.get_default k "TODO" existing_translations in
  if ((val_to_write =? "TODO") || (val_to_write =? ""))
     && Dict.mem k archive_translations
  then
    match Dict.get k local_translations with
    | Some v => v
    | None => Dict.get_default k "" archive_translations
    end
  else val_to_write.

Definition write_entry (existing_translations local_translations
                        archive_translations : Dict.t string) (entry : Entry)
  : list Write :=
  let original_text := replace "--" "- -" (value entry) in
  let val_to_write :=
    resolve existing_translations local_translations archive_translations
      (key entry) in
  [Raw (nl ++ "  <!-- EN: " ++ original_text ++ " -->" ++ nl);
   LiveElement (key entry) val_to_write].

(** The loop over the entries; [used_keys] grows with every entry. *)
Fixpoint write_entries (existing_translations local_translations
                         archive_translations : Dict.t string)
    (entries : list Entry) (used_keys : list string)
  : list Write * list string :=
  match entries with
  | [] => ([], used_keys)
  | entry :: rest =>
      let '(ws, used) :=
        write_entries existing_translations local_translations
          archive_translations rest (key entry :: used_keys) in
      ((write_entry existing_translations local_translations
          archive_translations entry ++ ws)%list, used)
  end.

(** The writes of [save_keyed_translations], from the old output as read. *)
Definition document (existing_translations local_translations
                     archive_translations : Dict.t string)
    (entries : list Entry) : list Write :=
  let '(ws, used_keys) :=
    write_entries existing_translations local_translations
      archive_translations entries [] in
  ([Raw xml_declaration; Raw ("<LanguageData>" ++ nl)]
   ++ ws
   ++ unused_section existing_translations used_keys
   ++ [Raw (nl ++ "</LanguageData>" ++ nl)])%list.

(** [save_keyed_translations]: the writes to the output file and the log
    line returned.  [local_file] is [Missing] when there is no archive
    directory. *)
Definition save_keyed_translations (archive_translations : Dict.t string)
    (entries : list Entry) (original_filename : string)
    (output_file local_file : FileState) : list Write * list string :=
  let existing_translations := load_existing output_file in
  let local_translations := Archive.load_single_xml_translations local_file in
  (document existing_translations local_translations archive_translations entries,
   ["[" ++ action existing_translations ++ "] " ++ original_filename]).

(** [process_keyed_file] up to the call of the writer: one entry per child
    of the source root that has a text. *)
Definition keyed_entries (source_children : list (string * option string))
  : list Entry :=
  flat_map
    (fun child : string * option string =>
       match snd child with
       | Some raw => if truthy raw then [mkEntry (fst child) (strip raw)] else []
       | None => []
       end)
    source_children.

End Keyed.

(** ** The DefInjected writer ([save_translations]) *)

Module DefInjected.

Import Text Output.

(** An entry after the renaming step, with its definition name and field. *)
Record Processed : Type := mkProcessed {
  p_key : string;
  p_value : string;
  p_def_name : string;
  p_field : string
}.

(** The definition name of a key: [key.split('.')[0] if '.' in key else key]. *)
Definition def_of (k : string) : string :=
  if has_dot k then before_dot k else k.

Definition implicit_marker : string := "(Implicit/Inherited)".

(** The extra entries of the optional recovery step: one per key of the
    global archive that has a dot, belongs to a definition of the entries
    and is not a key of the entries. *)
Definition extra_entries (archive_translations english_translations : Dict.t string)
    (entries : list Entry) : list Entry :=
  let present_defs := map (fun entry => def_of (key entry)) entries in
  let present_keys := map key entries in
  flat_map
    (fun item : string * string =>
       let arch_key := fst item in
       if has_dot arch_key then
         let def_part := before_dot arch_key in
         if set_mem def_part present_defs && negb (set_mem arch_key present_keys)
         then [mkEntry arch_key
                 (Dict.get_default arch_key implicit_marker english_translations)]
         else []
       else [])
    archive_translations.

Definition recover_implicit (enabled : bool)
    (archive_translations english_translations : Dict.t string)
    (entries : list Entry) : list Entry :=
  if enabled
  then (entries ++ extra_entries archive_translations english_translations entries)%list
  else entries.

(** The renaming step: in a Backstory definition type the field [baseDesc]
    becomes [description]. *)
Definition process_entry (is_backstory : bool) (entry : Entry) : Processed :=
  let k := key entry in
  let def_name := if has_dot k then before_dot k else k in
  let field := if has_dot k then after_dot k else "" in
  if is_backstory && (field =? "baseDesc")
  then mkProcessed (def_name ++ "." ++ "description") (value entry)
         def_name "description"
  else mkProcessed k (value entry) def_name field.

Definition field_priority (field : string) : nat :=
  if field =? "label" then 1
  else if field =? "description" then 2
  else if field =? "title" then 3
  else if field =? "titleShort" then 4
  else if field =? "baseDesc" then 5
  else if field =? "deathMessage" then 6
  else if field =? "endMessage" then 7
  else 99.

(** The order of the sort key [(def_name, priority)]. *)
Definition sort_key_le (a b : Processed) : bool :=
  match String.compare (p_def_name a) (p_def_name b) with
  | Lt => true
  | Eq => Nat.leb (field_priority (p_field a)) (field_priority (p_field b))
  | Gt => false
  end.

Fixpoint insert_sorted (x : Processed) (l : list Processed) : list Processed :=
  match l with
  | [] => [x]
  | y :: r => if sort_key_le x y then x :: l else y :: insert_sorted x r
  end.

(** [list.sort(key=...)]: a stable sort. *)
Definition sort_entries (l : list Processed) : list Processed :=
  fold_right insert_sorted [] l.

(** The entries the writer loops over. *)
Definition prepare (recover : bool) (def_type : string)
    (archive_translations english_translations : Dict.t string)
    (entries : list Entry) : list Processed :=
  let is_backstory := contains "Backstory" def_type in
  sort_entries
    (map (process_entry is_backstory)
       (recover_implicit recover archive_translations english_translations entries)).

(** The old output as the DefInjected writer reads it: the texts trimmed. *)
Definition read_child (existing_translations : Dict.t string)
    (child : string * option string) : Dict.t string :=
  let '(child_tag, child_text) := child in
  match child_text with
  | Some raw =>
      if truthy child_tag && truthy raw
      then Dict.set child_tag (strip raw) existing_translations
      else existing_translations
  | None => existing_translations
  end.

Definition load_existing (output_file : FileState) : Dict.t string :=
  match output_file with
  | Parsed cs => fold_left read_child cs []
  | Missing | Unparseable => []
  end.

(** One synonym step: [key.endswith(old) and key.replace(old, new) in
    archive], giving the archive value at the replaced key. *)
Definition synonym (archive_translations : Dict.t string) (old new k : string)
  : option string :=
  if endswith old k then Dict.get (replace old new k) archive_translations
  else None.

(** The four synonym steps as pairs of suffixes. *)
Definition synonyms : list (string * string) :=
  [(".baseDesc", ".description"); (".description", ".baseDesc");
   (".title", ".label"); (".label", ".title")].

(** The chain of lookups as one function: the local archive, the global
    archive, then the four synonym steps; [None] when all fail. *)
Definition lookup (local_translations archive_translations : Dict.t string)
    (k : string) : option string :=
  match Dict.get k local_translations with
  | Some v => Some v
  | None =>
  match Dict.get k archive_translations with
  | Some v => Some v
  | None =>
  match synonym archive_translations ".baseDesc" ".description" k with
  | Some v => Some v
  | None =>
  match synonym archive_translations ".description" ".baseDesc" k with
  | Some v => Some v
  | None =>
  match synonym archive_translations ".title" ".label" k with
  | Some v => Some v
  | None => synonym archive_translations ".label" ".title" k
  end end end end end.

(** The value written for a key: the old value unless it is the placeholder
    or empty; then the local archive, the global archive and the four
    synonym steps, in that order. *)
Definition resolve (existing_translations local_translations
                    archive_translations : Dict.t string) (k : string) : string :=
  let val_to_write := Dict.get_default k "TODO" existing_translations in
  if (val_to_write =? "TODO") || (val_to_write =? "") then
    match Dict.get k local_translations with
    | Some v => v
    | None =>
    match Dict.get k archive_translations with
    | Some v => v
    | None =>
    match synonym archive_translations ".baseDesc" ".description" k with
    | Some v => v
    | None =>
    match synonym archive_translations ".description" ".baseDesc" k with
    | Some v => v
    | None =>
    match synonym archive_translations ".title" ".label" k with
    | Some v => v
    | None =>
    match synonym archive_translations ".label" ".title" k with
    | Some v => v
    | None => val_to_write
    end end end end end end
  else val_to_write.

(** The loop over the entries: a blank line between two definitions, then
    the source text as a comment and the element. *)
Fixpoint write_entries (existing_translations local_translations
                         archive_translations : Dict.t string)
    (entries : list Processed) (last_def : option string)
    (used_keys : list string) : list Write * list string :=
  match entries with
  | [] => ([], used_keys)
  | entry :: rest =>
      let k := p_key entry in
      let current_def := if has_dot k then before_dot k else k in
      let separator :=
        if truthy_opt last_def && negb (current_def =? match last_def with
                                                       | Some d => d
                                                       | None => ""
                                                       end)
        then [Raw nl] else [] in
      let original_text := replace "--" "- -" (p_value entry) in
      let val_to_write :=
        resolve existing_translations local_translations archive_translations k in
      let '(ws, used) :=
        write_entries existing_translations local_translations
          archive_translations rest (Some current_def) (k :: used_keys) in
      ((separator
        ++ [Raw ("  <!-- EN: " ++ original_text ++ " -->" ++ nl);
            LiveElement k val_to_write]
        ++ ws)%list, used)
  end.

(** The writes to one output file, from the old output as read. *)
Definition document (existing_translations local_translations
                     archive_translations : Dict.t string)
    (entries : list Processed) : list Write :=
  let '(ws, used_keys) :=
    write_entries existing_translations local_translations
      archive_translations entries None [] in
  ([Raw xml_declaration; Raw ("<LanguageData>" ++ nl); Raw ("  " ++ nl)]
   ++ ws
   ++ unused_section existing_translations used_keys
   ++ [Raw ("  " ++ nl); Raw "</LanguageData>"])%list.

(** The extractor's state the writer reads: the recovery option and the two
    indices loaded once per run. *)
Record Run : Type := mkRun {
  recover_option : bool;
  global_archive_translations : Dict.t string;
  english_translations : Dict.t string
}.

(** One turn of the loop of [save_translations] over the definition types:
    the writes to [def_type/original_filename] and the log line. *)
Definition save_def_type (run : Run) (def_type : string) (entries : list Entry)
    (original_filename : string) (output_file local_file : FileState)
  : list Write * string :=
  let local_translations := Archive.load_single_xml_translations local_file in
  let prepared :=
    prepare (recover_option run) def_type (global_archive_translations run)
      (english_translations run) entries in
  let existing_translations := load_existing output_file in
  (document existing_translations local_translations
     (global_archive_translations run) prepared,
   "[" ++ action existing_translations ++ "] " ++ def_type ++ "/" ++ original_filename).

(** [save_translations]: every definition type with entries gets its file;
    [output_files] and [local_files] give the state of the files at the paths
    the loop computes for a definition type. *)
Definition save_translations (run : Run) (translations_dict : Dict.t (list Entry))
    (original_filename : string) (output_files local_files : string -> FileState)
  : list (string * list Write) * list string :=
  fold_left
    (fun (acc : list (string * list Write) * list string)
         (item : string * list Entry) =>
       let '(def_type, entries) := item in
       match entries with
       | [] => acc
       | _ :: _ =>
           let '(ws, line) :=
             save_def_type run def_type entries original_filename
               (output_files def_type) (local_files def_type) in
           ((fst acc ++ [(def_type, ws)])%list, (snd acc ++ [line])%list)
       end)
    translations_dict ([], []).

(** The dictionary [translations_by_type] of [process_file]: every child
    of the root with a [defName] that has a text is walked, and its entries
    join those of its definition type. *)
Definition translations_by_type (tl : TagLists) (xml_root : Element)
  : Dict.t (list Entry) :=
  fold_left
    (fun (acc : Dict.t (list Entry)) (def_node : Element) =>
       match tag def_node with
       | None => acc
       | Some def_type =>
           match Deriver.find_child "defName" def_node with
           | None => acc
           | Some def_name_node =>
               match text def_name_node with
               | Some def_name =>
                   if truthy def_name then
                     Dict.set def_type
                       (Deriver.extract_recursive tl def_node def_name
                          (Dict.get_default def_type [] acc))
                       acc
                   else acc
               | None => acc
               end
           end
       end)
    (children xml_root) [].

(** [process_file]: a source that does not parse gives nothing, and so
    does one without definitions. *)
Definition process_file (tl : TagLists) (run : Run) (source : option Element)
    (file_name : string) (output_files local_files : string -> FileState)
  : list (string * list Write) * list string :=
  match source with
  | None => ([], [])
  | Some xml_root =>
      match translations_by_type tl xml_root with
      | [] => ([], [])
      | d => save_translations run d file_name output_files local_files
      end
  end.

End DefInjected.

(** ** The wrapper-folder flattening of [run_extraction] *)

Module Paths.

Import Text.

(** The first index whose segment is [mods] in any letter case (the loop
    with its [break]); [None] stands for the initial [-1]. *)
Fixpoint find_mods (parts_out : list string) (i : nat) : option nat :=
  match parts_out with
  | [] => None
  | p :: rest => if lower p =? "mods" then Some i else find_mods rest (i + 1)
  end.

(** The [simplify_mods] block on the segments of [output_rel_path]: the
    slice [mods_idx:mods_idx+2] is deleted when a segment follows. *)
Definition simplify_mods (parts_out : list string) : list string :=
  match find_mods parts_out 0 with
  | Some mods_idx =>
      if Nat.ltb (mods_idx + 1) (List.length parts_out)
      then (firstn mods_idx parts_out ++ skipn (mods_idx + 2) parts_out)%list
      else parts_out
  | None => parts_out
  end.

(** The flattening in the words of the specification: every segment equal
    to [mods] goes, with the segment that follows it. *)
Fixpoint remove_every_wrapper (parts : list string) : list string :=
  match parts with
  | [] => []
  | p :: rest =>
      if lower p =? "mods" then
        match rest with
        | [] => []
        | _ :: rest' => remove_every_wrapper rest'
        end
      else p :: remove_every_wrapper rest
  end.

(** The output path with the option taken into account. *)
Definition flatten (simplify : bool) (output_rel_path : list string) : list string :=
  if simplify then simplify_mods output_rel_path else output_rel_path.

End Paths.

(** ** Counting list items *)

Module Items.

Import Text Deriver.

(** How many of the children [cs] are list items. *)
Definition count_li (cs : list Element) : nat :=
  List.length (filter (tag_is "li") cs).

(** A list item without children and with a text that is not blank. *)
Definition plain_item (c : Element) : bool :=
  tag_is "li" c && leaf_with_text c.

(** Every byte is below 128: the text is written in ASCII. *)
Fixpoint is_ascii (s : string) : bool :=
  match s with
  | EmptyString => true
  | String c r => Nat.ltb (nat_of_ascii c) 128 && is_ascii r
  end.

(** The custom labels of the children [cs] are written in ASCII, where
    [isalnum] is the one of Python. *)
Definition ascii_labels (cs : list Element) : bool :=
  forallb (fun c => match found_text "customLabel" c with
                    | Some label => is_ascii label
                    | None => true
                    end) cs.

(** A child [process_file] walks: a string tag and a [defName] with text. *)
Definition named_definition (c : Element) : bool :=
  match tag c, found_text "defName" c with
  | Some _, Some _ => true
  | _, _ => false
  end.

End Items.

(** ** Notions used in the statements about the index and the writers *)

Module Notions.

Import Text.

(** The value [v] of the key [k] is the trimmed text of an element of the
    file [f] with that tag. *)
Definition from_file (k v : string) (f : FileState) : Prop :=
  exists cs raw,
    f = Parsed cs /\ In (k, Some raw) cs /\ v = strip raw.

(** The prior output file holds the text [raw] for the key [k]: an element
    of its root has the tag [k] and the text [raw], which is not empty, and
    no element after it has that tag and a text. *)
Definition last_text (k raw : string) (f : FileState) : Prop :=
  exists before after,
    f = Parsed (before ++ (k, Some raw) :: after)%list
    /\ k <> "" /\ raw <> ""
    /\ forall x, In (k, Some x) after -> x = "".

(** [d] is the part of the key [k] before its first dot, the whole key when
    it has no dot. *)
Definition first_component (d k : string) : Prop :=
  has_dot d = false /\ (k = d \/ exists rest, k = d ++ "." ++ rest).

(** Two processed entries with the same sort key. *)
Definition same_sort_key (a b : DefInjected.Processed) : bool :=
  (DefInjected.p_def_name a =? DefInjected.p_def_name b)
  && Nat.eqb (DefInjected.field_priority (DefInjected.p_field a))
             (DefInjected.field_priority (DefInjected.p_field b)).

(** The keys of the live elements of a document, in order. *)
Definition live_keys (ws : list Write) : list string :=
  flat_map (fun w => match w with
                     | Raw _ => []
                     | LiveElement k _ => [k]
                     end) ws.

End Notions.

(** ** The tag lists and the text boxes ([load_tags_to_ui],
    [update_tags_from_ui]) *)

Module Tags.

Import Text.

Definition comma : ascii := ","%char.

(** [s.split(',')]: the pieces between the commas, one more than there are
    commas. *)
Fixpoint split_commas (s : string) : list string :=
  match s with
  | EmptyString => [EmptyString]
  | String c r =>
      if Ascii.eqb c comma then EmptyString :: split_commas r
      else
        match split_commas r with
        | piece :: pieces => String c piece :: pieces
        | [] => [String c EmptyString]
        end
  end.

(** [', '.join(tags)], the text [load_tags_to_ui] puts in a box. *)
Definition load_tags_to_ui (tags : list string) : string :=
  String.concat ", " tags.

(** [[tag.strip() for tag in text.split(',') if tag.strip()]], the list
    [update_tags_from_ui] reads from a box. *)
Definition update_tags_from_ui (box : string) : list string :=
  flat_map (fun tag => if truthy (strip tag) then [strip tag] else [])
    (split_commas box).

(** [',' in s]. *)
Fixpoint has_comma (s : string) : bool :=
  match s with
  | EmptyString => false
  | String c r => Ascii.eqb c comma || has_comma r
  end.

(** A tag as the boxes can give it back: not empty, trimmed, and without a
    comma. *)
Definition clean (tag : string) : Prop :=
  tag <> "" /\ strip tag = tag /\ has_comma tag = false.

End Tags.

(** ** The version filter and the merge of [run_extraction] *)

Module Versions.

Import Text.

(** The rest of a string after its leading digits. *)
Fixpoint drop_digits (s : string) : string :=
  match s with
  | EmptyString => EmptyString
  | String c r => if is_digit c then drop_digits r else s
  end.

Definition starts_with_digit (s : string) : bool :=
  match s with
  | EmptyString => false
  | String c _ => is_digit c
  end.

(** [re.match(r'^\d+\.\d+$', s)] with the digits 0 to 9: digits, a dot,
    digits, and then the end of the string or a last line feed.  The items
    of the version box are written with these digits. *)
Definition is_version (s : string) : bool :=
  starts_with_digit s &&
  match drop_digits s with
  | String c r =>
      Ascii.eqb c dot && starts_with_digit r &&
      let rest := drop_digits r in
      (rest =? "") || (rest =? String (ascii_of_nat 10) EmptyString)
  | EmptyString => false
  end.

(** [str(path)] for a relative path given by its segments, with the
    separator of the platform; the empty path is the dot. *)
Definition str_path (sep : string) (parts : list string) : string :=
  match parts with
  | [] => "."
  | _ :: _ => String.concat sep parts
  end.

(** The block of [run_extraction] that decides whether a directory at
    [rel_path] is processed and where its output goes: [None] stands for
    [should_process = False].  [target_version] is an item of the version
    box, a single path segment. *)
Definition resolve (sep target_version : string) (merge_versions : bool)
    (rel_path : list string) : option (list string) :=
  if target_version =? "Todas" then Some rel_path
  else if merge_versions then
    let target_path := if target_version =? "Base" then [] else [target_version] in
    match rel_path with
    | [] => Some target_path
    | first :: rest =>
        if is_version first then Some (target_path ++ rest)%list
        else Some (target_path ++ rel_path)%list
    end
  else
    let is_base := str_path sep rel_path =? "." in
    if (target_version =? "Base") && negb is_base then None
    else if negb (target_version =? "Base")
            && negb (str_path sep rel_path =? target_version) then None
    else Some rel_path.

(** The items of the version box. *)
Definition version_items : list string :=
  ["Todas"; "1.6"; "1.5"; "1.4"; "1.3"; "1.2"; "1.1"; "1.0"; "Base"].

End Versions.

(** ** A Keyed source file ([process_keyed_file]) *)

Module KeyedFile.

Import Text Output.

(** [process_keyed_file]: [source] is [None] when the file does not parse.
    The result is the document written, if one is, and the log lines
    returned; without entries the writer is not called. *)
Definition process_keyed_file (archive_translations : Dict.t string)
    (source : option (list (string * option string))) (file_name : string)
    (output_file local_file : FileState) : option (list Write) * list string :=
  match source with
  | None => (None, [])
  | Some source_children =>
      match Keyed.keyed_entries source_children with
      | [] => (None, [])
      | entries =>
          let '(ws, lines) :=
            Keyed.save_keyed_translations archive_translations entries
              file_name output_file local_file in
          (Some ws, lines)
      end
  end.

End KeyedFile.

(** ** The published file id of [create_minimal_about] *)

Module AboutFile.

Import Text.

(** A text file at a path: not there, there but not readable as UTF-8, or
    there with its content. *)
Inductive TextFile : Type :=
| Absent
| Unreadable
| Content (s : string).

Definition file_exists (p : TextFile) : bool :=
  match p with
  | Absent => false
  | Unreadable | Content _ => true
  end.

(** One turn of the loop that looks for the id: the trimmed content of a
    file that is there and readable, when it is not empty. *)
Definition read_id (p : TextFile) : option string :=
  match p with
  | Content c => if truthy (strip c) then Some (strip c) else None
  | Absent | Unreadable => None
  end.

(** The loop over the candidate files, left at the first id found. *)
Fixpoint published_file_id (candidates : list TextFile) : option string :=
  match candidates with
  | [] => None
  | p :: rest =>
      match read_id p with
      | Some content => Some content
      | None => published_file_id rest
      end
  end.

(** The name of the file written in [About]. *)
Definition filename (published_file_id : option string) : string :=
  match published_file_id with
  | Some id => if truthy id then "About_" ++ id ++ ".xml" else "About.xml"
  | None => "About.xml"
  end.

(** The first candidate that is there. *)
Fixpoint first_existing (candidates : list TextFile) : option TextFile :=
  match candidates with
  | [] => None
  | p :: rest => if file_exists p then Some p else first_existing rest
  end.

(** [create_minimal_about] from the point where the original [About.xml]
    has been read: [package_id] is the text of its [packageId] ([None] when
    the file is not found, does not parse or has no such element), and
    [written] tells whether the directory is made and the new file opened
    and written without an error (with an id that holds a path separator
    the name is a path into a directory that is not there, and [open]
    raises).  An error leaves the function through its handler, before the
    copy.  The result is the name of the file written and the file the copy
    is made from, if any. *)
Definition create_minimal_about (package_id : option string)
    (candidates : list TextFile) (written : bool)
  : option (string * option TextFile) :=
  if truthy_opt package_id then
    let published_file_id := published_file_id candidates in
    if written then
      Some (filename published_file_id,
            if truthy_opt published_file_id then first_existing candidates
            else None)
    else None
  else None.

End AboutFile.

(** * Facts about the primitives *)

Module TextFacts.

Import Text.

Lemma append_inv_head (s a b : string) : s ++ a = s ++ b -> a = b.
Proof.
  induction s as [|c s IH]; simpl; intro H; [exact H|].
  injection H as H. exact (IH H).
Qed.

Lemma append_assoc (a b c : string) : (a ++ b) ++ c = a ++ (b ++ c).
Proof.
  induction a as [|x a IH]; simpl; [reflexivity|]. now rewrite IH.
Qed.

Lemma append_nil_r (a : string) : a ++ "" = a.
Proof.
  induction a as [|x a IH]; simpl; [reflexivity|]. now rewrite IH.
Qed.

Lemma str_of_nat_inj (a b : nat) : str_of_nat a = str_of_nat b -> a = b.
Proof.
  unfold str_of_nat. intro H.
  apply (f_equal NilEmpty.uint_of_string) in H.
  rewrite !NilEmpty.usu in H. injection H as H.
  apply (f_equal Nat.of_uint) in H.
  now rewrite !Unsigned.of_to in H.
Qed.

Lemma truthy_true (s : string) : truthy s = true <-> s <> "".
Proof.
  unfold truthy. rewrite negb_true_iff. apply String.eqb_neq.
Qed.

Lemma truthy_false (s : string) : truthy s = false <-> s = "".
Proof.
  unfold truthy. rewrite negb_false_iff. apply String.eqb_eq.
Qed.

(** Trimming twice is trimming once. *)

Lemma length_ind (P : string -> Prop) :
  (forall s, (forall t, String.length t < String.length s -> P t) -> P s) ->
  forall s, P s.
Proof.
  intros H s. remember (String.length s) as n eqn:E. revert s E.
  induction n as [n IH] using lt_wf_ind. intros s ->.
  apply H. intros t Ht. exact (IH _ Ht t eq_refl).
Qed.

Lemma string_length_app (a b : string) :
  String.length (a ++ b) = String.length a + String.length b.
Proof.
  induction a as [|c a IH]; simpl; [reflexivity|]. now rewrite IH.
Qed.

(** A string starts with no white-space character, or with one: then
    [lstrip] goes on after it. *)
Lemma lstrip_cases (s : string) :
  (space_len s = 0 /\ lstrip s = s)
  \/ (exists w r,
        s = w ++ r /\ w <> "" /\ space_len s <> 0
        /\ (forall x, lstrip (w ++ x) = lstrip x)
        /\ (forall x, space_len (w ++ x) = space_len s)).
Proof.
  destruct s as [|a [|b [|c r]]].
  - left. split; reflexivity.
  - cbn [space_len lstrip]. destruct (isspace a) eqn:Ea.
    + right. exists (String a ""), "". repeat split; try discriminate.
      * intro x. cbn [append lstrip]. now rewrite Ea.
      * intro x. cbn [append space_len]. rewrite Ea. now destruct x as [|? [|? ?]].
    + left. split; reflexivity.
  - cbn [space_len lstrip]. destruct (isspace a) eqn:Ea.
    + right. exists (String a ""), (String b ""). repeat split; try discriminate.
      * intro x. cbn [append lstrip]. now rewrite Ea.
      * intro x. cbn [append space_len]. rewrite Ea. now destruct x as [|? [|? ?]].
    + destruct (space2 a b) eqn:Eb.
      * right. exists (String a (String b "")), "". repeat split; try discriminate.
        -- intro x. cbn [append lstrip]. now rewrite Ea, Eb.
        -- intro x. cbn [append space_len]. rewrite Ea, Eb. now destruct x.
      * left. split; reflexivity.
  - cbn [space_len lstrip]. destruct (isspace a) eqn:Ea.
    + right. exists (String a ""), (String b (String c r)).
      repeat split; try discriminate.
      * intro x. cbn [append lstrip]. now rewrite Ea.
      * intro x. cbn [append space_len]. rewrite Ea. now destruct x as [|? [|? ?]].
    + destruct (space2 a b) eqn:Eb.
      * right. exists (String a (String b "")), (String c r).
        repeat split; try discriminate.
        -- intro x. cbn [append lstrip]. now rewrite Ea, Eb.
        -- intro x. cbn [append space_len]. rewrite Ea, Eb. now destruct x.
      * destruct (space3 a b c) eqn:Ec.
        -- right. exists (String a (String b (String c ""))), r.
           repeat split; try discriminate.
           ++ intro x. cbn [append lstrip]. now rewrite Ea, Eb, Ec.
           ++ intro x. cbn [append space_len]. now rewrite Ea, Eb, Ec.
        -- left. split; reflexivity.
Qed.

Lemma lstrip_starts_clean (s : string) : starts_clean (lstrip s) = true.
Proof.
  induction s as [s IH] using length_ind.
  destruct (lstrip_cases s) as [[H0 ->]|(w & r & -> & Hw & _ & Hl & _)].
  - unfold starts_clean. now rewrite H0.
  - rewrite Hl. apply IH. rewrite string_length_app.
    destruct w; [congruence|]. cbn [String.length]. lia.
Qed.

Lemma lstrip_clean (s : string) : starts_clean s = true -> lstrip s = s.
Proof.
  unfold starts_clean. intro H. apply Nat.eqb_eq in H.
  destruct (lstrip_cases s) as [[_ E]|(w & r & _ & _ & Hn & _)];
    [exact E|congruence].
Qed.

(** What [lstrip] removes is white space only. *)
Lemma lstrip_suffix (s : string) :
  exists p, s = p ++ lstrip s /\ (forall x, lstrip (p ++ x) = lstrip x).
Proof.
  induction s as [s IH] using length_ind.
  destruct (lstrip_cases s) as [[_ E]|(w & r & -> & Hw & _ & Hl & _)].
  - exists "". rewrite E. split; reflexivity.
  - destruct (IH r) as (p & Hp & Hx).
    { rewrite string_length_app. destruct w; [congruence|]. cbn [String.length]. lia. }
    exists (w ++ p). split.
    + rewrite Hl, append_assoc. now rewrite <- Hp.
    + intro x. now rewrite append_assoc, Hl.
Qed.

Lemma lstrip_app_blank (u x : string) :
  lstrip u = "" -> lstrip (u ++ x) = lstrip x.
Proof.
  intro H. destruct (lstrip_suffix u) as (p & Hp & Hx).
  rewrite H, append_nil_r in Hp. subst p. apply Hx.
Qed.

(** What [rstrip] removes is white space only. *)
Lemma rstrip_split (s : string) :
  exists w, s = rstrip s ++ w /\ lstrip w = "".
Proof.
  induction s as [|c r IH]; [now exists ""|].
  cbn [rstrip]. destruct (lstrip (String c r) =? "") eqn:E.
  - apply String.eqb_eq in E. exists (String c r). split; [reflexivity|exact E].
  - destruct IH as (w & Hw & Hb). exists w. split; [|exact Hb].
    cbn [append]. now rewrite <- Hw.
Qed.

Lemma rstrip_idem (s : string) : rstrip (rstrip s) = rstrip s.
Proof.
  induction s as [|c r IH]; [reflexivity|].
  cbn [rstrip]. destruct (lstrip (String c r) =? "") eqn:E; [reflexivity|].
  cbn [rstrip]. rewrite IH.
  destruct (lstrip (String c (rstrip r)) =? "") eqn:E'; [|reflexivity].
  exfalso. apply String.eqb_eq in E'. apply String.eqb_neq in E. apply E.
  destruct (rstrip_split r) as (w & Hw & Hb).
  rewrite Hw at 1. change (String c (rstrip r ++ w)) with (String c (rstrip r) ++ w).
  now rewrite lstrip_app_blank.
Qed.

Lemma space_len_app (u x : string) :
  space_len u <> 0 -> space_len (u ++ x) = space_len u.
Proof.
  intro H. destruct (lstrip_cases u) as [[H0 _]|(w & r & -> & _ & _ & _ & Hs)];
    [congruence|].
  rewrite append_assoc. exact (Hs (r ++ x)).
Qed.

Lemma rstrip_starts_clean (s : string) :
  starts_clean s = true -> starts_clean (rstrip s) = true.
Proof.
  unfold starts_clean. intro H. apply Nat.eqb_eq in H. apply Nat.eqb_eq.
  destruct (rstrip_split s) as (w & Hw & _).
  destruct (Nat.eq_dec (space_len (rstrip s)) 0) as [E|E]; [exact E|].
  exfalso. apply E. rewrite <- (space_len_app _ w E), <- Hw. exact H.
Qed.

Lemma strip_idem (s : string) : strip (strip s) = strip s.
Proof.
  unfold strip.
  rewrite (lstrip_clean (rstrip (lstrip s))).
  - apply rstrip_idem.
  - apply rstrip_starts_clean, lstrip_starts_clean.
Qed.

(** A blank in front does not change the trimmed text. *)
Lemma strip_blank_cons (c : ascii) (s : string) :
  isspace c = true -> strip (String c s) = strip s.
Proof. intro H. unfold strip. cbn [lstrip]. now rewrite H. Qed.

(** The archive filter rejects the placeholder itself. *)
Lemma upper_TODO : upper "TODO" = "TODO".
Proof. reflexivity. Qed.

(** A replacement whose only occurrence is the final one rewrites the
    suffix. *)

Lemma replace_from_skip (old new : string) (s : string) :
  replace_from old new (String.length s) s = "".
Proof.
  induction s as [|c s IH]; simpl; [reflexivity|exact IH].
Qed.

Lemma prefix_refl (s : string) : prefix s s = true.
Proof.
  induction s as [|c s IH]; simpl; [reflexivity|].
  destruct (ascii_dec c c); [exact IH|congruence].
Qed.

Lemma replace_only_final (old new p : string) :
  old <> "" -> only_final old p = true ->
  replace old new (p ++ old) = p ++ new.
Proof.
  intros Hne. unfold replace.
  induction p as [|c p IH]; intro H.
  - simpl. destruct old as [|o old]; [congruence|].
    cbn [replace_from]. rewrite prefix_refl.
    cbn [String.length]. rewrite Nat.sub_succ, Nat.sub_0_r.
    rewrite replace_from_skip. now rewrite append_nil_r.
  - cbn [only_final] in H. apply andb_true_iff in H as [H1 H2].
    apply negb_true_iff in H1.
    change (String c p ++ old) with (String c (p ++ old)) in *.
    cbn [replace_from]. rewrite H1. simpl. f_equal. exact (IH H2).
Qed.

Lemma endswith_append (suf p : string) : endswith suf (p ++ suf) = true.
Proof.
  induction p as [|c p IH].
  - destruct suf; cbn [endswith append]; now rewrite String.eqb_refl.
  - cbn [endswith append]. rewrite IH. apply orb_true_r.
Qed.

(** A key and its parts around the first dot. *)

Lemma split_join_dot k :
  has_dot k = true -> before_dot k ++ "." ++ after_dot k = k.
Proof.
  induction k as [|c k IH]; cbn [has_dot before_dot after_dot]; [discriminate|].
  destruct (Ascii.eqb c dot) eqn:E.
  - intros _. apply Ascii.eqb_eq in E. subst c. reflexivity.
  - cbn [orb]. intro H. cbn [append]. f_equal. exact (IH H).
Qed.

Lemma before_dot_dotless k : has_dot (before_dot k) = false.
Proof.
  induction k as [|c k IH]; cbn [before_dot]; [reflexivity|].
  destruct (Ascii.eqb c dot) eqn:E; [reflexivity|].
  cbn [has_dot]. now rewrite E.
Qed.

Lemma before_dot_join d r :
  has_dot d = false ->
  before_dot (d ++ "." ++ r) = d /\ has_dot (d ++ "." ++ r) = true
  /\ after_dot (d ++ "." ++ r) = r.
Proof.
  induction d as [|c d IH].
  - intros _. repeat split.
  - intro H. cbn [has_dot] in H. apply orb_false_iff in H as [Hc Hd].
    destruct (IH Hd) as (H1 & H2 & H3).
    change (String c d ++ "." ++ r) with (String c (d ++ "." ++ r)).
    cbn [before_dot has_dot after_dot]. rewrite Hc, H1, H2, H3. repeat split.
Qed.

End TextFacts.

Module DictFacts.

Section WithValue.
Context {V : Type}.
Implicit Types (d : Dict.t V) (k : string) (v : V).

Lemma get_set_same k v d : Dict.get k (Dict.set k v d) = Some v.
Proof.
  induction d as [|[k' v'] d IH]; simpl.
  - now rewrite String.eqb_refl.
  - destruct (k' =? k) eqn:E; simpl; rewrite E; [reflexivity|exact IH].
Qed.

Lemma get_set_other k k' v d :
  k <> k' -> Dict.get k' (Dict.set k v d) = Dict.get k' d.
Proof.
  intro Hne. induction d as [|[k0 v0] d IH]; simpl.
  - apply String.eqb_neq in Hne. now rewrite Hne.
  - destruct (k0 =? k) eqn:E; simpl.
    + apply String.eqb_eq in E. subst k0.
      apply String.eqb_neq in Hne. now rewrite Hne.
    + destruct (k0 =? k'); [reflexivity|exact IH].
Qed.

Lemma get_default_set_same k v dflt d :
  Dict.get_default k dflt (Dict.set k v d) = v.
Proof. unfold Dict.get_default. now rewrite get_set_same. Qed.

Lemma get_default_set_other k k' v dflt d :
  k <> k' ->
  Dict.get_default k' dflt (Dict.set k v d) = Dict.get_default k' dflt d.
Proof. intro H. unfold Dict.get_default. now rewrite get_set_other. Qed.

Lemma get_some_in_keys k v d : Dict.get k d = Some v -> In k (Dict.keys d).
Proof.
  induction d as [|[k' v'] d IH]; simpl; [discriminate|].
  destruct (k' =? k) eqn:E.
  - apply String.eqb_eq in E. now left.
  - intro H. right. exact (IH H).
Qed.

Lemma get_none_not_in_keys k d : Dict.get k d = None -> ~ In k (Dict.keys d).
Proof.
  induction d as [|[k' v'] d IH]; simpl; [tauto|].
  destruct (k' =? k) eqn:E; [discriminate|].
  apply String.eqb_neq in E. intros H [H'|H']; [congruence|exact (IH H H')].
Qed.

Lemma in_keys_get k d : In k (Dict.keys d) -> exists v, Dict.get k d = Some v.
Proof.
  intro H. destruct (Dict.get k d) eqn:E; [eauto|].
  exfalso. exact (get_none_not_in_keys _ _ E H).
Qed.

Lemma keys_set k v d :
  forall k', In k' (Dict.keys (Dict.set k v d)) <-> k' = k \/ In k' (Dict.keys d).
Proof.
  intro k'. induction d as [|[k0 v0] d IH]; simpl.
  - intuition congruence.
  - destruct (k0 =? k) eqn:E; simpl.
    + apply String.eqb_eq in E. subst. intuition congruence.
    + rewrite IH. tauto.
Qed.

End WithValue.

End DictFacts.

Lemma set_mem_true (k : string) (s : list string) : set_mem k s = true <-> In k s.
Proof.
  unfold set_mem. rewrite existsb_exists. split.
  - intros (x & Hx & E). apply String.eqb_eq in E. now subst.
  - intro H. exists k. split; [exact H|apply String.eqb_refl].
Qed.

Lemma set_mem_false (k : string) (s : list string) : set_mem k s = false <-> ~ In k s.
Proof.
  rewrite <- set_mem_true. destruct (set_mem k s); split; intro H;
    congruence.
Qed.

(** * The key-path deriver *)

Module DeriverFacts.

Import Text Deriver TextFacts.

(** Induction over a tree with the property known for all children. *)
Lemma Element_tree_ind (P : Element -> Prop) :
  (forall t x cs, Forall P cs -> P (Elem t x cs)) -> forall e, P e.
Proof.
  intro H.
  fix IH 1. intros [t x cs]. apply H.
  induction cs as [|c cs IHcs]; constructor; [apply IH|exact IHcs].
Qed.

Lemma count_named_cons n c cs :
  count_named n (c :: cs) = (if named n c then 1 else 0) + count_named n cs.
Proof. unfold count_named. simpl. now destruct (named n c). Qed.

Lemma count_named_app n l1 l2 :
  count_named n (l1 ++ l2) = count_named n l1 + count_named n l2.
Proof.
  unfold count_named. now rewrite filter_app, length_app.
Qed.

Lemma prescan_names cs c0 l0 :
  snd (fold_left prescan_step cs (c0, l0)) = (l0 ++ map name_slot cs)%list.
Proof.
  revert c0 l0. induction cs as [|c cs IH]; intros c0 l0; simpl.
  - now rewrite app_nil_r.
  - unfold name_slot at 1. destruct (tag_is "li" c); rewrite IH, <- app_assoc; reflexivity.
Qed.

Lemma named_display n c :
  named n c = true <-> display_name c = Some n.
Proof.
  unfold named. destruct (display_name c) as [m|]; split; intro H; try discriminate.
  - apply String.eqb_eq in H. now subst.
  - injection H as ->. apply String.eqb_refl.
Qed.

Lemma prescan_counts n cs c0 l0 :
  Dict.get_default n 0 (fst (fold_left prescan_step cs (c0, l0)))
  = Dict.get_default n 0 c0 + count_named n cs.
Proof.
  revert c0 l0. induction cs as [|c cs IH]; intros c0 l0.
  - simpl. unfold count_named. simpl. lia.
  - rewrite count_named_cons. cbn [fold_left]. unfold prescan_step at 2.
    unfold named, display_name.
    destruct (tag_is "li" c) eqn:Eli.
    + destruct (get_li_name c) as [m|] eqn:Ename.
      * destruct (truthy m) eqn:Et.
        -- rewrite IH. destruct (m =? n) eqn:Emn.
           ++ apply String.eqb_eq in Emn. subst m.
              rewrite DictFacts.get_default_set_same. lia.
           ++ apply String.eqb_neq in Emn.
              rewrite DictFacts.get_default_set_other by exact Emn. lia.
        -- rewrite IH. lia.
      * rewrite IH. lia.
    + rewrite IH. lia.
Qed.


Section Siblings.
Variable all : list Element.
Let name_counts := fst (prescan all).
Let li_children_names := snd (prescan all).

Lemma names_are_slots : li_children_names = map name_slot all.
Proof.
  unfold li_children_names, prescan. now rewrite prescan_names.
Qed.

Lemma counts_are_counts n :
  Dict.get_default n 0 name_counts = count_named n all.
Proof.
  unfold name_counts, prescan. now rewrite prescan_counts.
Qed.

Lemma slot_at pre c rest :
  all = (pre ++ c :: rest)%list ->
  nth (List.length pre) li_children_names None = name_slot c.
Proof.
  intro E. rewrite names_are_slots, E, map_app.
  rewrite app_nth2 by (rewrite length_map; lia).
  rewrite length_map, Nat.sub_diag. reflexivity.
Qed.

Lemma display_name_slot c n :
  display_name c = Some n ->
  tag c = Some "li" /\ name_slot c = Some n /\ truthy n = true.
Proof.
  unfold display_name, name_slot, tag_is.
  destruct (tag c) as [t|]; [|discriminate].
  destruct (t =? "li") eqn:E; [|discriminate].
  apply String.eqb_eq in E. subst t.
  destruct (get_li_name c) as [m|]; [|discriminate].
  destruct (truthy m) eqn:Et; [|discriminate].
  intro H. injection H as ->. auto.
Qed.

Lemma advance_named pre c rest ni li n :
  all = (pre ++ c :: rest)%list -> counted all pre ni ->
  display_name c = Some n -> 1 < count_named n all ->
  fst (fst (advance name_counts li_children_names (List.length pre) ni li c))
  = Some (n ++ "-" ++ str_of_nat (count_named n pre)).
Proof.
  intros E Hc Hd Hn.
  destruct (display_name_slot _ _ Hd) as (Ht & Hs & Htr).
  unfold advance, choose_part. rewrite Ht. cbn [String.eqb Ascii.eqb Bool.eqb].
  simpl (("li" =? "defName")). 
  rewrite (slot_at _ _ _ E), Hs, Htr, counts_are_counts.
  apply Nat.ltb_lt in Hn. rewrite Hn. cbn [fst].
  now rewrite (Hc n) by (now apply Nat.ltb_lt).
Qed.

Lemma advance_counted pre c rest ni li :
  all = (pre ++ c :: rest)%list -> counted all pre ni ->
  counted all (pre ++ [c])
    (snd (fst (advance name_counts li_children_names (List.length pre) ni li c))).
Proof.
  intros E Hc m Hm. rewrite count_named_app, count_named_cons.
  change (count_named m []) with 0.
  unfold advance.
  assert (Hskip : named m c = false -> 
             Dict.get_default m 0 ni = count_named m pre + ((if named m c then 1 else 0) + 0)).
  { intros ->. rewrite (Hc m Hm). lia. }
  destruct (tag c) as [t|] eqn:Et.
  2:{ cbn [fst snd]. apply Hskip. unfold named, display_name, tag_is. now rewrite Et. }
  destruct (t =? "defName") eqn:Edef.
  { cbn [fst snd]. apply Hskip. unfold named, display_name, tag_is. rewrite Et.
    apply String.eqb_eq in Edef. subst t. reflexivity. }
  unfold choose_part.
  destruct (t =? "li") eqn:Eli.
  2:{ cbn [fst snd]. apply Hskip. unfold named, display_name, tag_is. now rewrite Et, Eli. }
  rewrite (slot_at _ _ _ E). unfold name_slot, tag_is. rewrite Et, Eli.
  assert (Hnamed : named m c = match get_li_name c with
                               | Some x => if truthy x then x =? m else false
                               | None => false end).
  { unfold named, display_name, tag_is. rewrite Et, Eli.
    destruct (get_li_name c) as [x|]; [|reflexivity]. now destruct (truthy x). }
  destruct (get_li_name c) as [x|] eqn:Ename.
  2:{ cbn [fst snd]. apply Hskip. now rewrite Hnamed. }
  destruct (truthy x) eqn:Etx.
  2:{ cbn [fst snd]. apply Hskip. now rewrite Hnamed. }
  rewrite counts_are_counts.
  destruct (Nat.ltb 1 (count_named x all)) eqn:Ecount.
  - cbn [fst snd]. rewrite Hnamed. destruct (x =? m) eqn:Exm.
    + apply String.eqb_eq in Exm. subst x.
      rewrite DictFacts.get_default_set_same, (Hc m Hm). lia.
    + apply String.eqb_neq in Exm.
      rewrite DictFacts.get_default_set_other by exact Exm.
      rewrite (Hc m Hm). lia.
  - cbn [fst snd]. apply Hskip. rewrite Hnamed.
    apply String.eqb_neq. intros ->. apply Nat.ltb_ge in Ecount. lia.
Qed.

Lemma parts_from_named cs :
  forall pre ni li k c n,
    all = (pre ++ cs)%list -> counted all pre ni ->
    nth_error cs k = Some c -> display_name c = Some n ->
    1 < count_named n all ->
    nth_error (parts_from name_counts li_children_names (List.length pre) ni li cs) k
    = Some (Some (n ++ "-" ++ str_of_nat (count_named n (pre ++ firstn k cs)))).
Proof.
  induction cs as [|c0 rest IH]; intros pre ni li k c n E Hc Hk Hd Hn.
  - destruct k; discriminate.
  - cbn [parts_from].
    pose proof (advance_counted pre c0 rest ni li E Hc) as Hc'.
    pose proof (advance_named pre c0 rest ni li) as Hpart.
    destruct (advance name_counts li_children_names (List.length pre) ni li c0)
      as [[part ni'] li'] eqn:Eadv.
    cbn [fst snd] in Hc', Hpart.
    destruct k as [|k].
    + cbn [nth_error] in Hk. injection Hk as ->.
      cbn [nth_error firstn]. rewrite app_nil_r.
      now rewrite (Hpart n E Hc Hd Hn).
    + cbn [nth_error] in Hk. cbn [nth_error firstn].
      replace (List.length pre + 1) with (List.length (pre ++ [c0])%list)
        by (rewrite length_app; reflexivity).
      rewrite (IH (pre ++ [c0])%list ni' li' k c n); auto.
      * now rewrite <- app_assoc.
      * now rewrite <- app_assoc.
Qed.

End Siblings.


(** *** The results of a node, child by child *)

Lemma emit_app tl b t np child r :
  emit tl b t np child r = (r ++ emit tl b t np child [])%list.
Proof.
  unfold emit. destruct (leaf_with_text child); [|now rewrite app_nil_r].
  destruct (any_in_tag (blacklisted_tags tl) t); [now rewrite app_nil_r|].
  destruct (any_in_tag (translatable_tags tl) t || b);
    [reflexivity|now rewrite app_nil_r].
Qed.

Lemma loop_body_advance tl nt path counts names i ni li r c :
  appends tl c ->
  loop_body tl (extract_recursive tl) nt path counts names (mkWalk i ni li r) c
  = let '(part, ni', li') := advance counts names i ni li c in
    mkWalk (i + 1) ni' li' (r ++ child_entries tl nt path c part)%list.
Proof.
  intro Hc. unfold loop_body, advance, child_entries. cbn [w_i w_name_indices w_li_index w_results].
  destruct (tag c) as [t|]; [|now rewrite app_nil_r].
  destruct (t =? "defName"); [now rewrite app_nil_r|].
  destruct (choose_part counts names i ni li t) as [[part ni'] li'].
  f_equal. rewrite Hc, emit_app, <- app_assoc. reflexivity.
Qed.

Lemma walk_by_parts tl nt path counts names cs :
  Forall (appends tl) cs ->
  forall i ni li r,
    w_results
      (fold_left (loop_body tl (extract_recursive tl) nt path counts names)
         cs (mkWalk i ni li r))
    = (r ++ flat_map (fun cp => child_entries tl nt path (fst cp) (snd cp))
              (combine cs (parts_from counts names i ni li cs)))%list.
Proof.
  induction 1 as [|c cs Hc Hcs IH]; intros i ni li r.
  - simpl. now rewrite app_nil_r.
  - cbn [fold_left parts_from]. rewrite (loop_body_advance _ _ _ _ _ _ _ _ _ _ Hc).
    destruct (advance counts names i ni li c) as [[part ni'] li'].
    rewrite IH. cbn [combine flat_map fst snd]. now rewrite <- app_assoc.
Qed.

Lemma extract_recursive_unfold tl node path r :
  extract_recursive tl node path r
  = w_results
      (fold_left
         (loop_body tl (extract_recursive tl) (tag node) path
            (fst (prescan (children node))) (snd (prescan (children node))))
         (children node) (mkWalk 0 [] 0 r)).
Proof.
  destruct node as [nt x cs]. cbn [extract_recursive tag children].
  destruct (prescan cs) as [counts names]. reflexivity.
Qed.

Lemma sibling_parts_unfold node :
  sibling_parts node
  = parts_from (fst (prescan (children node))) (snd (prescan (children node)))
      0 [] 0 (children node).
Proof.
  unfold sibling_parts. destruct (prescan (children node)). reflexivity.
Qed.

(** The entries of a node are those of its children in order, each under
    the path component [sibling_parts] gives it. *)
Lemma extract_recursive_by_parts tl node :
  forall path r,
    extract_recursive tl node path r
    = (r ++ flat_map (fun cp => child_entries tl (tag node) path (fst cp) (snd cp))
              (combine (children node) (sibling_parts node)))%list.
Proof.
  induction node as [nt x cs IH] using Element_tree_ind. intros path r.
  rewrite extract_recursive_unfold, sibling_parts_unfold.
  apply walk_by_parts.
  apply Forall_impl with (2 := IH). intros c Hc p r'.
  rewrite (Hc p r'), (Hc p []). reflexivity.
Qed.

(** *** The shape of the emitted keys *)

Lemma string_of_uint_digits d : all_digits (NilEmpty.string_of_uint d) = true.
Proof. induction d; simpl; auto. Qed.

Lemma str_of_nat_digits n : all_digits (str_of_nat n) = true.
Proof. apply string_of_uint_digits. Qed.

Lemma digits_tail_inj a :
  forall b s t,
    all_digits a = true -> all_digits b = true ->
    tail_ok s = true -> tail_ok t = true ->
    a ++ s = b ++ t -> a = b.
Proof.
  induction a as [|c a IH]; intros [|c' b] s t Ha Hb Hs Ht E; simpl in *.
  - reflexivity.
  - subst s. simpl in Hs. apply andb_true_iff in Hb as [Hb _].
    rewrite Hb in Hs. discriminate.
  - subst t. simpl in Ht. apply andb_true_iff in Ha as [Ha _].
    rewrite Ha in Ht. discriminate.
  - injection E as -> E.
    apply andb_true_iff in Ha as [_ Ha]. apply andb_true_iff in Hb as [_ Hb].
    f_equal. exact (IH b s t Ha Hb Hs Ht E).
Qed.

Lemma emit_key tl b t np child e :
  In e (emit tl b t np child []) -> key e = np.
Proof.
  unfold emit. destruct (leaf_with_text child); [|intros []].
  destruct (any_in_tag (blacklisted_tags tl) t); [intros []|].
  destruct (any_in_tag (translatable_tags tl) t || b); [|intros []].
  intros [<-|[]]. reflexivity.
Qed.

(** Every key emitted below a node extends the path with a dot. *)
Lemma extract_recursive_keys tl node :
  forall path e,
    In e (extract_recursive tl node path []) ->
    exists rest, key e = path ++ "." ++ rest.
Proof.
  induction node as [nt x cs IH] using Element_tree_ind. intros path e.
  rewrite extract_recursive_by_parts. cbn [app children tag].
  intro H. apply in_flat_map in H as ([c part] & Hin & He).
  cbn [fst snd] in He.
  assert (Hc : In c cs) by (now apply in_combine_l in Hin).
  rewrite Forall_forall in IH. specialize (IH c Hc).
  unfold child_entries in He.
  destruct part as [p|]; [|destruct He].
  destruct (tag c) as [t|]; [|destruct He].
  apply in_app_or in He as [He|He].
  - apply emit_key in He. exists p. exact He.
  - apply IH in He as (rest & ->). exists (p ++ "." ++ rest).
    now rewrite !append_assoc.
Qed.

Lemma child_entries_keys tl nt path c p e :
  In e (child_entries tl nt path c (Some p)) ->
  exists tail, key e = path ++ "." ++ p ++ tail /\ tail_ok tail = true.
Proof.
  unfold child_entries. destruct (tag c) as [t|]; [|intros []].
  intro H. apply in_app_or in H as [H|H].
  - apply emit_key in H. exists "". now rewrite append_nil_r.
  - apply extract_recursive_keys in H as (rest & ->).
    exists ("." ++ rest). split; [now rewrite !append_assoc|reflexivity].
Qed.


(** *** Blacklist precedence *)



(** *** Disambiguation of list items *)

Lemma count_named_firstn_lt n cs i j ci :
  i < j -> nth_error cs i = Some ci -> named n ci = true ->
  count_named n (firstn i cs) < count_named n (firstn j cs).
Proof.
  revert i j. induction cs as [|c cs IH]; intros i j Hij Hi Hn.
  - destruct i; discriminate.
  - destruct j as [|j]; [lia|]. destruct i as [|i].
    + cbn [nth_error] in Hi. injection Hi as ->.
      cbn [firstn]. rewrite count_named_cons, Hn.
      change (count_named n []) with 0. lia.
    + cbn [nth_error] in Hi. cbn [firstn]. rewrite !count_named_cons.
      specialize (IH i j ltac:(lia) Hi Hn). lia.
Qed.

Lemma count_named_ge_firstn n cs j :
  count_named n (firstn j cs) <= count_named n cs.
Proof.
  rewrite <- (firstn_skipn j cs) at 2. rewrite count_named_app. lia.
Qed.

Lemma count_named_two n cs i j ci cj :
  i < j -> nth_error cs i = Some ci -> nth_error cs j = Some cj ->
  named n ci = true -> named n cj = true -> 1 < count_named n cs.
Proof.
  intros Hij Hi Hj Hni Hnj.
  pose proof (count_named_firstn_lt n cs i j ci Hij Hi Hni) as H1.
  pose proof (count_named_firstn_lt n cs j (S j) cj ltac:(lia) Hj Hnj) as H2.
  pose proof (count_named_ge_firstn n cs (S j)). lia.
Qed.

Lemma sibling_part_named node k c n :
  nth_error (children node) k = Some c -> display_name c = Some n ->
  1 < count_named n (children node) ->
  nth_error (sibling_parts node) k
  = Some (Some (n ++ "-" ++ str_of_nat (count_named n (firstn k (children node))))).
Proof.
  intros Hk Hd Hn. rewrite sibling_parts_unfold.
  apply (parts_from_named (children node) (children node) [] [] 0 k c n);
    auto.
  intros m _. reflexivity.
Qed.

(** C6, as stated, fails: a name that is a number is not kept apart from
    a position.  A list item named [1] by its [def] and the item without a
    name after it both get the component [1], and the same key is emitted
    for both. *)
Lemma sibling_keys_counterexample :
  let leaf := fun t x => Elem (Some t) (Some x) [] in
  let node :=
    Elem (Some "parts") None
      [Elem (Some "li") None [leaf "def" "1"; leaf "label" "arm"];
       Elem (Some "li") None [leaf "label" "leg"]] in
  display_name (Elem (Some "li") None [leaf "def" "1"; leaf "label" "arm"]) = Some "1"
  /\ display_name (Elem (Some "li") None [leaf "label" "leg"]) = None
  /\ sibling_parts node = [Some "1"; Some "1"]
  /\ extract_recursive (mkTagLists ["label"] []) node "Body" []
     = [mkEntry "Body.1.label" "arm"; mkEntry "Body.1.label" "leg"].
Proof. repeat split. Qed.

(** C6, amended. Two list items of one parent that take the same display
    name [n] from their label or, without a label, from their reference get
    the components [n-a] and [n-b], where [a] and [b] count the earlier
    siblings of that name (so the first one gets 0); the components differ,
    and no key emitted for one sibling or below it is a key emitted for the
    other.  The entries of the parent are those of its children under the
    components given.  The custom labels of the parent's children are
    written in ASCII. *)
Theorem sibling_keys_distinct (tl : TagLists) (node : Element) (path : string)
    (i j : nat) (ci cj : Element) (n : string) :
  Items.ascii_labels (children node) = true ->
  i < j ->
  nth_error (children node) i = Some ci ->
  nth_error (children node) j = Some cj ->
  display_name ci = Some n -> display_name cj = Some n ->
  let a := count_named n (firstn i (children node)) in
  let b := count_named n (firstn j (children node)) in
  let part_i := n ++ "-" ++ str_of_nat a in
  let part_j := n ++ "-" ++ str_of_nat b in
  nth_error (sibling_parts node) i = Some (Some part_i) /\
  nth_error (sibling_parts node) j = Some (Some part_j) /\
  a < b /\ part_i <> part_j /\
  (forall ei ej,
     In ei (child_entries tl (tag node) path ci (Some part_i)) ->
     In ej (child_entries tl (tag node) path cj (Some part_j)) ->
     key ei <> key ej) /\
  extract_recursive tl node path []
  = flat_map (fun cp => child_entries tl (tag node) path (fst cp) (snd cp))
      (combine (children node) (sibling_parts node)).
Proof.
  intros _ Hij Hi Hj Hdi Hdj a b part_i part_j.
  assert (Hni : named n ci = true) by (now apply named_display).
  assert (Hnj : named n cj = true) by (now apply named_display).
  pose proof (count_named_two n _ i j ci cj Hij Hi Hj Hni Hnj) as Htwo.
  assert (Hab : a < b) by (exact (count_named_firstn_lt n _ i j ci Hij Hi Hni)).
  repeat split.
  - exact (sibling_part_named node i ci n Hi Hdi Htwo).
  - exact (sibling_part_named node j cj n Hj Hdj Htwo).
  - exact Hab.
  - unfold part_i, part_j. intro E.
    apply append_inv_head in E. apply append_inv_head in E.
    apply str_of_nat_inj in E. lia.
  - intros ei ej Hei Hej E.
    apply child_entries_keys in Hei as (ti & Hki & Hti).
    apply child_entries_keys in Hej as (tj & Hkj & Htj).
    rewrite Hki, Hkj in E. unfold part_i, part_j in E.
    rewrite !append_assoc in E.
    do 4 apply append_inv_head in E.
    apply digits_tail_inj in E; auto using str_of_nat_digits.
    apply str_of_nat_inj in E. lia.
  - now rewrite extract_recursive_by_parts.
Qed.

Lemma sibling_keys_distinct_witness :
  let leaf := fun t x => Elem (Some t) (Some x) [] in
  let item := fun n => Elem (Some "li") None [leaf "customLabel" n; leaf "def" "Arm"] in
  let node :=
    Elem (Some "parts") None [item "left arm"; item "Leg"; item " left arm "] in
  nth_error (sibling_parts node) 0 = Some (Some "left_arm-0") /\
  nth_error (sibling_parts node) 2 = Some (Some "left_arm-1").
Proof.
  intros leaf item node.
  destruct (sibling_keys_distinct (mkTagLists ["label"] []) node "Body"
              0 2 (item "left arm") (item " left arm ") "left_arm")
    as (H0 & H2 & _); try reflexivity.
  - lia.
  - split; [exact H0|exact H2].
Defined.

End DeriverFacts.

(** * The writers *)

(** Decide a membership in an explicit list. *)
Ltac in_list := vm_compute; repeat (first [left; reflexivity | right]).

Ltac not_in_list :=
  let H := fresh in
  intro H; vm_compute in H;
  repeat (destruct H as [H|H]; [discriminate|]); exact H.

Module OutputFacts.

Import Text Output TextFacts.

Lemma unused_section_raw existing used w :
  In w (unused_section existing used) -> exists chunk, w = Raw chunk.
Proof.
  unfold unused_section.
  destruct (filter _ (Dict.keys existing)) as [|k ks]; [intros []|].
  intros [<-|H]; [eauto|].
  apply in_map_iff in H as (x & <- & _). eauto.
Qed.

Lemma unused_section_none existing used :
  (forall k, In k (Dict.keys existing) -> In k used) ->
  unused_section existing used = [].
Proof.
  intro H. unfold unused_section.
  replace (filter (fun k => negb (set_mem k used)) (Dict.keys existing))
    with (@nil string); [reflexivity|].
  symmetry. induction (Dict.keys existing) as [|k ks IH]; [reflexivity|].
  cbn [filter].
  assert (Hk : set_mem k used = true) by (apply set_mem_true, H; now left).
  rewrite Hk. cbn [negb]. apply IH. intros k' Hk'. apply H. now right.
Qed.

(** An old key that was not written has its record under the marker. *)
Lemma unused_section_keeps existing used k v :
  Dict.get k existing = Some v -> ~ In k used ->
  exists records,
    unused_section existing used = Raw unused_marker :: records /\
    In (Raw (disabled_line k v)) records.
Proof.
  intros Hget Hused. unfold unused_section.
  assert (Hin : In k (filter (fun k => negb (set_mem k used)) (Dict.keys existing))).
  { apply filter_In. split.
    - exact (DictFacts.get_some_in_keys _ _ _ Hget).
    - apply negb_true_iff, set_mem_false, Hused. }
  destruct (filter _ (Dict.keys existing)) as [|k0 ks] eqn:E; [destruct Hin|].
  eexists. split; [reflexivity|].
  apply in_map_iff. exists k. split; [|exact Hin].
  unfold Dict.get_default. now rewrite Hget.
Qed.

Lemma read_back_app ws1 ws2 :
  flat_map read_element (ws1 ++ ws2)
  = (flat_map read_element ws1 ++ flat_map read_element ws2)%list.
Proof. apply flat_map_app. Qed.

Lemma read_unused_section existing used :
  flat_map read_element (unused_section existing used) = [].
Proof.
  assert (H : forall ws, (forall w, In w ws -> exists c, w = Raw c) ->
                         flat_map read_element ws = []).
  { induction ws as [|w ws IH]; intro Hall; [reflexivity|].
    destruct (Hall w (or_introl eq_refl)) as (c & ->). cbn [flat_map read_element app].
    apply IH. intros w' Hw'. apply Hall. now right. }
  apply H. intros w. apply unused_section_raw.
Qed.

(** The bytes of a document, chunk by chunk. *)

Lemma content_cons w ws : content (w :: ws) = render w ++ content ws.
Proof.
  unfold content. destruct ws as [|w' ws]; cbn [map String.concat].
  - now rewrite append_nil_r.
  - reflexivity.
Qed.

Lemma content_app ws1 ws2 : content (ws1 ++ ws2) = content ws1 ++ content ws2.
Proof.
  induction ws1 as [|w ws1 IH]; [reflexivity|].
  cbn [app]. now rewrite !content_cons, IH, append_assoc.
Qed.

Lemma content_split ws1 w ws2 :
  content (ws1 ++ w :: ws2) = content ws1 ++ render w ++ content ws2.
Proof. now rewrite content_app, content_cons. Qed.

(** An element the parser returns was written as an element. *)
Lemma read_element_live ws k x :
  In (k, x) (flat_map read_element ws) -> exists v, In (LiveElement k v) ws.
Proof.
  intro H. apply in_flat_map in H as ([c|k' v] & Hin & H); cbn [read_element] in H.
  - destruct H.
  - destruct H as [H|[]]. injection H as <- _. eauto.
Qed.

Lemma read_back_parsed ws cs :
  read_back true ws = Some (Parsed cs) -> cs = flat_map read_element ws.
Proof.
  unfold read_back. destruct (read_as_written ws); [|discriminate].
  intro H. now injection H as <-.
Qed.

(** The action is [Actualizado] exactly when the dictionary read from the
    old output has an entry. *)
Lemma action_updated existing :
  action existing = (if match existing with [] => false | _ => true end
                     then "Actualizado" else "Generado").
Proof. now destruct existing. Qed.

End OutputFacts.

Module KeyedFacts.

Import Text Output Keyed TextFacts OutputFacts.

Section Writer.
Variables existing local_tr archive : Dict.t string.

Lemma keyed_entries_fst entries used :
  fst (write_entries existing local_tr archive entries used)
  = flat_map (write_entry existing local_tr archive) entries.
Proof.
  revert used. induction entries as [|e es IH]; intro used; [reflexivity|].
  cbn [write_entries flat_map]. specialize (IH (key e :: used)).
  destruct (write_entries existing local_tr archive es (key e :: used)) as [ws u].
  cbn [fst] in *. now rewrite IH.
Qed.

Lemma keyed_entries_snd entries used k :
  In k (snd (write_entries existing local_tr archive entries used))
  <-> In k (map key entries) \/ In k used.
Proof.
  revert used. induction entries as [|e es IH]; intro used.
  - cbn. tauto.
  - cbn [write_entries map]. specialize (IH (key e :: used)).
    destruct (write_entries existing local_tr archive es (key e :: used)) as [ws u].
    cbn [snd] in *. rewrite IH. cbn [In]. tauto.
Qed.

Lemma keyed_document_shape entries :
  document existing local_tr archive entries
  = ([Raw xml_declaration; Raw ("<LanguageData>" ++ nl)]
     ++ flat_map (write_entry existing local_tr archive) entries
     ++ unused_section existing
          (snd (write_entries existing local_tr archive entries []))
     ++ [Raw (nl ++ "</LanguageData>" ++ nl)])%list.
Proof.
  unfold document. rewrite <- (keyed_entries_fst entries []).
  now destruct (write_entries existing local_tr archive entries []).
Qed.

Lemma keyed_live_in_entries entries k v :
  In (LiveElement k v) (flat_map (write_entry existing local_tr archive) entries)
  <-> In k (map key entries) /\ v = resolve existing local_tr archive k.
Proof.
  rewrite in_flat_map. split.
  - intros (e & He & Hw). unfold write_entry in Hw.
    destruct Hw as [Hw|[Hw|[]]]; [discriminate|]. injection Hw as <- <-.
    split; [now apply in_map|reflexivity].
  - intros (Hk & ->). apply in_map_iff in Hk as (e & <- & He).
    exists e. split; [exact He|]. unfold write_entry. right. now left.
Qed.

Lemma keyed_live_in_document entries k v :
  In (LiveElement k v) (document existing local_tr archive entries)
  <-> In k (map key entries) /\ v = resolve existing local_tr archive k.
Proof.
  rewrite keyed_document_shape, <- keyed_live_in_entries. split.
  - intro H. apply in_app_or in H as [H|H].
    { destruct H as [H|[H|[]]]; discriminate. }
    apply in_app_or in H as [H|H]; [exact H|].
    apply in_app_or in H as [H|H].
    { apply unused_section_raw in H as (c & H). discriminate. }
    destruct H as [H|[]]; discriminate.
  - intro H. apply in_or_app. right. apply in_or_app. now left.
Qed.

Lemma keyed_read_back_document entries :
  flat_map read_element (document existing local_tr archive entries)
  = map (fun e =>
           (key e,
            let v := line_ends (resolve existing local_tr archive (key e)) in
            if v =? "" then None else Some v))
      entries.
Proof.
  rewrite keyed_document_shape.
  rewrite !read_back_app, read_unused_section. cbn [flat_map read_element app].
  rewrite app_nil_r.
  induction entries as [|e es IH]; [reflexivity|].
  cbn [flat_map map]. rewrite read_back_app, IH. reflexivity.
Qed.

End Writer.

End KeyedFacts.

Module LoaderFacts.

Import Text Archive TextFacts.

Lemma all_values_nil P : all_values P [].
Proof. intros k v H. discriminate. Qed.

Lemma all_values_set P k v d :
  all_values P d -> P v -> all_values P (Dict.set k v d).
Proof.
  intros Hd Hv k' v' H. destruct (string_dec k k') as [->|Hne].
  - rewrite DictFacts.get_set_same in H. now injection H as <-.
  - rewrite DictFacts.get_set_other in H by exact Hne. exact (Hd _ _ H).
Qed.

Lemma index_child_archived d child :
  all_values archived d -> all_values archived (Archive.index_child d child).
Proof.
  intro Hd. destruct child as [t [raw|]]; cbn [Archive.index_child]; [|exact Hd].
  destruct (truthy t && truthy raw); [|exact Hd].
  destruct (truthy (strip raw) && negb (upper (strip raw) =? "TODO")) eqn:E;
    [|exact Hd].
  apply andb_true_iff in E as [E1 E2].
  apply all_values_set; [exact Hd|]. repeat split.
  - apply strip_idem.
  - now apply truthy_true.
  - apply negb_true_iff in E2. now apply String.eqb_neq.
Qed.

Lemma index_file_archived d f :
  all_values archived d -> all_values archived (Archive.index_file d f).
Proof.
  destruct f as [| |cs]; cbn [Archive.index_file]; auto.
  revert d. induction cs as [|c cs IH]; intros d Hd; [exact Hd|].
  cbn [fold_left]. apply IH, index_child_archived, Hd.
Qed.

Lemma load_single_archived f :
  all_values archived (Archive.load_single_xml_translations f).
Proof. apply index_file_archived, all_values_nil. Qed.

Lemma load_archive_archived files :
  all_values archived (Archive.load_archive_translations files).
Proof.
  destruct files as [fs|]; [|apply all_values_nil]. cbn.
  assert (H : forall d, all_values archived d ->
                        all_values archived (fold_left Archive.index_file fs d)).
  { induction fs as [|f fs IH]; intros d Hd; [exact Hd|].
    cbn [fold_left]. apply IH, index_file_archived, Hd. }
  apply H, all_values_nil.
Qed.

(** The dictionary obtained by setting, for the keys [ks] in order, the
    value [g k] when there is one. *)
Lemma get_fold_set (g : string -> option string) (ks : list string) :
  forall d k,
    Dict.get k
      (fold_left (fun d k' => match g k' with
                              | Some v => Dict.set k' v d
                              | None => d
                              end) ks d)
    = match g k with
      | Some v => if set_mem k ks then Some v else Dict.get k d
      | None => Dict.get k d
      end.
Proof.
  induction ks as [|k0 ks IH]; intros d k.
  - cbn. now destruct (g k).
  - cbn [fold_left]. rewrite IH. unfold set_mem. cbn [existsb].
    destruct (string_dec k0 k) as [->|Hne].
    + rewrite String.eqb_refl. cbn [orb].
      destruct (g k) as [v|]; [|reflexivity].
      rewrite DictFacts.get_set_same. now destruct (existsb _ ks).
    + assert (E : (k =? k0) = false) by (apply String.eqb_neq; congruence).
      rewrite E. cbn [orb].
      destruct (g k0) as [v0|]; [|reflexivity].
      rewrite DictFacts.get_set_other by exact Hne. reflexivity.
Qed.

Lemma keys_fold_set (g : string -> option string) (ks : list string) :
  forall d k,
    In k (Dict.keys
            (fold_left (fun d k' => match g k' with
                                    | Some v => Dict.set k' v d
                                    | None => d
                                    end) ks d)) ->
    In k ks \/ In k (Dict.keys d).
Proof.
  intros d k H. apply DictFacts.in_keys_get in H as (v & H).
  rewrite get_fold_set in H. destruct (g k) as [v'|].
  - destruct (set_mem k ks) eqn:E.
    + left. now apply set_mem_true.
    + right. exact (DictFacts.get_some_in_keys _ _ _ H).
  - right. exact (DictFacts.get_some_in_keys _ _ _ H).
Qed.

(** The old output: what the two readers keep. *)

Lemma keyed_existing_values f :
  all_values (fun v => v <> "") (Keyed.load_existing f).
Proof.
  destruct f as [| |cs]; cbn [Keyed.load_existing]; try apply all_values_nil.
  assert (H : forall d, all_values (fun v => v <> "") d ->
                        all_values (fun v => v <> "") (fold_left Keyed.read_child cs d)).
  { induction cs as [|[t [raw|]] cs IH]; intros d Hd; cbn [fold_left Keyed.read_child];
      auto.
    destruct (truthy t && truthy raw) eqn:E; auto.
    apply IH, all_values_set; auto.
    apply andb_true_iff in E as [_ E]. now apply truthy_true. }
  apply H, all_values_nil.
Qed.

Lemma definjected_existing_values f :
  all_values (fun v => strip v = v) (DefInjected.load_existing f).
Proof.
  destruct f as [| |cs]; cbn [DefInjected.load_existing]; try apply all_values_nil.
  assert (H : forall d, all_values (fun v => strip v = v) d ->
                        all_values (fun v => strip v = v)
                          (fold_left DefInjected.read_child cs d)).
  { induction cs as [|[t [raw|]] cs IH]; intros d Hd;
      cbn [fold_left DefInjected.read_child]; auto.
    destruct (truthy t && truthy raw); auto.
    apply IH, all_values_set; auto. apply strip_idem. }
  apply H, all_values_nil.
Qed.

(** The text a prior file holds for a key is the one the readers keep. *)
Lemma last_text_read
    (read : Dict.t string -> string * option string -> Dict.t string)
    (f : string -> string) :
  (forall d t x, read d (t, x) =
                 match x with
                 | Some raw => if truthy t && truthy raw then Dict.set t (f raw) d else d
                 | None => d
                 end) ->
  forall before after k raw,
    k <> "" -> raw <> "" ->
    (forall x, In (k, Some x) after -> x = "") ->
    Dict.get k (fold_left read (before ++ (k, Some raw) :: after)%list [])
    = Some (f raw).
Proof.
  intros Hread before after k raw Hk Hraw Hafter.
  rewrite fold_left_app. cbn [fold_left]. rewrite Hread.
  apply truthy_true in Hk, Hraw. rewrite Hk, Hraw. cbn [andb].
  generalize (fold_left read before []). intro d0.
  assert (H : forall d, Dict.get k d = Some (f raw) ->
                        Dict.get k (fold_left read after d) = Some (f raw)).
  { induction after as [|[t x] after IH]; intros d Hd; [exact Hd|].
    cbn [fold_left]. apply IH.
    - intros y Hy. apply Hafter. now right.
    - rewrite Hread. destruct x as [y|]; [|exact Hd].
      destruct (truthy t && truthy y) eqn:E; [|exact Hd].
      apply andb_true_iff in E as [_ Ey]. apply truthy_true in Ey.
      destruct (string_dec t k) as [->|Hne].
      + exfalso. apply Ey, Hafter. now left.
      + now rewrite DictFacts.get_set_other. }
  apply H, DictFacts.get_set_same.
Qed.

Lemma last_text_definjected k raw file :
  Notions.last_text k raw file ->
  Dict.get k (DefInjected.load_existing file) = Some (strip raw).
Proof.
  intros (before & after & -> & Hk & Hraw & Hafter).
  cbn [DefInjected.load_existing].
  now apply (last_text_read DefInjected.read_child strip).
Qed.

Lemma last_text_keyed k raw file :
  Notions.last_text k raw file ->
  Dict.get k (Keyed.load_existing file) = Some raw.
Proof.
  intros (before & after & -> & Hk & Hraw & Hafter).
  cbn [Keyed.load_existing].
  now apply (last_text_read Keyed.read_child (fun raw => raw)).
Qed.

(** Reading back a list of elements whose text depends on the key only. *)

Lemma keyed_read_elements (r : string -> string) (ks : list string) :
  Keyed.load_existing
    (Parsed (map (fun k => (k, if r k =? "" then None else Some (r k))) ks))
  = fold_left (fun d k => match (if truthy k && truthy (r k) then Some (r k) else None) with
                          | Some v => Dict.set k v d
                          | None => d
                          end) ks [].
Proof.
  cbn [Keyed.load_existing]. generalize (@nil (string * string)).
  induction ks as [|k ks IH]; intro d; [reflexivity|].
  cbn [map fold_left]. rewrite IH. f_equal.
  cbn [Keyed.read_child]. unfold truthy.
  destruct (r k =? "") eqn:E; destruct (k =? ""); cbn [negb andb];
    try rewrite E; reflexivity.
Qed.

Lemma definjected_read_elements (r : string -> string) (ks : list string) :
  DefInjected.load_existing
    (Parsed (map (fun k => (k, if r k =? "" then None else Some (r k))) ks))
  = fold_left (fun d k => match (if truthy k && truthy (r k)
                                 then Some (strip (r k)) else None) with
                          | Some v => Dict.set k v d
                          | None => d
                          end) ks [].
Proof.
  cbn [DefInjected.load_existing]. generalize (@nil (string * string)).
  induction ks as [|k ks IH]; intro d; [reflexivity|].
  cbn [map fold_left]. rewrite IH. f_equal.
  cbn [DefInjected.read_child]. unfold truthy.
  destruct (r k =? "") eqn:E; destruct (k =? ""); cbn [negb andb];
    try rewrite E; reflexivity.
Qed.

End LoaderFacts.

Module DefInjectedFacts.

Import Text Output DefInjected TextFacts OutputFacts LoaderFacts.

(** The sort keeps the entries. *)

Lemma in_insert_sorted x y l : In x (insert_sorted y l) <-> x = y \/ In x l.
Proof.
  induction l as [|z l IH]; cbn [insert_sorted].
  - cbn. intuition congruence.
  - destruct (sort_key_le y z); cbn [In]; [intuition congruence|].
    rewrite IH. tauto.
Qed.

Lemma in_sort_entries x l : In x (sort_entries l) <-> In x l.
Proof.
  induction l as [|y l IH]; cbn [sort_entries fold_right]; [tauto|].
  rewrite in_insert_sorted. fold (sort_entries l). rewrite IH. cbn. intuition congruence.
Qed.

Lemma process_entry_key is_backstory e :
  (is_backstory && ((if has_dot (key e) then after_dot (key e) else "") =? "baseDesc"))
  = false ->
  p_key (process_entry is_backstory e) = key e.
Proof. unfold process_entry. now intros ->. Qed.

(** A fresh key that the Backstory renaming leaves alone is written. *)
Lemma prepare_keeps recover def_type archive english entries e :
  In e entries ->
  (contains "Backstory" def_type
   && ((if has_dot (key e) then after_dot (key e) else "") =? "baseDesc")) = false ->
  In (key e) (map p_key (prepare recover def_type archive english entries)).
Proof.
  intros He Hb. unfold prepare. apply in_map_iff.
  exists (process_entry (contains "Backstory" def_type) e). split.
  - now apply process_entry_key.
  - apply in_sort_entries, in_map. unfold recover_implicit.
    destruct recover; [apply in_or_app; now left|exact He].
Qed.

(** The chain of archive lookups and the value it leaves otherwise. *)
Lemma resolve_lookup existing local_tr archive k :
  resolve existing local_tr archive k
  = let start := Dict.get_default k "TODO" existing in
    if (start =? "TODO") || (start =? "") then
      match lookup local_tr archive k with
      | Some v => v
      | None => start
      end
    else start.
Proof.
  unfold resolve, lookup. cbv zeta.
  destruct ((_ =? "TODO") || (_ =? "")); [|reflexivity].
  destruct (Dict.get k local_tr); [reflexivity|].
  destruct (Dict.get k archive); [reflexivity|].
  destruct (synonym archive ".baseDesc" ".description" k); [reflexivity|].
  destruct (synonym archive ".description" ".baseDesc" k); [reflexivity|].
  destruct (synonym archive ".title" ".label" k); [reflexivity|].
  destruct (synonym archive ".label" ".title" k); reflexivity.
Qed.

Lemma resolve_keeps existing local_tr archive k v :
  Dict.get k existing = Some v -> v <> "" -> v <> "TODO" ->
  resolve existing local_tr archive k = v.
Proof.
  intros Hget Hne Hnt. rewrite resolve_lookup. unfold Dict.get_default.
  rewrite Hget. cbv zeta.
  apply String.eqb_neq in Hne, Hnt. now rewrite Hne, Hnt.
Qed.

Section Writer.
Variables existing local_tr archive : Dict.t string.

Let live (p : Processed) : string * option string :=
  (p_key p,
   let v := line_ends (resolve existing local_tr archive (p_key p)) in
   if v =? "" then None else Some v).

Lemma write_entries_live entries last_def used k v :
  In (LiveElement k v)
     (fst (write_entries existing local_tr archive entries last_def used))
  <-> In k (map p_key entries) /\ v = resolve existing local_tr archive k.
Proof.
  revert last_def used. induction entries as [|p ps IH]; intros last_def used.
  - cbn. tauto.
  - cbn [write_entries map In].
    set (cur := if has_dot (p_key p) then before_dot (p_key p) else p_key p).
    specialize (IH (Some cur) (p_key p :: used)).
    destruct (write_entries existing local_tr archive ps (Some cur) (p_key p :: used))
      as [ws u].
    cbn [fst] in *. rewrite !in_app_iff, IH. cbn [In]. split.
    + intros [H|[[H|[H|[]]]|H]].
      * destruct (truthy_opt last_def && _); [destruct H as [H|[]]|destruct H];
          discriminate.
      * discriminate.
      * injection H as <- <-. auto.
      * tauto.
    + intros ([H|H] & ->).
      * subst k. right. left. right. now left.
      * right. right. auto.
Qed.

Lemma write_entries_snd entries last_def used k :
  In k (snd (write_entries existing local_tr archive entries last_def used))
  <-> In k (map p_key entries) \/ In k used.
Proof.
  revert last_def used. induction entries as [|p ps IH]; intros last_def used.
  - cbn. tauto.
  - cbn [write_entries map].
    set (cur := if has_dot (p_key p) then before_dot (p_key p) else p_key p).
    specialize (IH (Some cur) (p_key p :: used)).
    destruct (write_entries existing local_tr archive ps (Some cur) (p_key p :: used))
      as [ws u].
    cbn [snd] in *. rewrite IH. cbn [In]. tauto.
Qed.

Lemma write_entries_read entries last_def used :
  flat_map read_element
    (fst (write_entries existing local_tr archive entries last_def used))
  = map live entries.
Proof.
  revert last_def used. induction entries as [|p ps IH]; intros last_def used.
  - reflexivity.
  - cbn [write_entries map].
    set (cur := if has_dot (p_key p) then before_dot (p_key p) else p_key p).
    specialize (IH (Some cur) (p_key p :: used)).
    destruct (write_entries existing local_tr archive ps (Some cur) (p_key p :: used))
      as [ws u].
    cbn [fst] in *. rewrite !read_back_app, IH.
    destruct (truthy_opt last_def && _); reflexivity.
Qed.

Lemma document_shape entries :
  document existing local_tr archive entries
  = ([Raw xml_declaration; Raw ("<LanguageData>" ++ nl); Raw ("  " ++ nl)]
     ++ fst (write_entries existing local_tr archive entries None [])
     ++ unused_section existing
          (snd (write_entries existing local_tr archive entries None []))
     ++ [Raw ("  " ++ nl); Raw "</LanguageData>"])%list.
Proof.
  unfold document.
  now destruct (write_entries existing local_tr archive entries None []).
Qed.

Lemma live_in_document entries k v :
  In (LiveElement k v) (document existing local_tr archive entries)
  <-> In k (map p_key entries) /\ v = resolve existing local_tr archive k.
Proof.
  rewrite document_shape, <- (write_entries_live entries None []). split.
  - intro H. apply in_app_or in H as [H|H].
    { destruct H as [H|[H|[H|[]]]]; discriminate. }
    apply in_app_or in H as [H|H]; [exact H|].
    apply in_app_or in H as [H|H].
    { apply unused_section_raw in H as (c & H). discriminate. }
    destruct H as [H|[H|[]]]; discriminate.
  - intro H. apply in_or_app. right. apply in_or_app. now left.
Qed.

Lemma read_back_document entries :
  flat_map read_element (document existing local_tr archive entries)
  = map (fun k =>
           (k, if line_ends (resolve existing local_tr archive k) =? ""
               then None
               else Some (line_ends (resolve existing local_tr archive k))))
      (map p_key entries).
Proof.
  rewrite document_shape.
  rewrite !read_back_app, read_unused_section, write_entries_read.
  cbn [flat_map read_element app]. rewrite app_nil_r, map_map. reflexivity.
Qed.

End Writer.

(** The writes depend on the old output through the resolved values only. *)
Lemma write_entries_ext e1 e0 local_tr archive entries :
  (forall k, In k (map p_key entries) ->
             resolve e1 local_tr archive k = resolve e0 local_tr archive k) ->
  forall last_def used,
    write_entries e1 local_tr archive entries last_def used
    = write_entries e0 local_tr archive entries last_def used.
Proof.
  induction entries as [|p ps IH]; intros H last_def used; [reflexivity|].
  cbn [write_entries]. rewrite IH by (intros k Hk; apply H; now right).
  rewrite (H (p_key p)) by now left. reflexivity.
Qed.

End DefInjectedFacts.

(** * Reconciliation with the old output *)

Module MergeFacts.

Import Text Output Archive TextFacts OutputFacts LoaderFacts.

Lemma keyed_resolve_keeps existing local_tr archive k v :
  Dict.get k existing = Some v -> v <> "" -> v <> "TODO" ->
  Keyed.resolve existing local_tr archive k = v.
Proof.
  intros Hget Hne Hnt. unfold Keyed.resolve, Dict.get_default. rewrite Hget.
  apply String.eqb_neq in Hne, Hnt. now rewrite Hne, Hnt.
Qed.

(** A live element of a document, with the bytes it stands for. *)
Lemma live_bytes (doc : list Write) (k v : string) :
  In (LiveElement k v) doc ->
  exists before after,
    doc = (before ++ LiveElement k v :: after)%list
    /\ content doc
       = content before
         ++ ("  <" ++ k ++ ">" ++ escape v ++ "</" ++ k ++ ">" ++ nl)
         ++ content after.
Proof.
  intro H. apply in_split in H as (before & after & ->).
  exists before, after. split; [reflexivity|]. apply content_split.
Qed.

(** A disabled record of a document, with the bytes it stands for. *)
Lemma record_bytes (doc : list Write) (k v : string) :
  In (Raw (disabled_line k v)) doc ->
  exists before after,
    doc = (before ++ Raw (disabled_line k v) :: after)%list
    /\ content doc
       = content before
         ++ ("  <!-- <" ++ k ++ ">" ++ v ++ "</" ++ k ++ "> -->" ++ nl)
         ++ content after.
Proof.
  intro H. apply in_split in H as (before & after & ->).
  exists before, after. split; [reflexivity|]. apply content_split.
Qed.

(** C1, as stated, fails for DefInjected: the prior text is trimmed when it
    is read.  A prior text with blanks around it is not written as it was,
    and a prior text that is the placeholder once trimmed is replaced by the
    archive value. *)
Lemma translation_preserved_counterexample :
  let run := DefInjected.mkRun false [("Knife.label", "Cuchillo")] [] in
  let entries := [mkEntry "Knife.label" "Knife"] in
  let definjected := fun old =>
    fst (DefInjected.save_def_type run "ThingDef" entries "Knives.xml"
           (Parsed [("Knife.label", Some old)]) Missing) in
  (In (LiveElement "Knife.label" "Navaja") (definjected " Navaja ")
   /\ ~ In (LiveElement "Knife.label" " Navaja ") (definjected " Navaja "))
  /\ (In (LiveElement "Knife.label" "Cuchillo") (definjected " TODO ")
      /\ ~ In (LiveElement "Knife.label" " TODO ") (definjected " TODO ")).
Proof.
  intros run entries definjected. repeat split.
  - in_list.
  - not_in_list.
  - in_list.
  - not_in_list.
Qed.

(** C1, amended. Let the prior output file hold the text [raw] for a key.
    The DefInjected writer takes the text trimmed: when that is neither
    empty nor the placeholder, every element written for the key carries the
    trimmed text, whatever the archives hold; the element is written, with
    the bytes given, when the key is among the written ones (a fresh key is,
    unless the Backstory renaming changes it), and otherwise the trimmed
    text is kept in the disabled record of the key.  The Keyed writer takes
    the text as it is, and does the same with it when it is not the
    placeholder. *)
Theorem translation_preserved (run : DefInjected.Run) (def_type : string)
    (entries : list Entry) (original_filename : string)
    (output_file local_file : FileState) (k raw : string) :
  Notions.last_text k raw output_file ->
  (strip raw <> "" -> strip raw <> "TODO" ->
   let doc :=
     fst (DefInjected.save_def_type run def_type entries original_filename
            output_file local_file) in
   let written :=
     map DefInjected.p_key
       (DefInjected.prepare (DefInjected.recover_option run) def_type
          (DefInjected.global_archive_translations run)
          (DefInjected.english_translations run) entries) in
   (forall v', In (LiveElement k v') doc -> v' = strip raw) /\
   (In k written ->
    exists before after,
      doc = (before ++ LiveElement k (strip raw) :: after)%list
      /\ content doc
         = content before
           ++ ("  <" ++ k ++ ">" ++ escape (strip raw) ++ "</" ++ k ++ ">" ++ nl)
           ++ content after) /\
   (~ In k written ->
    exists before after,
      doc = (before ++ Raw (disabled_line k (strip raw)) :: after)%list
      /\ content doc
         = content before
           ++ ("  <!-- <" ++ k ++ ">" ++ strip raw ++ "</" ++ k ++ "> -->" ++ nl)
           ++ content after) /\
   (forall e, In e entries -> key e = k ->
              (contains "Backstory" def_type
               && ((if has_dot k then after_dot k else "") =? "baseDesc")) = false ->
              In k written))
  /\
  (raw <> "TODO" ->
   let doc :=
     fst (Keyed.save_keyed_translations (DefInjected.global_archive_translations run)
            entries original_filename output_file local_file) in
   (forall v', In (LiveElement k v') doc -> v' = raw) /\
   (In k (map key entries) ->
    exists before after,
      doc = (before ++ LiveElement k raw :: after)%list
      /\ content doc
         = content before
           ++ ("  <" ++ k ++ ">" ++ escape raw ++ "</" ++ k ++ ">" ++ nl)
           ++ content after) /\
   (~ In k (map key entries) ->
    exists before after,
      doc = (before ++ Raw (disabled_line k raw) :: after)%list
      /\ content doc
         = content before
           ++ ("  <!-- <" ++ k ++ ">" ++ raw ++ "</" ++ k ++ "> -->" ++ nl)
           ++ content after)).
Proof.
  intro Hlast. split.
  - intros Hne Hnt doc written.
    pose proof (last_text_definjected _ _ _ Hlast) as Hget.
    unfold doc, DefInjected.save_def_type. cbn [fst].
    fold written. repeat split.
    + intros v' H. apply DefInjectedFacts.live_in_document in H as [_ ->].
      now apply DefInjectedFacts.resolve_keeps.
    + intro H. apply live_bytes, DefInjectedFacts.live_in_document.
      split; [exact H|].
      symmetry. now apply DefInjectedFacts.resolve_keeps.
    + intro H. apply record_bytes. rewrite DefInjectedFacts.document_shape.
      destruct (unused_section_keeps (DefInjected.load_existing output_file)
                  (snd (DefInjected.write_entries
                          (DefInjected.load_existing output_file)
                          (load_single_xml_translations local_file)
                          (DefInjected.global_archive_translations run)
                          (DefInjected.prepare (DefInjected.recover_option run) def_type
                             (DefInjected.global_archive_translations run)
                             (DefInjected.english_translations run) entries)
                          None [])) k (strip raw) Hget) as (records & -> & Hin).
      * rewrite DefInjectedFacts.write_entries_snd. cbn [In]. tauto.
      * apply in_or_app. right. apply in_or_app. right. apply in_or_app. left.
        now right.
    + intros e He <- Hb. now apply DefInjectedFacts.prepare_keeps.
  - intros Hnt doc.
    pose proof (last_text_keyed _ _ _ Hlast) as Hget.
    assert (Hne : raw <> "") by (destruct Hlast as (? & ? & _ & _ & H & _); exact H).
    unfold doc, Keyed.save_keyed_translations. cbn [fst]. repeat split.
    + intros v' H. apply KeyedFacts.keyed_live_in_document in H as [_ ->].
      now apply keyed_resolve_keeps.
    + intro H. apply live_bytes, KeyedFacts.keyed_live_in_document.
      split; [exact H|].
      symmetry. now apply keyed_resolve_keeps.
    + intro H. apply record_bytes. rewrite KeyedFacts.keyed_document_shape.
      destruct (unused_section_keeps (Keyed.load_existing output_file)
                  (snd (Keyed.write_entries
                          (Keyed.load_existing output_file)
                          (load_single_xml_translations local_file)
                          (DefInjected.global_archive_translations run)
                          entries [])) k raw Hget) as (records & -> & Hin).
      * rewrite KeyedFacts.keyed_entries_snd. cbn [In]. tauto.
      * apply in_or_app. right. apply in_or_app. right. apply in_or_app. left.
        now right.
Qed.

Lemma translation_preserved_witness :
  let run := DefInjected.mkRun false [("Thing.label", "Cuchillo")] [] in
  let entries := [mkEntry "Thing.label" "Knife & fork"] in
  let old := Parsed [("Thing.label", Some " Cuchillo & tenedor ")] in
  (exists before after,
     content (fst (DefInjected.save_def_type run "ThingDef" entries "Knives.xml"
                     old Missing))
     = before ++ ("  <Thing.label>Cuchillo &amp; tenedor</Thing.label>" ++ nl) ++ after)
  /\
  (exists before after,
     content (fst (Keyed.save_keyed_translations [("Thing.label", "Cuchillo")]
                     entries "Knives.xml" old Missing))
     = before ++ ("  <Thing.label> Cuchillo &amp; tenedor </Thing.label>" ++ nl) ++ after).
Proof.
  intros run entries old.
  destruct (translation_preserved run "ThingDef" entries "Knives.xml" old Missing
              "Thing.label" " Cuchillo & tenedor ") as [HD HK].
  { exists [], []. repeat split; try discriminate. intros x []. }
  split.
  - destruct HD as (_ & H & _); try discriminate.
    destruct H as (before & after & _ & E); [now left|].
    exists (content before), (content after). exact E.
  - destruct HK as (_ & H & _); try discriminate.
    destruct H as (before & after & _ & E); [now left|].
    exists (content before), (content after). exact E.
Defined.

(** C5, as stated, fails: with the recovery option a key of the old output
    that the source no longer yields is written as a live element when the
    global archive has it under a definition of the source. *)
Lemma orphan_retention_counterexample :
  let run := DefInjected.mkRun true [("Knife.description", "Un cuchillo")] [] in
  let entries := [mkEntry "Knife.label" "Knife"] in
  let old := Parsed [("Knife.description", Some "Cuchillo viejo")] in
  let doc := fst (DefInjected.save_def_type run "ThingDef" entries "Knives.xml"
                    old Missing) in
  Dict.get "Knife.description" (DefInjected.load_existing old) = Some "Cuchillo viejo"
  /\ ~ In "Knife.description" (map key entries)
  /\ In (LiveElement "Knife.description" "Cuchillo viejo") doc
  /\ ~ In (Raw (disabled_line "Knife.description" "Cuchillo viejo")) doc.
Proof.
  intros run entries old doc. repeat split.
  - not_in_list.
  - in_list.
  - not_in_list.
Qed.

(** The trailing section of a document: after the marker come the
    records and the chunks that close the document, and no element. *)
Lemma trailing_section (head ws tail : list Write) (existing : Dict.t string)
    (used : list string) (k v : string) :
  Dict.get k existing = Some v -> ~ In k used ->
  (forall w, In w tail -> exists c, w = Raw c) ->
  exists before after,
    (head ++ ws ++ unused_section existing used ++ tail)%list
    = (before ++ Raw unused_marker :: after)%list
    /\ In (Raw (disabled_line k v)) after
    /\ (forall k' v', ~ In (LiveElement k' v') after).
Proof.
  intros Hget Hused Htail.
  destruct (unused_section_keeps existing used k v Hget Hused)
    as (records & E & Hin).
  exists (head ++ ws)%list, (records ++ tail)%list. rewrite E. repeat split.
  - now rewrite <- app_assoc.
  - apply in_or_app. now left.
  - intros k' v' H. apply in_app_or in H as [H|H].
    + assert (H' : In (LiveElement k' v') (unused_section existing used))
        by (rewrite E; now right).
      apply unused_section_raw in H' as (c & H'). discriminate.
    + apply Htail in H as (c & H). discriminate.
Qed.

(** The bytes of a trailing section. *)
Lemma trailing_bytes (doc before after : list Write) (k v : string) :
  doc = (before ++ Raw unused_marker :: after)%list ->
  In (Raw (disabled_line k v)) after ->
  exists records rest,
    content doc
    = content before
      ++ (nl ++ "  <!-- INUTILIZADO -->" ++ nl)
      ++ records
      ++ ("  <!-- <" ++ k ++ ">" ++ v ++ "</" ++ k ++ "> -->" ++ nl)
      ++ rest.
Proof.
  intros -> Hin. apply in_split in Hin as (l1 & l2 & ->).
  exists (content l1), (content l2).
  rewrite content_split. f_equal. cbn [render]. f_equal.
  apply content_split.
Qed.

(** C5, amended. Let the prior output file hold the text [raw] for a key
    that is not a key of the entries written (the fresh entries after the
    optional recovery of implicit keys and the Backstory renaming; for Keyed
    the fresh entries).  No element is written for the key.  The bytes of
    the document hold, after the marker line, the record of the key with its
    old value as the writer read it (trimmed for DefInjected), not escaped,
    and no element is written after the marker.  When the chunks of the
    document tell what the parser finds in it (every comment is closed
    where the writer closes it), no element the parser returns has the
    key. *)
Theorem orphans_retained (run : DefInjected.Run) (def_type : string)
    (entries : list Entry) (original_filename : string)
    (output_file local_file : FileState) (k raw : string) :
  Notions.last_text k raw output_file ->
  (let doc :=
     fst (DefInjected.save_def_type run def_type entries original_filename
            output_file local_file) in
   let written :=
     map DefInjected.p_key
       (DefInjected.prepare (DefInjected.recover_option run) def_type
          (DefInjected.global_archive_translations run)
          (DefInjected.english_translations run) entries) in
   ~ In k written ->
   (forall v', ~ In (LiveElement k v') doc) /\
   (exists before after,
      doc = (before ++ Raw unused_marker :: after)%list /\
      (forall k' v', ~ In (LiveElement k' v') after) /\
      exists records rest,
        content doc
        = content before
          ++ (nl ++ "  <!-- INUTILIZADO -->" ++ nl)
          ++ records
          ++ ("  <!-- <" ++ k ++ ">" ++ strip raw ++ "</" ++ k ++ "> -->" ++ nl)
          ++ rest) /\
   (forall root_children,
      read_back true doc = Some (Parsed root_children) ->
      forall x, ~ In (k, x) root_children))
  /\
  (let doc :=
     fst (Keyed.save_keyed_translations (DefInjected.global_archive_translations run)
            entries original_filename output_file local_file) in
   ~ In k (map key entries) ->
   (forall v', ~ In (LiveElement k v') doc) /\
   (exists before after,
      doc = (before ++ Raw unused_marker :: after)%list /\
      (forall k' v', ~ In (LiveElement k' v') after) /\
      exists records rest,
        content doc
        = content before
          ++ (nl ++ "  <!-- INUTILIZADO -->" ++ nl)
          ++ records
          ++ ("  <!-- <" ++ k ++ ">" ++ raw ++ "</" ++ k ++ "> -->" ++ nl)
          ++ rest) /\
   (forall root_children,
      read_back true doc = Some (Parsed root_children) ->
      forall x, ~ In (k, x) root_children)).
Proof.
  intro Hlast. split.
  - intros doc written Hout.
    pose proof (last_text_definjected _ _ _ Hlast) as Hget.
    assert (Hlive : forall v', ~ In (LiveElement k v') doc).
    { intros v' H. apply DefInjectedFacts.live_in_document in H as [H _].
      exact (Hout H). }
    repeat split.
    + exact Hlive.
    + unfold doc, DefInjected.save_def_type. cbn [fst].
      rewrite DefInjectedFacts.document_shape.
      match goal with
      | |- context [(?h ++ ?ws ++ unused_section ?e ?u ++ ?t)%list] =>
          destruct (trailing_section h ws t e u k (strip raw) Hget)
            as (before & after & E & Hin & Hraw)
      end.
      { rewrite DefInjectedFacts.write_entries_snd. cbn [In]. tauto. }
      { intros w [<-|[<-|[]]]; eauto. }
      exists before, after. repeat split; [exact E|exact Hraw|].
      rewrite E. now apply (trailing_bytes _ before after).
    + intros root_children Hread x Hx.
      apply read_back_parsed in Hread. subst root_children.
      apply read_element_live in Hx as (v' & Hv'). exact (Hlive v' Hv').
  - intros doc Hout.
    pose proof (last_text_keyed _ _ _ Hlast) as Hget.
    assert (Hlive : forall v', ~ In (LiveElement k v') doc).
    { intros v' H. apply KeyedFacts.keyed_live_in_document in H as [H _].
      exact (Hout H). }
    repeat split.
    + exact Hlive.
    + unfold doc, Keyed.save_keyed_translations. cbn [fst].
      rewrite KeyedFacts.keyed_document_shape.
      match goal with
      | |- context [(?h ++ ?ws ++ unused_section ?e ?u ++ ?t)%list] =>
          destruct (trailing_section h ws t e u k raw Hget)
            as (before & after & E & Hin & Hraw)
      end.
      { rewrite KeyedFacts.keyed_entries_snd. cbn [In]. tauto. }
      { intros w [<-|[]]; eauto. }
      exists before, after. repeat split; [exact E|exact Hraw|].
      rewrite E. now apply (trailing_bytes _ before after).
    + intros root_children Hread x Hx.
      apply read_back_parsed in Hread. subst root_children.
      apply read_element_live in Hx as (v' & Hv'). exact (Hlive v' Hv').
Qed.

Lemma orphans_retained_witness :
  let run := DefInjected.mkRun false [] [] in
  let entries := [mkEntry "Knife.label" "Knife"] in
  let old :=
    Parsed [("Knife.label", Some "Cuchillo"); ("Spoon.label", Some " Cuchara & co ")] in
  (exists before records rest,
     content (fst (DefInjected.save_def_type run "ThingDef" entries "Knives.xml"
                     old Missing))
     = before
       ++ (nl ++ "  <!-- INUTILIZADO -->" ++ nl)
       ++ records
       ++ ("  <!-- <Spoon.label>Cuchara & co</Spoon.label> -->" ++ nl)
       ++ rest)
  /\
  (forall root_children,
     read_back true (fst (Keyed.save_keyed_translations [] entries "Knives.xml"
                            old Missing))
     = Some (Parsed root_children) ->
     root_children = [("Knife.label", Some "Cuchillo")]
     /\ forall x, ~ In ("Spoon.label", x) root_children).
Proof.
  intros run entries old.
  destruct (orphans_retained run "ThingDef" entries "Knives.xml" old Missing
              "Spoon.label" " Cuchara & co ") as [HD HK].
  { exists [("Knife.label", Some "Cuchillo")], []. repeat split; try discriminate.
    intros x []. }
  split.
  - destruct HD as (_ & (before & after & _ & _ & records & rest & E) & _).
    { not_in_list. }
    exists (content before), records, rest. exact E.
  - destruct HK as (_ & _ & H); [not_in_list|].
    intros root_children Hread. split; [|exact (H root_children Hread)].
    vm_compute in Hread. now injection Hread as <-.
Defined.

(** An old value that closes the comment of its record: the chunks do not
    tell what the parser finds, because what follows the closing in the
    value is outside the comment. *)
Lemma orphan_record_reopened :
  let entries := [mkEntry "Knife.label" "Knife"] in
  let old :=
    Parsed [("Spoon.label", Some "--><Knife.label>Cuchara</Knife.label><!--")] in
  let doc := fst (Keyed.save_keyed_translations [] entries "Knives.xml" old Missing) in
  In (Raw ("  <!-- <Spoon.label>--><Knife.label>Cuchara</Knife.label><!--</Spoon.label> -->"
           ++ nl)) doc
  /\ read_back true doc = None.
Proof. intros entries old doc. split; [in_list|reflexivity]. Qed.

(** *** The action reported *)

Lemma set_not_nil {V : Type} (k : string) (v : V) (d : Dict.t V) :
  Dict.set k v d <> [].
Proof.
  destruct d as [|[k' v'] d]; cbn; [discriminate|].
  destruct (k' =? k); discriminate.
Qed.

Lemma existing_has_text_child (read : Dict.t string -> string * option string -> Dict.t string)
    (f : string -> string) :
  (forall d t x, read d (t, x) =
                 match x with
                 | Some raw => if truthy t && truthy raw then Dict.set t (f raw) d else d
                 | None => d
                 end) ->
  forall cs,
    match fold_left read cs [] with [] => false | _ :: _ => true end
    = existsb (fun child : string * option string =>
                 truthy (fst child) && truthy_opt (snd child)) cs.
Proof.
  intros Hread.
  assert (Hkeep : forall cs d, d <> [] -> fold_left read cs d <> []).
  { induction cs as [|[t x] cs IH]; intros d Hd; [exact Hd|].
    cbn [fold_left]. apply IH. rewrite Hread.
    destruct x as [raw|]; [|exact Hd].
    destruct (truthy t && truthy raw); [apply set_not_nil|exact Hd]. }
  induction cs as [|[t x] cs IH]; [reflexivity|].
  cbn [fold_left existsb fst snd]. rewrite Hread.
  destruct x as [raw|]; cbn [truthy_opt].
  - destruct (truthy t && truthy raw) eqn:E; cbn [orb]; [|exact IH].
    specialize (Hkeep cs (Dict.set t (f raw) []) (set_not_nil _ _ _)).
    now destruct (fold_left read cs (Dict.set t (f raw) [])).
  - rewrite andb_false_r. exact IH.
Qed.

Lemma definjected_action output_file :
  action (DefInjected.load_existing output_file)
  = if has_text_child output_file then "Actualizado" else "Generado".
Proof.
  rewrite action_updated.
  destruct output_file as [| |cs]; try reflexivity.
  cbn [DefInjected.load_existing has_text_child].
  now rewrite (existing_has_text_child DefInjected.read_child strip).
Qed.

Lemma keyed_action output_file :
  action (Keyed.load_existing output_file)
  = if has_text_child output_file then "Actualizado" else "Generado".
Proof.
  rewrite action_updated.
  destruct output_file as [| |cs]; try reflexivity.
  cbn [Keyed.load_existing has_text_child].
  now rewrite (existing_has_text_child Keyed.read_child (fun raw => raw)).
Qed.

(** C8, as stated, fails: an old output file without any element that has
    a text (or one that does not parse) is there, and the action reported is
    [Generado]. *)
Lemma action_classification_counterexample :
  let old := Parsed [("Knife.label", None)] in
  old <> Missing
  /\ snd (DefInjected.save_def_type (DefInjected.mkRun false [] [])
            "ThingDef" [mkEntry "Knife.label" "Knife"] "Knives.xml" old Missing)
     = "[Generado] ThingDef/Knives.xml"
  /\ snd (Keyed.save_keyed_translations [] [mkEntry "Knife.label" "Knife"]
            "Knives.xml" Unparseable Missing)
     = ["[Generado] Knives.xml"].
Proof.
  intro old. repeat split. discriminate.
Qed.

(** C8, amended. The action reported for a file is [Actualizado] exactly
    when the old output file was read and has at least one element with a
    text; it is [Generado] otherwise, that is without an old file, with one
    that does not parse, and with one that holds no such element. *)
Theorem action_classification (run : DefInjected.Run) (def_type : string)
    (entries : list Entry) (original_filename : string)
    (output_file local_file : FileState) :
  let reported := if has_text_child output_file then "Actualizado" else "Generado" in
  snd (DefInjected.save_def_type run def_type entries original_filename
         output_file local_file)
  = "[" ++ reported ++ "] " ++ def_type ++ "/" ++ original_filename
  /\
  snd (Keyed.save_keyed_translations (DefInjected.global_archive_translations run)
         entries original_filename output_file local_file)
  = ["[" ++ reported ++ "] " ++ original_filename].
Proof.
  unfold DefInjected.save_def_type, Keyed.save_keyed_translations. cbn [snd].
  now rewrite definjected_action, keyed_action.
Qed.

(** *** The recovery of implicit keys *)

Lemma set_keys_nodup {V : Type} (k : string) (v : V) (d : Dict.t V) :
  NoDup (Dict.keys d) -> NoDup (Dict.keys (Dict.set k v d)).
Proof.
  induction d as [|[k' v'] d IH]; cbn [Dict.set Dict.keys map fst].
  - intros _. constructor; [intros []|constructor].
  - intro H. inversion H as [|? ? Hnot Hd]; subst.
    destruct (k' =? k) eqn:E; cbn [map fst].
    + constructor; assumption.
    + constructor; [|apply IH, Hd].
      intro Hin. apply (DictFacts.keys_set k v d k') in Hin as [->|Hin].
      * rewrite String.eqb_refl in E. discriminate.
      * exact (Hnot Hin).
Qed.

Lemma load_archive_nodup files :
  NoDup (Dict.keys (load_archive_translations files)).
Proof.
  assert (Hchild : forall d c, NoDup (Dict.keys d) -> NoDup (Dict.keys (index_child d c))).
  { intros d [t [raw|]] Hd; cbn [index_child]; [|exact Hd].
    destruct (truthy t && truthy raw); [|exact Hd].
    destruct (truthy (strip raw) && _); [apply set_keys_nodup|]; exact Hd. }
  assert (Hfile : forall f d, NoDup (Dict.keys d) -> NoDup (Dict.keys (index_file d f))).
  { intros [| |cs] d Hd; cbn [index_file]; try exact Hd.
    revert d Hd. induction cs as [|c cs IH]; intros d Hd; [exact Hd|].
    cbn [fold_left]. apply IH, Hchild, Hd. }
  destruct files as [fs|]; cbn [load_archive_translations]; [|constructor].
  assert (H : forall d, NoDup (Dict.keys d) ->
                        NoDup (Dict.keys (fold_left index_file fs d))).
  { induction fs as [|f fs IH]; intros d Hd; [exact Hd|].
    cbn [fold_left]. apply IH, Hfile, Hd. }
  apply H. constructor.
Qed.

Lemma extra_entries_spec archive english entries e :
  In e (DefInjected.extra_entries archive english entries)
  <-> exists k,
        In k (Dict.keys archive) /\ has_dot k = true /\
        (exists f, In f entries /\ DefInjected.def_of (key f) = before_dot k) /\
        ~ In k (map key entries) /\
        e = mkEntry k (match Dict.get k english with
                       | Some source => source
                       | None => DefInjected.implicit_marker
                       end).
Proof.
  unfold DefInjected.extra_entries. rewrite in_flat_map. split.
  - intros ([k a] & Hin & He). cbn [fst] in He.
    destruct (has_dot k) eqn:Hdot; [|destruct He].
    destruct (set_mem (before_dot k) _ && negb (set_mem k _)) eqn:E; [|destruct He].
    destruct He as [<-|[]]. apply andb_true_iff in E as [E1 E2].
    apply set_mem_true, in_map_iff in E1 as (f & Hf & Hfin).
    apply negb_true_iff, set_mem_false in E2.
    exists k. repeat split; eauto.
    apply in_map_iff. exists (k, a). auto.
  - intros (k & Hk & Hdot & (f & Hf & Hdef) & Hnot & ->).
    apply in_map_iff in Hk as ([k' a] & <- & Hin). cbn [fst] in *.
    exists (k', a). split; [exact Hin|]. cbn [fst]. rewrite Hdot.
    assert (E1 : set_mem (before_dot k')
                   (map (fun entry => DefInjected.def_of (key entry)) entries) = true).
    { apply set_mem_true, in_map_iff. eauto. }
    assert (E2 : set_mem k' (map key entries) = false) by now apply set_mem_false.
    rewrite E1, E2. now left.
Qed.

Lemma extra_entries_nodup archive english entries :
  NoDup (Dict.keys archive) ->
  NoDup (map key (DefInjected.extra_entries archive english entries)).
Proof.
  unfold DefInjected.extra_entries.
  induction archive as [|[k a] d IH]; cbn [flat_map Dict.keys map fst];
    [constructor|].
  intro H. inversion H as [|? ? Hnot Hd]; subst. specialize (IH Hd).
  rewrite map_app.
  match goal with
  | |- NoDup (map key ?one ++ _) =>
      assert (Hone : one = [] \/ exists x, one = [mkEntry k x])
  end.
  { destruct (has_dot k); [|now left].
    destruct (set_mem _ _ && _); [right; eauto|now left]. }
  destruct Hone as [->|(x & ->)]; [exact IH|].
  cbn [map app key]. constructor; [|exact IH].
  intro Hin. apply Hnot. apply in_map_iff in Hin as (e & He & Hin).
  apply in_flat_map in Hin as ([k' a'] & Hin' & Hone). cbn [fst] in Hone.
  assert (key e = k').
  { destruct (has_dot k'); [|destruct Hone].
    destruct (set_mem _ _ && _); [|destruct Hone].
    destruct Hone as [<-|[]]. reflexivity. }
  unfold Dict.keys. apply in_map_iff. exists (k', a'). cbn [fst]. split; congruence.
Qed.

(** The definition name the code takes from a key is its first
    component. *)
Lemma def_of_component d k :
  DefInjected.def_of k = d <-> Notions.first_component d k.
Proof.
  unfold DefInjected.def_of, Notions.first_component. split.
  - destruct (has_dot k) eqn:Hk; intros <-.
    + split; [apply before_dot_dotless|].
      right. exists (after_dot k). symmetry. now apply split_join_dot.
    + split; [exact Hk|now left].
  - intros (Hd & [->|(rest & ->)]).
    + now rewrite Hd.
    + destruct (before_dot_join d rest Hd) as (H1 & H2 & _). now rewrite H2.
Qed.

(** C7, as stated, fails: a key of the global archive without a dot is
    never recovered, also when it is the definition name of a fresh key and
    is not a fresh key itself. *)
Lemma implicit_recovery_counterexample :
  let archive := [("Knife", "Cuchillo")] in
  let entries := [mkEntry "Knife.label" "Knife"] in
  In "Knife" (Dict.keys archive)
  /\ Notions.first_component "Knife" "Knife"
  /\ Notions.first_component "Knife" (key (mkEntry "Knife.label" "Knife"))
  /\ ~ In "Knife" (map key entries)
  /\ DefInjected.recover_implicit true archive [] entries = entries.
Proof.
  intros archive entries. repeat split.
  - now left.
  - now left.
  - right. now exists "label".
  - not_in_list.
Qed.

(** C7, amended. The recovery step leaves the fresh entries as they are
    and in front.  With the option it adds after them one entry for every
    key of the global archive that has a dot, whose part before the first
    dot is the first component of a fresh key and that is not itself a fresh
    key; the source text of the entry is the English archive text of the key
    when there is one and the marker [(Implicit/Inherited)] otherwise.
    Nothing else is added, nothing is added without the option, and when the
    keys of the archive are distinct no key is recovered twice. *)
Theorem implicit_recovery (enabled : bool) (archive english : Dict.t string)
    (entries : list Entry) :
  exists extras,
    DefInjected.recover_implicit enabled archive english entries
    = (entries ++ extras)%list
    /\ (forall e,
          In e extras
          <-> enabled = true
              /\ exists d rest,
                   In (d ++ "." ++ rest) (Dict.keys archive)
                   /\ has_dot d = false
                   /\ (exists f, In f entries /\ Notions.first_component d (key f))
                   /\ ~ In (d ++ "." ++ rest) (map key entries)
                   /\ e = mkEntry (d ++ "." ++ rest)
                            (match Dict.get (d ++ "." ++ rest) english with
                             | Some source => source
                             | None => "(Implicit/Inherited)"
                             end))
    /\ (NoDup (Dict.keys archive) -> NoDup (map key extras)).
Proof.
  destruct enabled; cbn [DefInjected.recover_implicit].
  - exists (DefInjected.extra_entries archive english entries).
    split; [reflexivity|]. split.
    + intro e. rewrite extra_entries_spec. split.
      * intros (k & Hk & Hdot & (f & Hf & Hdef) & Hnot & ->).
        split; [reflexivity|].
        exists (before_dot k), (after_dot k).
        rewrite (split_join_dot k Hdot). repeat split; auto.
        -- apply before_dot_dotless.
        -- exists f. split; [exact Hf|]. now apply def_of_component.
      * intros (_ & d & rest & Hk & Hd & (f & Hf & Hc) & Hnot & ->).
        destruct (before_dot_join d rest Hd) as (H1 & H2 & _).
        exists (d ++ "." ++ rest). repeat split; auto.
        exists f. split; [exact Hf|]. rewrite H1. now apply def_of_component.
    + apply extra_entries_nodup.
  - exists []. rewrite app_nil_r. split; [reflexivity|]. split.
    + intro e. split; [intros []|intros [H _]; discriminate].
    + intros _. constructor.
Qed.

Lemma implicit_recovery_witness :
  exists extras,
    DefInjected.recover_implicit true
      (load_archive_translations
         (Some [Parsed [("Knife.label", Some "Cuchillo");
                        ("Knife.description", Some "Un cuchillo");
                        ("Knife", Some "Cuchillo");
                        ("Spoon.label", Some "Cuchara")]]))
      [("Knife.description", "A knife")]
      [mkEntry "Knife.label" "Knife"]
    = ([mkEntry "Knife.label" "Knife"] ++ extras)%list
    /\ extras = [mkEntry "Knife.description" "A knife"]
    /\ NoDup (map key extras).
Proof.
  destruct (implicit_recovery true
              (load_archive_translations
                 (Some [Parsed [("Knife.label", Some "Cuchillo");
                                ("Knife.description", Some "Un cuchillo");
                                ("Knife", Some "Cuchillo");
                                ("Spoon.label", Some "Cuchara")]]))
              [("Knife.description", "A knife")]
              [mkEntry "Knife.label" "Knife"]) as (extras & E & _ & Hnodup).
  exists extras. split; [exact E|]. split.
  - vm_compute in E. now injection E as <-.
  - apply Hnodup, load_archive_nodup.
Defined.

(** *** The placeholder in another letter case *)

(** C10. An old value that is the placeholder only up to letter case (so
    not the string [TODO] itself) is kept as it is by both writers: the
    archives are not consulted, whatever they hold.  The archive loaders,
    on the other hand, let in no value that is the placeholder in any
    letter case. *)
Theorem placeholder_case_asymmetry (existing local_tr archive : Dict.t string)
    (k v : string) :
  Dict.get k existing = Some v -> upper v = "TODO" -> v <> "TODO" ->
  DefInjected.resolve existing local_tr archive k = v
  /\ Keyed.resolve existing local_tr archive k = v
  /\ (forall entries,
        In k (map DefInjected.p_key entries) ->
        In (LiveElement k v) (DefInjected.document existing local_tr archive entries))
  /\ (forall entries,
        In k (map key entries) ->
        In (LiveElement k v) (Keyed.document existing local_tr archive entries))
  /\ (forall files k' v',
        Dict.get k' (load_archive_translations files) = Some v' -> upper v' <> "TODO")
  /\ (forall file k' v',
        Dict.get k' (load_single_xml_translations file) = Some v' -> upper v' <> "TODO").
Proof.
  intros Hget Hup Hnt.
  assert (Hne : v <> "") by (intros ->; discriminate).
  pose proof (DefInjectedFacts.resolve_keeps existing local_tr archive k v Hget Hne Hnt)
    as HD.
  pose proof (keyed_resolve_keeps existing local_tr archive k v Hget Hne Hnt) as HK.
  repeat split; auto.
  - intros entries H. apply DefInjectedFacts.live_in_document. auto.
  - intros entries H. apply KeyedFacts.keyed_live_in_document. auto.
  - intros files k' v' H. exact (proj2 (proj2 (load_archive_archived files k' v' H))).
  - intros file k' v' H. exact (proj2 (proj2 (load_single_archived file k' v' H))).
Qed.

Lemma placeholder_case_asymmetry_witness :
  DefInjected.resolve [("Knife.label", "todo")] [("Knife.label", "Cuchillo")]
    [("Knife.label", "Navaja")] "Knife.label" = "todo"
  /\ Keyed.resolve [("Knife.label", "todo")] [("Knife.label", "Cuchillo")]
       [("Knife.label", "Navaja")] "Knife.label" = "todo".
Proof.
  destruct (placeholder_case_asymmetry [("Knife.label", "todo")]
              [("Knife.label", "Cuchillo")] [("Knife.label", "Navaja")]
              "Knife.label" "todo") as (HD & HK & _);
    try reflexivity; [discriminate|].
  split; [exact HD|exact HK].
Defined.

End MergeFacts.

(** * The wrapper-folder flattening *)

Module PathsFacts.

Import Text Paths.

Lemma find_mods_skip pre rest i :
  (forall p, In p pre -> lower p <> "mods") ->
  find_mods (pre ++ rest) i = find_mods rest (i + List.length pre).
Proof.
  revert i. induction pre as [|p pre IH]; intros i H.
  - cbn. now rewrite Nat.add_0_r.
  - cbn [app find_mods List.length].
    assert (E : (lower p =? "mods") = false)
      by (apply String.eqb_neq, H; now left).
    rewrite E, IH by (intros q Hq; apply H; now right).
    f_equal. lia.
Qed.

Lemma find_mods_none parts :
  (forall p, In p parts -> lower p <> "mods") -> find_mods parts 0 = None.
Proof.
  intro H. rewrite <- (app_nil_r parts). now rewrite find_mods_skip.
Qed.

Lemma find_mods_first pre m rest :
  (forall p, In p pre -> lower p <> "mods") -> lower m = "mods" ->
  find_mods (pre ++ m :: rest) 0 = Some (List.length pre).
Proof.
  intros H Hm. rewrite find_mods_skip by exact H.
  cbn [find_mods]. rewrite Hm. reflexivity.
Qed.

(** C9, as stated, fails: only the first wrapper segment goes; a second
    one stays in the path with the segment that follows it. *)
Lemma flatten_counterexample :
  flatten true ["Mods"; "Core"; "Mods"; "Extra"] = ["Mods"; "Extra"]
  /\ remove_every_wrapper ["Mods"; "Core"; "Mods"; "Extra"] = []
  /\ flatten true ["Mods"; "Core"; "Mods"; "Extra"]
     <> remove_every_wrapper ["Mods"; "Core"; "Mods"; "Extra"].
Proof. repeat split. discriminate. Qed.

(** C9, amended. With the option, the first segment equal to [mods] in any
    letter case is removed together with the segment after it, when there
    is one; the segments before and after stay as they are, later wrapper
    segments included.  A path without such a segment, or with the first
    one at its end, is left unchanged, and so is every path without the
    option.  The transformation is a function of the segments alone. *)
Theorem flatten_first_wrapper (before : list string) (m : string) :
  (forall p, In p before -> lower p <> "mods") ->
  flatten true before = before
  /\ (lower m = "mods" ->
      flatten true (before ++ [m]) = (before ++ [m])%list
      /\ forall follower after,
           flatten true (before ++ m :: follower :: after) = (before ++ after)%list)
  /\ (forall parts, flatten false parts = parts).
Proof.
  intro H. unfold flatten, simplify_mods. repeat split.
  - now rewrite find_mods_none.
  - rewrite find_mods_first by assumption.
    rewrite length_app. cbn [List.length].
    now rewrite Nat.ltb_irrefl.
  - intros follower after. rewrite find_mods_first by assumption.
    rewrite length_app. cbn [List.length].
    assert (E : Nat.ltb (List.length before + 1) (List.length before + S (S (List.length after))) = true)
      by (apply Nat.ltb_lt; lia).
    rewrite E. f_equal.
    + rewrite firstn_app, Nat.sub_diag, firstn_all. cbn [firstn]. apply app_nil_r.
    + rewrite skipn_app.
      rewrite skipn_all2 by lia.
      replace (List.length before + 2 - List.length before) with 2 by lia.
      reflexivity.
Qed.

Lemma flatten_first_wrapper_witness :
  flatten true ["1.5"; "MODS"; "Core"; "Mods"; "Extra"] = ["1.5"; "Mods"; "Extra"].
Proof.
  refine (proj2 (proj1 (proj2 (flatten_first_wrapper ["1.5"] "MODS" _)) eq_refl)
            "Core" ["Mods"; "Extra"]).
  intros p [<-|[]]. discriminate.
Defined.

End PathsFacts.

(** * The fallback chain *)

Module FallbackFacts.

Import Text Output Archive TextFacts OutputFacts LoaderFacts.

Lemma endswith_split suf s :
  endswith suf s = true -> exists q, s = q ++ suf.
Proof.
  induction s as [|c s IH]; cbn [endswith].
  - rewrite orb_false_r. intro H. apply String.eqb_eq in H. subst. now exists "".
  - intro H. apply orb_true_iff in H as [H|H].
    + apply String.eqb_eq in H. subst. now exists "".
    + destruct (IH H) as (q & ->). now exists (String c q).
Qed.

Lemma last_char_append q suf :
  suf <> "" -> last_char (q ++ suf) = last_char suf.
Proof.
  intro Hne. induction q as [|c q IH]; [reflexivity|].
  cbn [append last_char]. rewrite <- IH.
  destruct (q ++ suf) eqn:E; [|reflexivity].
  destruct q; [cbn in E; congruence|discriminate].
Qed.

Lemma endswith_other old old' p :
  old <> "" -> old' <> "" -> last_char old <> last_char old' ->
  endswith old' (p ++ old) = false.
Proof.
  intros Ho Ho' Hl. destruct (endswith old' (p ++ old)) eqn:E; [|reflexivity].
  apply endswith_split in E as (q & E).
  apply (f_equal last_char) in E.
  rewrite !last_char_append in E by assumption. congruence.
Qed.

Lemma synonym_hit archive old new p :
  old <> "" -> only_final old p = true ->
  DefInjected.synonym archive old new (p ++ old) = Dict.get (p ++ new) archive.
Proof.
  intros Ho Hf. unfold DefInjected.synonym.
  now rewrite endswith_append, replace_only_final.
Qed.

Lemma synonym_miss archive old old' new' p :
  old <> "" -> old' <> "" -> last_char old <> last_char old' ->
  DefInjected.synonym archive old' new' (p ++ old) = None.
Proof.
  intros Ho Ho' Hl. unfold DefInjected.synonym.
  now rewrite endswith_other.
Qed.

Lemma lookup_synonym local_tr archive old new p v :
  In (old, new) DefInjected.synonyms -> only_final old p = true ->
  Dict.get (p ++ old) local_tr = None -> Dict.get (p ++ old) archive = None ->
  Dict.get (p ++ new) archive = Some v ->
  DefInjected.lookup local_tr archive (p ++ old) = Some v.
Proof.
  intros Hin Hf Hl Ha Hv. unfold DefInjected.lookup. rewrite Hl, Ha.
  destruct Hin as [E|[E|[E|[E|[]]]]]; injection E as <- <-.
  - rewrite synonym_hit, Hv by (auto; discriminate). reflexivity.
  - rewrite (synonym_miss archive ".description" ".baseDesc") by (cbn; congruence).
    rewrite synonym_hit, Hv by (auto; discriminate). reflexivity.
  - rewrite (synonym_miss archive ".title" ".baseDesc") by (cbn; congruence).
    rewrite (synonym_miss archive ".title" ".description") by (cbn; congruence).
    rewrite synonym_hit, Hv by (auto; discriminate). reflexivity.
  - rewrite (synonym_miss archive ".label" ".baseDesc") by (cbn; congruence).
    rewrite (synonym_miss archive ".label" ".description") by (cbn; congruence).
    rewrite (synonym_miss archive ".label" ".title") by (cbn; congruence).
    rewrite synonym_hit, Hv by (auto; discriminate). reflexivity.
Qed.

Lemma lookup_none local_tr archive k :
  Dict.get k local_tr = None -> Dict.get k archive = None ->
  (forall old new, In (old, new) DefInjected.synonyms ->
                   DefInjected.synonym archive old new k = None) ->
  DefInjected.lookup local_tr archive k = None.
Proof.
  intros Hl Ha Hs. unfold DefInjected.lookup. rewrite Hl, Ha.
  rewrite !Hs by (cbn; tauto). reflexivity.
Qed.

(** The keys a file adds to an index do not depend on the index. *)
Lemma index_child_keys d c k :
  In k (Dict.keys (index_child d c))
  <-> In k (Dict.keys d) \/ In k (Dict.keys (index_child [] c)).
Proof.
  assert (Hnil : In k (Dict.keys d) <-> In k (Dict.keys d) \/ In k (@Dict.keys string []))
    by (cbn; tauto).
  destruct c as [t [raw|]]; cbn [index_child]; [|exact Hnil].
  destruct (truthy t && truthy raw); [|exact Hnil].
  destruct (truthy (strip raw) && _); [|exact Hnil].
  rewrite DictFacts.keys_set. cbn. intuition congruence.
Qed.

Lemma index_children_keys cs d k :
  In k (Dict.keys (fold_left index_child cs d))
  <-> In k (Dict.keys d) \/ In k (Dict.keys (fold_left index_child cs [])).
Proof.
  revert d. induction cs as [|c cs IH]; intro d; cbn [fold_left].
  - cbn. tauto.
  - rewrite (IH (index_child d c)), (IH (index_child [] c)), index_child_keys. tauto.
Qed.

Lemma index_file_keys f d k :
  In k (Dict.keys (index_file d f))
  <-> In k (Dict.keys d) \/ In k (Dict.keys (index_file [] f)).
Proof.
  destruct f as [| |cs]; cbn [index_file]; try (cbn; tauto).
  apply index_children_keys.
Qed.

(** The keys of a file of the archive are keys of the global index. *)
Lemma local_keys_in_archive files f k :
  In f files ->
  In k (Dict.keys (load_single_xml_translations f)) ->
  In k (Dict.keys (load_archive_translations (Some files))).
Proof.
  unfold load_single_xml_translations, load_archive_translations.
  intros Hf Hk.
  assert (H : forall fs d, In k (Dict.keys d) \/ (In f fs) ->
                           In k (Dict.keys (fold_left index_file fs d))).
  { induction fs as [|f0 fs IH]; intros d [Hd|Hin]; cbn [fold_left].
    - exact Hd.
    - destruct Hin.
    - apply IH. left. apply index_file_keys. now left.
    - destruct Hin as [->|Hin].
      + apply IH. left. apply index_file_keys. now right.
      + apply IH. now right. }
  apply H. now right.
Qed.

(** C3, as stated, fails: an old value that is empty once trimmed stays
    empty when no archive has the key; the placeholder is not written. *)
Lemma fallback_order_counterexample :
  let old := Parsed [("Knife.label", Some "   ")] in
  let existing := DefInjected.load_existing old in
  Dict.get "Knife.label" existing = Some ""
  /\ DefInjected.resolve existing [] [] "Knife.label" = ""
  /\ DefInjected.resolve existing [] [] "Knife.label" <> "TODO"
  /\ In (LiveElement "Knife.label" "")
        (fst (DefInjected.save_def_type (DefInjected.mkRun false [] [])
                "ThingDef" [mkEntry "Knife.label" "Knife"] "Knives.xml" old Missing)).
Proof.
  intros old existing. repeat split.
  - discriminate.
  - in_list.
Qed.

(** C3, amended. Let the old value of a fresh key be absent, empty or the
    placeholder.  In the DefInjected writer the value written is the local
    archive value of the key if there is one; else the global archive value;
    else, for a key that ends with one of the four suffixes [.baseDesc],
    [.description], [.title], [.label] and holds that text nowhere else, the
    global archive value of the key with the suffix replaced by its synonym;
    and when none of these exists and the old value was absent or the
    placeholder, the placeholder.  In the Keyed writer there are no
    synonyms and the local archive is consulted for the keys of the global
    archive only: for such a key the local value comes first, then the
    global one; for another key an absent or placeholder value stays the
    placeholder.  With the local file among the files of the global
    archive, as the program loads them, the local value always comes
    first. *)
Theorem fallback_order (existing local_tr archive : Dict.t string) (k : string) :
  let start := Dict.get_default k "TODO" existing in
  start = "TODO" \/ start = "" ->
  (forall v, Dict.get k local_tr = Some v ->
             DefInjected.resolve existing local_tr archive k = v)
  /\ (forall v, Dict.get k local_tr = None -> Dict.get k archive = Some v ->
                DefInjected.resolve existing local_tr archive k = v)
  /\ (forall old new p v,
        In (old, new) DefInjected.synonyms ->
        k = p ++ old -> only_final old p = true ->
        Dict.get k local_tr = None -> Dict.get k archive = None ->
        Dict.get (p ++ new) archive = Some v ->
        DefInjected.resolve existing local_tr archive k = v)
  /\ (start = "TODO" ->
      Dict.get k local_tr = None -> Dict.get k archive = None ->
      (forall old new, In (old, new) DefInjected.synonyms ->
                       DefInjected.synonym archive old new k = None) ->
      DefInjected.resolve existing local_tr archive k = "TODO")
  /\ (forall v, Dict.mem k archive = true -> Dict.get k local_tr = Some v ->
                Keyed.resolve existing local_tr archive k = v)
  /\ (forall v, Dict.get k local_tr = None -> Dict.get k archive = Some v ->
                Keyed.resolve existing local_tr archive k = v)
  /\ (start = "TODO" -> Dict.get k archive = None ->
      Keyed.resolve existing local_tr archive k = "TODO")
  /\ (forall files local_file v,
        In local_file files ->
        local_tr = load_single_xml_translations local_file ->
        archive = load_archive_translations (Some files) ->
        Dict.get k local_tr = Some v ->
        Keyed.resolve existing local_tr archive k = v).
Proof.
  intros start Hstart.
  assert (Hcond : ((start =? "TODO") || (start =? "")) = true).
  { destruct Hstart as [->| ->]; reflexivity. }
  assert (HD : DefInjected.resolve existing local_tr archive k
               = match DefInjected.lookup local_tr archive k with
                 | Some v => v
                 | None => start
                 end).
  { rewrite DefInjectedFacts.resolve_lookup. cbv zeta. fold start. now rewrite Hcond. }
  assert (HK : Keyed.resolve existing local_tr archive k
               = if Dict.mem k archive
                 then match Dict.get k local_tr with
                      | Some v => v
                      | None => Dict.get_default k "" archive
                      end
                 else start).
  { unfold Keyed.resolve. fold start. rewrite Hcond. reflexivity. }
  repeat split.
  - intros v Hl. rewrite HD. unfold DefInjected.lookup. now rewrite Hl.
  - intros v Hl Ha. rewrite HD. unfold DefInjected.lookup. now rewrite Hl, Ha.
  - intros old new p v Hin -> Hf Hl Ha Hv. rewrite HD.
    now rewrite (lookup_synonym local_tr archive old new p v).
  - intros Ht Hl Ha Hs. rewrite HD, lookup_none by assumption. exact Ht.
  - intros v Hm Hl. rewrite HK, Hm, Hl. reflexivity.
  - intros v Hl Ha. rewrite HK. unfold Dict.mem, Dict.get_default.
    now rewrite Ha, Hl.
  - intros Ht Ha. rewrite HK. unfold Dict.mem. now rewrite Ha.
  - intros files local_file v Hin El Ea Hl.
    assert (Hm : Dict.mem k archive = true).
    { subst local_tr archive.
      pose proof (local_keys_in_archive files local_file k Hin
                    (DictFacts.get_some_in_keys _ _ _ Hl)) as Hk.
      apply DictFacts.in_keys_get in Hk as (v' & Hk).
      unfold Dict.mem. now rewrite Hk. }
    rewrite HK, Hm, Hl. reflexivity.
Qed.

Lemma fallback_order_witness :
  DefInjected.resolve [("Pawn.description", "TODO")] []
    [("Pawn.baseDesc", "Un colono.")] "Pawn.description" = "Un colono."
  /\ Keyed.resolve [] [("Greeting", "Hola")] [("Greeting", "Buenas")] "Greeting"
     = "Hola".
Proof.
  split.
  - refine (proj1 (proj2 (proj2
              (fallback_order [("Pawn.description", "TODO")] []
                 [("Pawn.baseDesc", "Un colono.")] "Pawn.description" _)))
              ".description" ".baseDesc" "Pawn" "Un colono." _ eq_refl eq_refl
              eq_refl eq_refl eq_refl).
    + now left.
    + right. now left.
  - refine (proj1 (proj2 (proj2 (proj2 (proj2
              (fallback_order [] [("Greeting", "Hola")] [("Greeting", "Buenas")]
                 "Greeting" _)))))
              "Hola" eq_refl eq_refl).
    now left.
Defined.

End FallbackFacts.

(** * Running the extraction again *)

Module RerunFacts.

Import Text Output Archive TextFacts OutputFacts LoaderFacts.

Lemma get_default_other (d : Dict.t string) k s :
  Dict.get_default k "TODO" d = s -> s <> "TODO" -> Dict.get k d = Some s.
Proof.
  unfold Dict.get_default. destruct (Dict.get k d); intros; congruence.
Qed.

Lemma get_default_empty (d : Dict.t string) k :
  Dict.get_default k "TODO" d = "" -> Dict.get k d = Some "".
Proof. intro H. apply get_default_other; [exact H|discriminate]. Qed.

(** The readers of the old output keep no element without a tag. *)
Lemma existing_keys_truthy
    (read : Dict.t string -> string * option string -> Dict.t string)
    (f : string -> string) :
  (forall d t x, read d (t, x) =
                 match x with
                 | Some raw => if truthy t && truthy raw then Dict.set t (f raw) d else d
                 | None => d
                 end) ->
  forall cs, Dict.get "" (fold_left read cs []) = None.
Proof.
  intro Hread.
  assert (H : forall cs d, Dict.get "" d = None -> Dict.get "" (fold_left read cs d) = None).
  { induction cs as [|[t x] cs IH]; intros d Hd; [exact Hd|].
    cbn [fold_left]. apply IH. rewrite Hread.
    destruct x as [raw|]; [|exact Hd].
    destruct (truthy t && truthy raw) eqn:E; [|exact Hd].
    apply andb_true_iff in E as [E _]. apply truthy_true in E.
    now rewrite DictFacts.get_set_other. }
  intro cs. now apply H.
Qed.

Lemma definjected_existing_keys f k v :
  Dict.get k (DefInjected.load_existing f) = Some v -> k <> "".
Proof.
  intros H ->. destruct f as [| |cs]; try discriminate.
  cbn [DefInjected.load_existing] in H.
  rewrite (existing_keys_truthy DefInjected.read_child strip) in H; [discriminate|].
  reflexivity.
Qed.

Lemma keyed_existing_keys f k v :
  Dict.get k (Keyed.load_existing f) = Some v -> k <> "".
Proof.
  intros H ->. destruct f as [| |cs]; try discriminate.
  cbn [Keyed.load_existing] in H.
  rewrite (existing_keys_truthy Keyed.read_child (fun raw => raw)) in H;
    [discriminate|].
  reflexivity.
Qed.

Lemma lookup_trimmed local_tr archive k a :
  all_values (fun v => strip v = v) local_tr ->
  all_values (fun v => strip v = v) archive ->
  DefInjected.lookup local_tr archive k = Some a -> strip a = a.
Proof.
  intros HL HA. unfold DefInjected.lookup, DefInjected.synonym.
  destruct (Dict.get k local_tr) eqn:E1; [intro H; injection H as <-; eauto|].
  destruct (Dict.get k archive) eqn:E2; [intro H; injection H as <-; eauto|].
  repeat match goal with
         | |- context [if ?c then Dict.get ?x archive else None] =>
             destruct (if c then Dict.get x archive else None) eqn:?;
             [ intro H; injection H as <-;
               match goal with
               | Hs : (if ?c' then _ else None) = Some _ |- _ =>
                   destruct c'; [eauto|discriminate]
               end
             | ]
         end.
  discriminate.
Qed.

Lemma archived_trimmed d :
  all_values archived d -> all_values (fun v => strip v = v) d.
Proof. intros H k v Hk. exact (proj1 (H k v Hk)). Qed.

(** The value resolved against the output read back is the value that was
    written. *)
Lemma definjected_resolve_again existing local_tr archive ks k :
  all_values (fun v => strip v = v) existing ->
  (forall k' v', Dict.get k' existing = Some v' -> k' <> "") ->
  (forall k', Dict.get k' existing <> Some "") ->
  all_values (fun v => strip v = v) local_tr ->
  all_values (fun v => strip v = v) archive ->
  In k ks ->
  let r := DefInjected.resolve existing local_tr archive in
  let again :=
    DefInjected.load_existing
      (Parsed (map (fun k => (k, if r k =? "" then None else Some (r k))) ks)) in
  DefInjected.resolve again local_tr archive k = r k.
Proof.
  intros HE Hkeys Hblank HL HA Hin r again.
  assert (Hstart : Dict.get_default k "TODO" again
                   = if truthy k && truthy (r k) then strip (r k) else "TODO").
  { unfold again, Dict.get_default.
    rewrite definjected_read_elements, get_fold_set.
    apply set_mem_true in Hin.
    destruct (truthy k && truthy (r k)); [now rewrite Hin|reflexivity]. }
  rewrite DefInjectedFacts.resolve_lookup. cbv zeta. rewrite Hstart.
  unfold r at 4. rewrite DefInjectedFacts.resolve_lookup. cbv zeta.
  assert (Hr : r k = let start := Dict.get_default k "TODO" existing in
                     if (start =? "TODO") || (start =? "")
                     then match DefInjected.lookup local_tr archive k with
                          | Some v => v
                          | None => start
                          end
                     else start)
    by apply DefInjectedFacts.resolve_lookup.
  cbv zeta in Hr. rewrite Hr. clear Hr Hstart.
  set (start := Dict.get_default k "TODO" existing).
  destruct ((start =? "TODO") || (start =? "")) eqn:Ec.
  - destruct (DefInjected.lookup local_tr archive k) as [a|] eqn:El.
    + rewrite (lookup_trimmed _ _ _ _ HL HA El).
      destruct (truthy k && truthy a); [|reflexivity].
      destruct ((a =? "TODO") || (a =? "")); reflexivity.
    + assert (Es : start = "TODO").
      { apply orb_true_iff in Ec as [Ec|Ec]; apply String.eqb_eq in Ec; [exact Ec|].
        exfalso. apply (Hblank k). now apply get_default_empty. }
      rewrite Es. destruct (truthy k && truthy "TODO"); reflexivity.
  - apply orb_false_iff in Ec as [Et Ee].
    apply String.eqb_neq in Et, Ee.
    assert (Hget : Dict.get k existing = Some start) by now apply get_default_other.
    assert (Hk : truthy k = true) by (apply truthy_true; eauto).
    assert (Hs : truthy start = true) by now apply truthy_true.
    rewrite Hk, Hs, (HE k start Hget). cbn [andb].
    apply String.eqb_neq in Et, Ee. now rewrite Et, Ee.
Qed.

Lemma keyed_resolve_again existing local_tr archive ks k :
  all_values (fun v => v <> "") existing ->
  (forall k' v', Dict.get k' existing = Some v' -> k' <> "") ->
  In k ks ->
  let r := Keyed.resolve existing local_tr archive in
  let again :=
    Keyed.load_existing
      (Parsed (map (fun k => (k, if r k =? "" then None else Some (r k))) ks)) in
  Keyed.resolve again local_tr archive k = r k.
Proof.
  intros HE Hkeys Hin r again.
  assert (Hstart : Dict.get_default k "TODO" again
                   = if truthy k && truthy (r k) then r k else "TODO").
  { unfold again, Dict.get_default.
    rewrite keyed_read_elements, get_fold_set.
    apply set_mem_true in Hin.
    destruct (truthy k && truthy (r k)); [now rewrite Hin|reflexivity]. }
  unfold Keyed.resolve at 1. rewrite Hstart.
  unfold r, Keyed.resolve.
  set (start := Dict.get_default k "TODO" existing).
  set (hit := match Dict.get k local_tr with
              | Some v => v
              | None => Dict.get_default k "" archive
              end).
  destruct ((start =? "TODO") || (start =? "")) eqn:Ec.
  - destruct (Dict.mem k archive) eqn:Em; cbn [andb].
    + destruct (truthy k && truthy hit); cbn [String.eqb orb andb];
        [|reflexivity].
      destruct ((hit =? "TODO") || (hit =? "")); reflexivity.
    + assert (Es : start = "TODO").
      { apply orb_true_iff in Ec as [Ec|Ec]; apply String.eqb_eq in Ec; [exact Ec|].
        exfalso. apply get_default_empty in Ec. exact (HE k "" Ec eq_refl). }
      rewrite Es. rewrite andb_false_r.
      destruct (truthy k && truthy "TODO"); reflexivity.
  - cbn [andb]. apply orb_false_iff in Ec as [Et Ee].
    apply String.eqb_neq in Et, Ee.
    assert (Hget : Dict.get k existing = Some start) by now apply get_default_other.
    assert (Hk : truthy k = true) by (apply truthy_true; eauto).
    assert (Hs : truthy start = true) by now apply truthy_true.
    rewrite Hk, Hs. cbn [andb].
    apply String.eqb_neq in Et, Ee. now rewrite Et, Ee.
Qed.

Lemma keyed_write_ext e1 e0 local_tr archive entries :
  (forall k, In k (map key entries) ->
             Keyed.resolve e1 local_tr archive k = Keyed.resolve e0 local_tr archive k) ->
  flat_map (Keyed.write_entry e1 local_tr archive) entries
  = flat_map (Keyed.write_entry e0 local_tr archive) entries.
Proof.
  induction entries as [|e es IH]; intro H; [reflexivity|].
  cbn [flat_map]. rewrite IH by (intros k Hk; apply H; now right).
  unfold Keyed.write_entry. rewrite (H (key e)) by now left. reflexivity.
Qed.

(** C2, as stated, fails: the disabled records of a first run are comments
    of its output, which the second run does not read; the second output has
    no unused section and differs from the first, whether or not the parser
    takes the first output. *)
Lemma rerun_counterexample :
  let run := DefInjected.mkRun false [] [] in
  let entries := [mkEntry "Knife.label" "Knife"] in
  let old := Parsed [("Knife.label", Some "Cuchillo"); ("Spoon.label", Some "Cuchara")] in
  let first :=
    fst (DefInjected.save_def_type run "ThingDef" entries "Knives.xml" old Missing) in
  let second := fun reread =>
    fst (DefInjected.save_def_type run "ThingDef" entries "Knives.xml" reread Missing) in
  In (Raw (disabled_line "Spoon.label" "Cuchara")) first
  /\ (exists reread,
        read_back true first = Some reread
        /\ ~ In (Raw (disabled_line "Spoon.label" "Cuchara")) (second reread)
        /\ content (second reread) <> content first)
  /\ (exists reread,
        read_back false first = Some reread
        /\ content (second reread) <> content first).
Proof.
  intros run entries old first second. repeat split.
  - in_list.
  - eexists. split; [reflexivity|]. split.
    + not_in_list.
    + intro H. vm_compute in H. discriminate.
  - eexists. split; [reflexivity|].
    intro H. vm_compute in H. discriminate.
Qed.

(** A value with a carriage return is written as it is and read back with
    a line feed: the second run writes the line feed, and its output differs
    from the first, without any orphan. *)
Lemma rerun_carriage_return :
  let value := "uno" ++ String cr "dos" in
  let archive := load_archive_translations (Some [Parsed [("Knife.label", Some value)]]) in
  let entries := [mkEntry "Knife.label" "Knife"] in
  let first := fst (Keyed.save_keyed_translations archive entries "Knives.xml"
                      Missing Missing) in
  In (LiveElement "Knife.label" value) first
  /\ exists reread,
       read_back true first = Some reread
       /\ reread = Parsed [("Knife.label", Some ("uno" ++ String lf "dos"))]
       /\ content (fst (Keyed.save_keyed_translations archive entries "Knives.xml"
                          reread Missing))
          <> content first.
Proof.
  intros value archive entries first. split; [in_list|].
  eexists. split; [reflexivity|]. split; [reflexivity|].
  intro H. vm_compute in H. discriminate.
Qed.

Lemma resolve_trimmed existing local_tr archive k :
  all_values (fun v => strip v = v) existing ->
  all_values (fun v => strip v = v) local_tr ->
  all_values (fun v => strip v = v) archive ->
  strip (DefInjected.resolve existing local_tr archive k)
  = DefInjected.resolve existing local_tr archive k.
Proof.
  intros HE HL HA. rewrite DefInjectedFacts.resolve_lookup. cbv zeta.
  assert (Hstart : strip (Dict.get_default k "TODO" existing)
                   = Dict.get_default k "TODO" existing).
  { unfold Dict.get_default. destruct (Dict.get k existing) eqn:E; [eauto|reflexivity]. }
  destruct ((_ =? "TODO") || (_ =? "")); [|exact Hstart].
  destruct (DefInjected.lookup local_tr archive k) eqn:El; [|exact Hstart].
  exact (lookup_trimmed _ _ _ _ HL HA El).
Qed.

(** Elements read back with the values as they were written. *)
Lemma read_values_kept (r : string -> string) (ks : list string) :
  (forall k, In k ks -> line_ends (r k) = r k) ->
  map (fun k => (k, if line_ends (r k) =? "" then None else Some (line_ends (r k)))) ks
  = map (fun k => (k, if r k =? "" then None else Some (r k))) ks.
Proof.
  intro H. apply map_ext_in. intros k Hk. now rewrite (H k Hk).
Qed.

(** The second run of the DefInjected writer, on the output of the first. *)
Lemma definjected_rerun (run : DefInjected.Run) (files : option (list FileState))
    (def_type : string) (entries : list Entry) (original_filename : string)
    (output_file local_file reread : FileState) :
  DefInjected.global_archive_translations run = load_archive_translations files ->
  let first :=
    fst (DefInjected.save_def_type run def_type entries original_filename
           output_file local_file) in
  (forall k, In k (Dict.keys (DefInjected.load_existing output_file)) ->
             In k (map DefInjected.p_key
                     (DefInjected.prepare (DefInjected.recover_option run) def_type
                        (DefInjected.global_archive_translations run)
                        (DefInjected.english_translations run) entries))) ->
  (forall k, Dict.get k (DefInjected.load_existing output_file) <> Some "") ->
  read_back true first = Some reread ->
  (forall k v, In (LiveElement k v) first -> line_ends v = v) ->
  fst (DefInjected.save_def_type run def_type entries original_filename
         reread local_file)
  = first.
Proof.
  intros Harch first Horphan Hblank Hread Hcr.
  unfold read_back in Hread.
  destruct (read_as_written first); [|discriminate]. injection Hread as <-.
  unfold first in *. clear first.
  unfold DefInjected.save_def_type in *. cbn [fst] in *.
  set (existing := DefInjected.load_existing output_file) in *.
  set (local_tr := load_single_xml_translations local_file) in *.
  set (archive := DefInjected.global_archive_translations run) in *.
  set (prepared := DefInjected.prepare _ _ _ _ _) in *.
  rewrite DefInjectedFacts.read_back_document.
  rewrite read_values_kept.
  2:{ intros k Hk. apply (Hcr k). now apply DefInjectedFacts.live_in_document. }
  set (again := DefInjected.load_existing _).
  assert (Hsame : forall k, In k (map DefInjected.p_key prepared) ->
                            DefInjected.resolve again local_tr archive k
                            = DefInjected.resolve existing local_tr archive k).
  { intros k Hk. unfold again.
    apply definjected_resolve_again; auto.
    - apply definjected_existing_values.
    - intros k' v'. apply definjected_existing_keys.
    - apply archived_trimmed, load_single_archived.
    - rewrite Harch. apply archived_trimmed, load_archive_archived. }
  unfold DefInjected.document.
  rewrite (DefInjectedFacts.write_entries_ext again existing local_tr archive
             prepared Hsame None []).
  destruct (DefInjected.write_entries existing local_tr archive prepared None [])
    as [ws used] eqn:Ew.
  assert (Hused : forall k, In k used <-> In k (map DefInjected.p_key prepared)).
  { intro k.
    pose proof (DefInjectedFacts.write_entries_snd existing local_tr archive
                  prepared None [] k) as H.
    rewrite Ew in H. cbn [snd In] in H. tauto. }
  rewrite (unused_section_none existing used)
    by (intros k Hk; apply Hused, Horphan, Hk).
  rewrite (unused_section_none again used); [reflexivity|].
  intros k Hk. apply Hused. unfold again in Hk.
  rewrite definjected_read_elements in Hk.
  apply keys_fold_set in Hk as [Hk|[]]. exact Hk.
Qed.

(** The second run of the Keyed writer, on the output of the first. *)
Lemma keyed_rerun (archive : Dict.t string) (entries : list Entry)
    (original_filename : string) (output_file local_file reread : FileState) :
  let first :=
    fst (Keyed.save_keyed_translations archive entries original_filename
           output_file local_file) in
  (forall k, In k (Dict.keys (Keyed.load_existing output_file)) ->
             In k (map key entries)) ->
  read_back true first = Some reread ->
  (forall k v, In (LiveElement k v) first -> line_ends v = v) ->
  fst (Keyed.save_keyed_translations archive entries original_filename
         reread local_file)
  = first.
Proof.
  intros first Horphan Hread Hcr.
  unfold read_back in Hread.
  destruct (read_as_written first); [|discriminate]. injection Hread as <-.
  unfold first in *. clear first.
  unfold Keyed.save_keyed_translations in *. cbn [fst] in *.
  set (existing := Keyed.load_existing output_file) in *.
  set (local_tr := load_single_xml_translations local_file) in *.
  rewrite KeyedFacts.keyed_read_back_document. cbv zeta.
  rewrite <- (map_map key
                (fun k => (k, if line_ends (Keyed.resolve existing local_tr archive k) =? ""
                              then None
                              else Some (line_ends
                                           (Keyed.resolve existing local_tr archive k))))).
  rewrite read_values_kept.
  2:{ intros k Hk. apply (Hcr k). now apply KeyedFacts.keyed_live_in_document. }
  set (again := Keyed.load_existing _).
  assert (Hsame : forall k, In k (map key entries) ->
                            Keyed.resolve again local_tr archive k
                            = Keyed.resolve existing local_tr archive k).
  { intros k Hk. unfold again.
    apply keyed_resolve_again; auto.
    - apply keyed_existing_values.
    - intros k' v'. apply keyed_existing_keys. }
  rewrite !KeyedFacts.keyed_document_shape.
  rewrite (keyed_write_ext again existing local_tr archive entries Hsame).
  rewrite (unused_section_none existing).
  2:{ intros k Hk. apply KeyedFacts.keyed_entries_snd. left. now apply Horphan. }
  rewrite (unused_section_none again); [reflexivity|].
  intros k Hk. apply KeyedFacts.keyed_entries_snd. left.
  unfold again in Hk. rewrite keyed_read_elements in Hk.
  apply keys_fold_set in Hk as [Hk|[]]. exact Hk.
Qed.

(** C2, amended. Let a second run find the output of the first, with the
    same source entries and archives, the archive index being the one the
    loader builds.  It writes the same bytes when the output the first run
    found had no key outside the entries written and, for DefInjected, no
    text that is empty once trimmed (in particular when it found no output),
    and the second run reads the first output back as it was written: the
    parser takes it, its chunks tell what the parser finds (every comment
    is closed where the writer closes it, every key is a plain element
    name), and no value written holds a carriage return. *)
Theorem rerun_idempotent (run : DefInjected.Run) (files : option (list FileState))
    (def_type : string) (entries : list Entry) (original_filename : string)
    (output_file local_file reread : FileState) :
  (DefInjected.global_archive_translations run = load_archive_translations files ->
   let definjected := fun old =>
     fst (DefInjected.save_def_type run def_type entries original_filename
            old local_file) in
   let written :=
     map DefInjected.p_key
       (DefInjected.prepare (DefInjected.recover_option run) def_type
          (DefInjected.global_archive_translations run)
          (DefInjected.english_translations run) entries) in
   (forall k, In k (Dict.keys (DefInjected.load_existing output_file)) ->
              In k written) ->
   (forall k, Dict.get k (DefInjected.load_existing output_file) <> Some "") ->
   read_back true (definjected output_file) = Some reread ->
   (forall k v, In (LiveElement k v) (definjected output_file) -> line_ends v = v) ->
   content (definjected reread) = content (definjected output_file))
  /\
  (let keyed := fun old =>
     fst (Keyed.save_keyed_translations (DefInjected.global_archive_translations run)
            entries original_filename old local_file) in
   (forall k, In k (Dict.keys (Keyed.load_existing output_file)) ->
              In k (map key entries)) ->
   read_back true (keyed output_file) = Some reread ->
   (forall k v, In (LiveElement k v) (keyed output_file) -> line_ends v = v) ->
   content (keyed reread) = content (keyed output_file)).
Proof.
  split.
  - intros Harch definjected written Horphan Hblank Hread Hcr. unfold definjected.
    now rewrite (definjected_rerun run files def_type entries original_filename
                   output_file local_file reread Harch Horphan Hblank Hread Hcr).
  - intros keyed Horphan Hread Hcr. unfold keyed.
    now rewrite (keyed_rerun _ entries original_filename output_file local_file
                   reread Horphan Hread Hcr).
Qed.

Lemma rerun_idempotent_witness :
  let files := Some [Parsed [("Knife.description", Some " Un cuchillo <afilado>. ")]] in
  let run := DefInjected.mkRun false (load_archive_translations files) [] in
  let entries := [mkEntry "Knife.label" "Knife"; mkEntry "Knife.description" "A knife."] in
  let definjected := fun old =>
    fst (DefInjected.save_def_type run "ThingDef" entries "Knives.xml" old Missing) in
  let reread :=
    Parsed [("Knife.label", Some "TODO");
            ("Knife.description", Some "Un cuchillo <afilado>.")] in
  read_back true (definjected Missing) = Some reread
  /\ content (definjected reread) = content (definjected Missing).
Proof.
  intros files run entries definjected reread.
  split; [reflexivity|].
  refine (proj1 (rerun_idempotent run files "ThingDef" entries "Knives.xml"
                   Missing Missing reread) eq_refl _ _ eq_refl _).
  - intros k [].
  - intros k. discriminate.
  - intros k v H. vm_compute in H.
    repeat (destruct H as [H|H];
            [try discriminate; injection H as <- <-; reflexivity|]).
    destruct H.
Defined.

End RerunFacts.

(** * More on the key-path deriver *)

Module DeriverMore.

Import Text Deriver Items TextFacts DeriverFacts.

(** X1. The walk only appends: the results it is given come back
    unchanged at the front, and what it adds does not depend on them. *)
Theorem extract_recursive_appends (tl : TagLists) (node : Element)
    (path : string) (results : list Entry) :
  extract_recursive tl node path results
  = (results ++ extract_recursive tl node path [])%list.
Proof.
  rewrite (extract_recursive_by_parts tl node path results).
  now rewrite (extract_recursive_by_parts tl node path []).
Qed.

Lemma emit_value tl b t np child e :
  In e (emit tl b t np child []) ->
  value e <> "" /\ strip (value e) = value e.
Proof.
  unfold emit. destruct (leaf_with_text child) eqn:El; [|intros []].
  destruct (any_in_tag (blacklisted_tags tl) t); [intros []|].
  destruct (any_in_tag (translatable_tags tl) t || b); [|intros []].
  intros [<-|[]]. cbn [value].
  unfold leaf_with_text in El. unfold text_or_empty.
  destruct (text child) as [x|]; [|discriminate].
  apply andb_true_iff in El as [El _]. apply andb_true_iff in El as [_ El].
  split; [now apply truthy_true|apply strip_idem].
Qed.

Lemma extract_recursive_values tl node :
  forall path e,
    In e (extract_recursive tl node path []) ->
    value e <> "" /\ strip (value e) = value e.
Proof.
  induction node as [nt x cs IH] using Element_tree_ind. intros path e.
  rewrite extract_recursive_by_parts. cbn [app children tag].
  intro H. apply in_flat_map in H as ([c part] & Hin & He).
  cbn [fst snd] in He.
  assert (Hc : In c cs) by (now apply in_combine_l in Hin).
  rewrite Forall_forall in IH. specialize (IH c Hc).
  unfold child_entries in He.
  destruct part as [p|]; [|destruct He].
  destruct (tag c) as [t|]; [|destruct He].
  apply in_app_or in He as [He|He].
  - exact (emit_value _ _ _ _ _ _ He).
  - exact (IH _ _ He).
Qed.

(** X2. Every entry the walk adds has a key that extends the path it
    started from with a dot, and a value that is trimmed and not empty. *)
Theorem extracted_entry_shape (tl : TagLists) (node : Element) (path : string)
    (results : list Entry) (e : Entry) :
  In e (extract_recursive tl node path results) ->
  In e results
  \/ ((exists rest, key e = path ++ "." ++ rest)
      /\ value e <> "" /\ strip (value e) = value e).
Proof.
  rewrite extract_recursive_by_parts, in_app_iff.
  rewrite <- (app_nil_l (flat_map _ _)), <- extract_recursive_by_parts.
  intros [H|H]; [now left|right]. split.
  - exact (extract_recursive_keys tl node path e H).
  - exact (extract_recursive_values tl node path e H).
Qed.

Lemma extracted_entry_shape_witness :
  let leaf := fun t x => Elem (Some t) (Some x) [] in
  let node := Elem (Some "ThingDef") None [leaf "defName" "Knife"; leaf "label" "  steel knife "] in
  let e := mkEntry "Knife.label" "steel knife" in
  (exists rest, key e = "Knife" ++ "." ++ rest)
  /\ value e <> "" /\ strip (value e) = value e.
Proof.
  intros leaf node e.
  destruct (extracted_entry_shape (mkTagLists ["label"] []) node "Knife" [] e)
    as [[]|H].
  - now left.
  - exact H.
Defined.

(** *** List items without a name *)

Lemma count_li_cons c cs :
  count_li (c :: cs) = (if tag_is "li" c then 1 else 0) + count_li cs.
Proof. unfold count_li. cbn [filter]. now destruct (tag_is "li" c). Qed.

Lemma advance_li_index counts names i ni li c :
  snd (advance counts names i ni li c)
  = li + (if tag_is "li" c then 1 else 0).
Proof.
  unfold advance, tag_is, choose_part. destruct (tag c) as [t|]; cbn [snd]; [|lia].
  destruct (t =? "defName") eqn:Ed.
  - apply String.eqb_eq in Ed. subst t. cbn. lia.
  - destruct (t =? "li"); [|cbn [snd]; lia].
    destruct (nth i names None) as [name|]; [|reflexivity].
    destruct (truthy name); [|reflexivity].
    destruct (Nat.ltb 1 _); reflexivity.
Qed.

Lemma advance_nameless all pre c rest ni li :
  all = (pre ++ c :: rest)%list ->
  tag c = Some "li" -> display_name c = None ->
  fst (fst (advance (fst (prescan all)) (snd (prescan all)) (List.length pre) ni li c))
  = Some (str_of_nat li).
Proof.
  intros E Ht Hd. unfold advance, choose_part. rewrite Ht.
  change ("li" =? "defName") with false. change ("li" =? "li") with true.
  cbv iota. rewrite (slot_at all pre c rest E).
  unfold display_name, name_slot, tag_is in *. rewrite Ht in *.
  change ("li" =? "li") with true in *. cbv iota in *.
  destruct (get_li_name c) as [name|]; [|reflexivity].
  destruct (truthy name); [discriminate|reflexivity].
Qed.

Lemma parts_from_nameless all cs :
  forall pre ni li k c,
    all = (pre ++ cs)%list ->
    nth_error cs k = Some c -> tag c = Some "li" -> display_name c = None ->
    nth_error (parts_from (fst (prescan all)) (snd (prescan all))
                 (List.length pre) ni li cs) k
    = Some (Some (str_of_nat (li + count_li (firstn k cs)))).
Proof.
  induction cs as [|c0 rest IH]; intros pre ni li k c E Hk Ht Hd.
  - destruct k; discriminate.
  - cbn [parts_from].
    pose proof (advance_li_index (fst (prescan all)) (snd (prescan all))
                  (List.length pre) ni li c0) as Hli.
    pose proof (advance_nameless all pre c0 rest ni li E) as Hpart.
    destruct (advance _ _ (List.length pre) ni li c0) as [[part ni'] li'].
    cbn [fst snd] in Hli, Hpart.
    destruct k as [|k].
    + cbn [nth_error] in Hk. injection Hk as ->.
      cbn [nth_error firstn]. rewrite (Hpart Ht Hd).
      change (count_li []) with 0. now rewrite Nat.add_0_r.
    + cbn [nth_error] in Hk. cbn [nth_error firstn].
      replace (List.length pre + 1) with (List.length (pre ++ [c0])%list)
        by (rewrite length_app; reflexivity).
      rewrite (IH (pre ++ [c0])%list ni' li' k c); auto.
      * rewrite count_li_cons, Hli. do 3 f_equal. lia.
      * now rewrite <- app_assoc.
Qed.

Lemma count_li_firstn_lt cs i j ci :
  i < j -> nth_error cs i = Some ci -> tag_is "li" ci = true ->
  count_li (firstn i cs) < count_li (firstn j cs).
Proof.
  revert i j. induction cs as [|c cs IH]; intros i j Hij Hi Hn.
  - destruct i; discriminate.
  - destruct j as [|j]; [lia|]. destruct i as [|i].
    + cbn [nth_error] in Hi. injection Hi as ->.
      cbn [firstn]. rewrite count_li_cons, Hn.
      change (count_li []) with 0. lia.
    + cbn [nth_error] in Hi. cbn [firstn]. rewrite !count_li_cons.
      specialize (IH i j ltac:(lia) Hi Hn). lia.
Qed.

(** X3. A list item without a display name (no [customLabel] and no [def]
    with text) gets as its path component the number of list items before
    it among its siblings, named ones included; two such items of one parent
    never get the same component. *)
Theorem positional_component (node : Element) (i j : nat) (ci cj : Element) :
  i < j ->
  nth_error (children node) i = Some ci ->
  nth_error (children node) j = Some cj ->
  tag ci = Some "li" -> display_name ci = None ->
  tag cj = Some "li" -> display_name cj = None ->
  let a := count_li (firstn i (children node)) in
  let b := count_li (firstn j (children node)) in
  nth_error (sibling_parts node) i = Some (Some (str_of_nat a))
  /\ nth_error (sibling_parts node) j = Some (Some (str_of_nat b))
  /\ str_of_nat a <> str_of_nat b.
Proof.
  intros Hij Hi Hj Hti Hdi Htj Hdj a b.
  rewrite sibling_parts_unfold. repeat split.
  - exact (parts_from_nameless (children node) (children node) [] [] 0 i ci
             eq_refl Hi Hti Hdi).
  - exact (parts_from_nameless (children node) (children node) [] [] 0 j cj
             eq_refl Hj Htj Hdj).
  - intro E. apply str_of_nat_inj in E.
    assert (Hli : tag_is "li" ci = true) by (unfold tag_is; now rewrite Hti).
    pose proof (count_li_firstn_lt (children node) i j ci Hij Hi Hli).
    unfold a, b in E. lia.
Qed.

Lemma positional_component_witness :
  let leaf := fun t x => Elem (Some t) (Some x) [] in
  let named := Elem (Some "li") None [leaf "def" "Arm"] in
  let plain := Elem (Some "li") None [leaf "label" "arm"] in
  let node := Elem (Some "parts") None [plain; named; plain] in
  nth_error (sibling_parts node) 0 = Some (Some "0")
  /\ nth_error (sibling_parts node) 2 = Some (Some "2").
Proof.
  intros leaf named plain node.
  destruct (positional_component node 0 2 plain plain) as (H0 & H2 & _);
    try reflexivity.
  - lia.
  - split; [exact H0|exact H2].
Defined.

(** *** The items of a rule-strings list *)

Lemma plain_item_spec c :
  plain_item c = true ->
  tag c = Some "li" /\ children c = [] /\ leaf_with_text c = true.
Proof.
  unfold plain_item, tag_is. intro H. apply andb_true_iff in H as [Ht Hl].
  destruct (tag c) as [t|]; [|discriminate]. apply String.eqb_eq in Ht. subst t.
  repeat split; [|exact Hl].
  unfold leaf_with_text in Hl. destruct (text c); [|discriminate].
  apply andb_true_iff in Hl as [_ Hl]. apply Nat.eqb_eq in Hl.
  now destruct (children c).
Qed.

Lemma plain_item_nameless c : plain_item c = true -> display_name c = None.
Proof.
  intro H. destruct (plain_item_spec c H) as (Ht & Hc & _).
  unfold display_name, tag_is, get_li_name, found_text, find_child.
  rewrite Ht, Hc. reflexivity.
Qed.

Lemma parts_from_plain all cs :
  forall pre ni li,
    all = (pre ++ cs)%list -> forallb plain_item cs = true ->
    parts_from (fst (prescan all)) (snd (prescan all)) (List.length pre) ni li cs
    = map (fun k => Some (str_of_nat k)) (seq li (List.length cs)).
Proof.
  induction cs as [|c0 rest IH]; intros pre ni li E Hall; [reflexivity|].
  cbn [forallb] in Hall. apply andb_true_iff in Hall as [Hc0 Hrest].
  destruct (plain_item_spec c0 Hc0) as (Ht & _ & _).
  cbn [parts_from List.length seq map].
  pose proof (advance_li_index (fst (prescan all)) (snd (prescan all))
                (List.length pre) ni li c0) as Hli.
  pose proof (advance_nameless all pre c0 rest ni li E Ht
                (plain_item_nameless c0 Hc0)) as Hpart.
  destruct (advance _ _ (List.length pre) ni li c0) as [[part ni'] li'].
  cbn [fst snd] in Hli, Hpart. subst part.
  replace (List.length pre + 1) with (List.length (pre ++ [c0])%list)
    by (rewrite length_app; reflexivity).
  rewrite (IH (pre ++ [c0])%list ni' li') by (auto; now rewrite <- app_assoc).
  unfold tag_is in Hli. rewrite Ht in Hli. change ("li" =? "li") with true in Hli.
  rewrite Hli. now rewrite Nat.add_1_r.
Qed.

(** X4. In a [rulesStrings] node whose children are all list items
    without children and with a text that is not blank, every item is
    extracted, whatever the whitelist is, unless the blacklist matches
    [li]: the entries are the trimmed texts in order, under the keys
    [path.0], [path.1], and so on. *)
Theorem rules_strings_items (tl : TagLists) (x : option string)
    (cs : list Element) (path : string) :
  forallb plain_item cs = true ->
  any_in_tag (blacklisted_tags tl) "li" = false ->
  extract_recursive tl (Elem (Some "rulesStrings") x cs) path []
  = map (fun item : nat * Element =>
           mkEntry (path ++ "." ++ str_of_nat (fst item))
             (strip (text_or_empty (snd item))))
      (combine (seq 0 (List.length cs)) cs).
Proof.
  intros Hall Hblack.
  rewrite extract_recursive_by_parts. cbn [app children tag].
  rewrite sibling_parts_unfold. cbn [children].
  pose proof (parts_from_plain cs cs [] [] 0 eq_refl Hall) as Hp.
  cbn [List.length] in Hp. rewrite Hp. clear Hp.
  generalize 0 as n. revert Hall.
  induction cs as [|c cs IH]; intros Hall n; [reflexivity|].
  cbn [forallb] in Hall. apply andb_true_iff in Hall as [Hc Hcs].
  cbn [List.length seq map combine flat_map fst snd].
  rewrite (IH Hcs (S n)). f_equal.
  destruct (plain_item_spec c Hc) as (Ht & Hch & Hleaf).
  unfold child_entries. rewrite Ht.
  change ("rulesStrings" =? "rulesStrings") with true.
  change ("li" =? "li") with true. cbn [andb].
  unfold emit. rewrite Hleaf, Hblack, orb_true_r.
  destruct c as [ct cx ccs]. cbn [children] in Hch. subst ccs. reflexivity.
Qed.

Lemma rules_strings_items_witness :
  let item := fun x => Elem (Some "li") (Some x) [] in
  extract_recursive (mkTagLists [] ["texPath"])
    (Elem (Some "rulesStrings") None [item "r_name->Bob"; item " r_name->Al "])
    "Namer.rulePack.rulesStrings" []
  = [mkEntry "Namer.rulePack.rulesStrings.0" "r_name->Bob";
     mkEntry "Namer.rulePack.rulesStrings.1" "r_name->Al"].
Proof.
  intro item.
  exact (rules_strings_items (mkTagLists [] ["texPath"]) None
           [item "r_name->Bob"; item " r_name->Al "]
           "Namer.rulePack.rulesStrings" eq_refl eq_refl).
Defined.

End DeriverMore.

(** * From a source file to its entries *)

Module ProcessFileMore.

Import Text Deriver Items TextFacts DeriverFacts.

Lemma extract_recursive_in tl node path r e :
  In e (extract_recursive tl node path r) ->
  In e r \/ In e (extract_recursive tl node path []).
Proof.
  rewrite extract_recursive_by_parts, in_app_iff.
  now rewrite (extract_recursive_by_parts tl node path []).
Qed.

(** The step of the loop of [process_file] over the definitions. *)
Lemma translations_step_skip tl (acc : Dict.t (list Entry)) c :
  named_definition c = false ->
  match tag c with
  | None => acc
  | Some def_type =>
      match find_child "defName" c with
      | None => acc
      | Some def_name_node =>
          match text def_name_node with
          | Some def_name =>
              if truthy def_name then
                Dict.set def_type
                  (extract_recursive tl c def_name (Dict.get_default def_type [] acc))
                  acc
              else acc
          | None => acc
          end
      end
  end = acc.
Proof.
  unfold named_definition, found_text.
  destruct (tag c) as [t|]; [|reflexivity].
  destruct (find_child "defName" c) as [dn|]; [|reflexivity].
  unfold truthy_opt. destruct (text dn) as [name|]; [|reflexivity].
  destruct (truthy name); [discriminate|reflexivity].
Qed.

(** X5. Every entry filed under a definition type comes from a child of
    the root with that tag, and its key is the [defName] of that child
    followed by a dot and a path below it. *)
Theorem definition_keys (tl : TagLists) (xml_root : Element) (def_type : string)
    (entries : list Entry) (e : Entry) :
  Dict.get def_type (DefInjected.translations_by_type tl xml_root) = Some entries ->
  In e entries ->
  exists def_node def_name rest,
    In def_node (children xml_root)
    /\ tag def_node = Some def_type
    /\ found_text "defName" def_node = Some def_name
    /\ key e = def_name ++ "." ++ rest.
Proof.
  unfold DefInjected.translations_by_type.
  set (good := fun (acc : Dict.t (list Entry)) =>
         forall dt es e',
           Dict.get dt acc = Some es -> In e' es ->
           exists def_node def_name rest,
             In def_node (children xml_root)
             /\ tag def_node = Some dt
             /\ found_text "defName" def_node = Some def_name
             /\ key e' = def_name ++ "." ++ rest).
  assert (H : forall cs acc,
             (forall c, In c cs -> In c (children xml_root)) -> good acc ->
             good (fold_left
                     (fun (acc : Dict.t (list Entry)) (def_node : Element) =>
                        match tag def_node with
                        | None => acc
                        | Some def_type =>
                            match find_child "defName" def_node with
                            | None => acc
                            | Some def_name_node =>
                                match text def_name_node with
                                | Some def_name =>
                                    if truthy def_name then
                                      Dict.set def_type
                                        (extract_recursive tl def_node def_name
                                           (Dict.get_default def_type [] acc))
                                        acc
                                    else acc
                                | None => acc
                                end
                            end
                        end) cs acc)).
  { induction cs as [|c cs IH]; intros acc Hsub Hacc; [exact Hacc|].
    cbn [fold_left]. apply IH; [intros c' Hc'; apply Hsub; now right|].
    destruct (tag c) as [t|] eqn:Et; [|exact Hacc].
    destruct (find_child "defName" c) as [dn|] eqn:Ef; [|exact Hacc].
    destruct (text dn) as [name|] eqn:Ex; [|exact Hacc].
    destruct (truthy name) eqn:Etr; [|exact Hacc].
    intros dt es e' Hget Hin.
    destruct (string_dec t dt) as [->|Hne].
    - rewrite DictFacts.get_set_same in Hget. injection Hget as <-.
      apply extract_recursive_in in Hin as [Hin|Hin].
      + unfold Dict.get_default in Hin.
        destruct (Dict.get dt acc) as [es0|] eqn:E0; [|destruct Hin].
        exact (Hacc dt es0 e' E0 Hin).
      + apply extract_recursive_keys in Hin as (rest & Hk).
        exists c, name, rest. repeat split; auto.
        * apply Hsub. now left.
        * unfold found_text. rewrite Ef. unfold truthy_opt. now rewrite Ex, Etr.
    - rewrite DictFacts.get_set_other in Hget by exact Hne.
      exact (Hacc dt es e' Hget Hin). }
  intros Hget Hin.
  refine (H (children xml_root) [] (fun c Hc => Hc) _ def_type entries e Hget Hin).
  intros dt es e' Hd. discriminate.
Qed.

Lemma definition_keys_witness :
  let leaf := fun t x => Elem (Some t) (Some x) [] in
  let knife := Elem (Some "ThingDef") None [leaf "defName" "Knife"; leaf "label" "knife"] in
  let root := Elem (Some "Defs") None [knife] in
  exists def_node def_name rest,
    In def_node (children root)
    /\ tag def_node = Some "ThingDef"
    /\ found_text "defName" def_node = Some def_name
    /\ "Knife.label" = def_name ++ "." ++ rest.
Proof.
  intros leaf knife root.
  refine (definition_keys (mkTagLists ["label"] []) root "ThingDef"
            [mkEntry "Knife.label" "knife"] (mkEntry "Knife.label" "knife")
            eq_refl _).
  now left.
Defined.

(** X6. A child of the root without a [defName] that has a text (or with
    a tag that is not a string) is ignored: the dictionary of entries is the
    one of the root without such children. *)
Theorem unnamed_definitions_ignored (tl : TagLists) (t x : option string)
    (cs : list Element) :
  DefInjected.translations_by_type tl (Elem t x cs)
  = DefInjected.translations_by_type tl (Elem t x (filter named_definition cs)).
Proof.
  unfold DefInjected.translations_by_type. cbn [children].
  generalize (@nil (string * list Entry)).
  induction cs as [|c cs IH]; intro acc; [reflexivity|].
  cbn [fold_left filter]. destruct (named_definition c) eqn:E.
  - cbn [fold_left]. apply IH.
  - rewrite (translations_step_skip tl acc c E). apply IH.
Qed.

End ProcessFileMore.

(** * More on the archive index *)

Module ArchiveMore.

Import Text Archive Notions TextFacts LoaderFacts.

Lemma index_child_get d c k :
  Dict.get k (index_child d c)
  = match Dict.get k (index_child [] c) with
    | Some v => Some v
    | None => Dict.get k d
    end.
Proof.
  destruct c as [t [raw|]]; cbn [index_child]; [|reflexivity].
  destruct (truthy t && truthy raw); [|reflexivity].
  destruct (truthy (strip raw) && _); [|reflexivity].
  destruct (string_dec t k) as [->|Hne].
  - now rewrite !DictFacts.get_set_same.
  - now rewrite !DictFacts.get_set_other by exact Hne.
Qed.

Lemma index_children_get cs :
  forall d k,
    Dict.get k (fold_left index_child cs d)
    = match Dict.get k (fold_left index_child cs []) with
      | Some v => Some v
      | None => Dict.get k d
      end.
Proof.
  induction cs as [|c cs IH]; intros d k; [reflexivity|].
  cbn [fold_left]. rewrite (IH (index_child d c)), (IH (index_child [] c)).
  rewrite index_child_get.
  destruct (Dict.get k (fold_left index_child cs [])); [reflexivity|].
  now destruct (Dict.get k (index_child [] c)).
Qed.

Lemma index_file_get f d k :
  Dict.get k (index_file d f)
  = match Dict.get k (load_single_xml_translations f) with
    | Some v => Some v
    | None => Dict.get k d
    end.
Proof.
  unfold load_single_xml_translations.
  destruct f as [| |cs]; cbn [index_file]; try reflexivity.
  apply index_children_get.
Qed.

(** X7. The global index is built file by file and the last file wins:
    after one more file, a key has the value that file gives it, and the
    value it had before when the file does not give one. *)
Theorem archive_last_file_wins (files : list FileState) (f : FileState)
    (k : string) :
  Dict.get k (load_archive_translations (Some (files ++ [f])%list))
  = match Dict.get k (load_single_xml_translations f) with
    | Some v => Some v
    | None => Dict.get k (load_archive_translations (Some files))
    end.
Proof.
  cbn [load_archive_translations]. rewrite fold_left_app. cbn [fold_left].
  apply index_file_get.
Qed.

Lemma index_child_from d c k v :
  Dict.get k (index_child d c) = Some v ->
  Dict.get k d = Some v
  \/ (exists raw, c = (k, Some raw) /\ v = strip raw /\ k <> "").
Proof.
  destruct c as [t [raw|]]; cbn [index_child]; [|now left].
  destruct (truthy t && truthy raw) eqn:E; [|now left].
  destruct (truthy (strip raw) && _); [|now left].
  destruct (string_dec t k) as [->|Hne].
  - rewrite DictFacts.get_set_same. intro H. injection H as <-.
    right. exists raw. repeat split.
    apply andb_true_iff in E as [E _]. now apply truthy_true.
  - rewrite DictFacts.get_set_other by exact Hne. now left.
Qed.

Lemma index_file_from f d k v :
  Dict.get k (index_file d f) = Some v ->
  Dict.get k d = Some v \/ (from_file k v f /\ k <> "").
Proof.
  destruct f as [| |cs]; cbn [index_file]; try (now left).
  assert (H : forall l d',
             (forall c, In c l -> In c cs) ->
             Dict.get k (fold_left index_child l d') = Some v ->
             Dict.get k d' = Some v
             \/ (exists raw, In (k, Some raw) cs /\ v = strip raw /\ k <> "")).
  { induction l as [|c l IH]; intros d' Hsub; [now left|].
    cbn [fold_left]. intro Hget.
    destruct (IH (index_child d' c) (fun c' Hc' => Hsub c' (or_intror Hc')) Hget)
      as [Hd|Hr]; [|now right].
    apply index_child_from in Hd as [Hd|(raw & -> & Hv & Hk)]; [now left|].
    right. exists raw. repeat split; auto. apply Hsub. now left. }
  intro Hget. destruct (H cs d (fun c Hc => Hc) Hget) as [Hd|(raw & Hin & Hv & Hk)].
  - now left.
  - right. split; [|exact Hk]. exists cs, raw. auto.
Qed.

(** X8. The global index holds nothing of its own: every value it gives
    for a key is the trimmed text of an element with that tag in one of the
    files of the archive, the tag is not empty, and the value is neither
    empty nor the placeholder in any letter case. *)
Theorem archive_index_sound (files : option (list FileState)) (k v : string) :
  Dict.get k (load_archive_translations files) = Some v ->
  (exists fs f, files = Some fs /\ In f fs /\ from_file k v f)
  /\ k <> "" /\ v <> "" /\ upper v <> "TODO".
Proof.
  intro Hget.
  pose proof (load_archive_archived files k v Hget) as (_ & Hne & Hup).
  destruct files as [fs|]; [|discriminate].
  cbn [load_archive_translations] in Hget.
  assert (H : forall l d,
             (forall f, In f l -> In f fs) ->
             Dict.get k (fold_left index_file l d) = Some v ->
             Dict.get k d = Some v
             \/ ((exists f, In f fs /\ from_file k v f) /\ k <> "")).
  { induction l as [|f l IH]; intros d Hsub; [now left|].
    cbn [fold_left]. intro Hg.
    destruct (IH (index_file d f) (fun f' Hf' => Hsub f' (or_intror Hf')) Hg)
      as [Hd|Hr]; [|now right].
    apply index_file_from in Hd as [Hd|[Hf Hk]]; [now left|].
    right. split; [|exact Hk]. exists f. split; [apply Hsub; now left|exact Hf]. }
  destruct (H fs [] (fun f Hf => Hf) Hget) as [Hd|[(f & Hin & Hf) Hk]];
    [discriminate|].
  repeat split; auto. exists fs, f. auto.
Qed.

Lemma archive_index_sound_witness :
  let files := Some [Parsed [("Knife.label", Some " Cuchillo ")]] in
  (exists fs f, files = Some fs /\ In f fs /\ from_file "Knife.label" "Cuchillo" f)
  /\ "Knife.label" <> "" /\ "Cuchillo" <> "" /\ upper "Cuchillo" <> "TODO".
Proof.
  intro files.
  exact (archive_index_sound files "Knife.label" "Cuchillo" eq_refl).
Defined.

(** X9. An element of an archive file with a tag and a text that, once
    trimmed, is neither empty nor the placeholder in any letter case makes
    its tag a key of the global index. *)
Theorem archive_index_complete (fs : list FileState) (cs : list (string * option string))
    (k raw : string) :
  In (Parsed cs) fs -> In (k, Some raw) cs ->
  k <> "" -> strip raw <> "" -> upper (strip raw) <> "TODO" ->
  Dict.mem k (load_archive_translations (Some fs)) = true.
Proof.
  intros Hf Hc Hk Hne Hup.
  assert (Hraw : raw <> "") by (intros ->; now apply Hne).
  assert (Hone : In k (Dict.keys (index_child [] (k, Some raw)))).
  { cbn [index_child].
    apply truthy_true in Hk, Hne, Hraw. rewrite Hk, Hraw, Hne. cbn [andb].
    apply String.eqb_neq in Hup. rewrite Hup. cbn. now left. }
  assert (Hfile : In k (Dict.keys (load_single_xml_translations (Parsed cs)))).
  { unfold load_single_xml_translations. cbn [index_file].
    clear Hf. revert Hc. generalize (@nil (string * string)).
    induction cs as [|c l IH]; intros d Hin; [destruct Hin|].
    destruct Hin as [->|Hin]; cbn [fold_left].
    - apply FallbackFacts.index_children_keys. left.
      apply FallbackFacts.index_child_keys. now right.
    - now apply IH. }
  pose proof (FallbackFacts.local_keys_in_archive fs (Parsed cs) k Hf Hfile) as Hin.
  apply DictFacts.in_keys_get in Hin as (v & Hv).
  unfold Dict.mem. now rewrite Hv.
Qed.

Lemma archive_index_complete_witness :
  Dict.mem "Knife.label"
    (load_archive_translations
       (Some [Parsed [("Knife.label", Some "TODO")];
              Parsed [("Knife.label", Some " Cuchillo ")]])) = true.
Proof.
  refine (archive_index_complete _ [("Knife.label", Some " Cuchillo ")]
            "Knife.label" " Cuchillo " _ _ _ _ _).
  - right. now left.
  - now left.
  - discriminate.
  - vm_compute. discriminate.
  - vm_compute. discriminate.
Defined.

End ArchiveMore.

(** * More on the writers *)

Module WritersMore.

Import Text Output Archive Notions TextFacts OutputFacts LoaderFacts.

(** *** The order the DefInjected writer gives the entries *)

Lemma sort_key_total a b :
  DefInjected.sort_key_le a b = false -> DefInjected.sort_key_le b a = true.
Proof.
  unfold DefInjected.sort_key_le.
  rewrite (String.compare_antisym (DefInjected.p_def_name a) (DefInjected.p_def_name b)).
  destruct (String.compare (DefInjected.p_def_name b) (DefInjected.p_def_name a));
    cbn [CompOpp]; try discriminate; [|reflexivity].
  intro H. apply Nat.leb_gt in H. apply Nat.leb_le. lia.
Qed.

Lemma same_sort_key_le a b :
  same_sort_key a b = true -> DefInjected.sort_key_le a b = true.
Proof.
  unfold same_sort_key, DefInjected.sort_key_le. intro H.
  apply andb_true_iff in H as [Hd Hp].
  apply String.eqb_eq in Hd. apply Nat.eqb_eq in Hp. rewrite Hd, Hp.
  pose proof (String.compare_antisym (DefInjected.p_def_name b)
                (DefInjected.p_def_name b)) as E.
  destruct (String.compare (DefInjected.p_def_name b) (DefInjected.p_def_name b));
    try discriminate.
  apply Nat.leb_refl.
Qed.

Lemma same_sort_key_trans k a b :
  same_sort_key k a = true -> same_sort_key k b = true -> same_sort_key a b = true.
Proof.
  unfold same_sort_key. intros Ha Hb.
  apply andb_true_iff in Ha as [Ha1 Ha2]. apply andb_true_iff in Hb as [Hb1 Hb2].
  apply String.eqb_eq in Ha1, Hb1. apply Nat.eqb_eq in Ha2, Hb2.
  rewrite <- Ha1, Hb1, <- Ha2, Hb2, String.eqb_refl, Nat.eqb_refl. reflexivity.
Qed.

Lemma insert_sorted_perm x l : Permutation (x :: l) (DefInjected.insert_sorted x l).
Proof.
  induction l as [|y l IH]; cbn [DefInjected.insert_sorted]; [reflexivity|].
  destruct (DefInjected.sort_key_le x y); [reflexivity|].
  rewrite perm_swap. now constructor.
Qed.

Lemma insert_sorted_sorted x l :
  Sorted (fun a b => DefInjected.sort_key_le a b = true) l ->
  Sorted (fun a b => DefInjected.sort_key_le a b = true) (DefInjected.insert_sorted x l).
Proof.
  induction l as [|y l IH]; intro Hs; cbn [DefInjected.insert_sorted].
  - repeat constructor.
  - destruct (DefInjected.sort_key_le x y) eqn:E.
    + constructor; [exact Hs|]. now constructor.
    + inversion Hs as [|? ? Hl Hhd]; subst. constructor; [now apply IH|].
      destruct l as [|z l]; cbn [DefInjected.insert_sorted].
      * constructor. now apply sort_key_total.
      * destruct (DefInjected.sort_key_le x z).
        -- constructor. now apply sort_key_total.
        -- inversion Hhd; subst. now constructor.
Qed.

Lemma insert_sorted_stable k x l :
  filter (same_sort_key k) (DefInjected.insert_sorted x l)
  = filter (same_sort_key k) (x :: l).
Proof.
  induction l as [|y l IH]; cbn [DefInjected.insert_sorted]; [reflexivity|].
  destruct (DefInjected.sort_key_le x y) eqn:E; [reflexivity|].
  cbn [filter] in *. rewrite IH.
  destruct (same_sort_key k x) eqn:Ex; [|reflexivity].
  destruct (same_sort_key k y) eqn:Ey; [|reflexivity].
  pose proof (same_sort_key_le x y (same_sort_key_trans k x y Ex Ey)). congruence.
Qed.

(** X10. The entries come out of the sort as a rearrangement of the
    processed entries, in ascending order of definition name and then of
    field priority, and entries with the same definition name and priority
    keep the order they had: the order of discovery breaks the ties. *)
Theorem prepared_order (recover : bool) (def_type : string)
    (archive english : Dict.t string) (entries : list Entry) :
  let processed :=
    map (DefInjected.process_entry (contains "Backstory" def_type))
      (DefInjected.recover_implicit recover archive english entries) in
  let prepared := DefInjected.prepare recover def_type archive english entries in
  Permutation processed prepared
  /\ Sorted (fun a b => DefInjected.sort_key_le a b = true) prepared
  /\ forall k, filter (same_sort_key k) prepared = filter (same_sort_key k) processed.
Proof.
  intros processed prepared. unfold prepared, DefInjected.prepare. fold processed.
  unfold DefInjected.sort_entries.
  induction processed as [|x l (IHp & IHs & IHf)]; cbn [fold_right].
  - repeat split; constructor.
  - repeat split.
    + rewrite <- insert_sorted_perm. now constructor.
    + now apply insert_sorted_sorted.
    + intro k. rewrite insert_sorted_stable. cbn [filter]. now rewrite IHf.
Qed.

(** *** Keys, definition names and fields *)

Lemma process_entry_shape is_backstory e :
  let p := DefInjected.process_entry is_backstory e in
  DefInjected.p_def_name p = DefInjected.def_of (DefInjected.p_key p)
  /\ has_dot (DefInjected.p_def_name p) = false
  /\ (has_dot (DefInjected.p_key p) = true ->
      DefInjected.p_key p = DefInjected.p_def_name p ++ "." ++ DefInjected.p_field p)
  /\ (has_dot (DefInjected.p_key p) = false -> DefInjected.p_field p = "")
  /\ (is_backstory = true -> DefInjected.p_field p <> "baseDesc")
  /\ DefInjected.p_value p = value e.
Proof.
  unfold DefInjected.process_entry, DefInjected.def_of.
  destruct (has_dot (key e)) eqn:Hd.
  - destruct (is_backstory && (after_dot (key e) =? "baseDesc")) eqn:Hb;
      cbn [DefInjected.p_key DefInjected.p_def_name DefInjected.p_field
           DefInjected.p_value].
    + destruct (before_dot_join (before_dot (key e)) "description"
                  (before_dot_dotless (key e))) as (H1 & H2 & _).
      rewrite H2, H1. repeat split; auto using before_dot_dotless; discriminate.
    + rewrite Hd. repeat split; auto using before_dot_dotless.
      * intros _. symmetry. now apply split_join_dot.
      * discriminate.
      * intros -> E. rewrite E in Hb. discriminate.
  - destruct (is_backstory && ("" =? "baseDesc")) eqn:Hb;
      [rewrite andb_false_r in Hb; discriminate|].
    cbn [DefInjected.p_key DefInjected.p_def_name DefInjected.p_field
         DefInjected.p_value].
    rewrite Hd. repeat split; auto; discriminate.
Qed.

(** X11. For every entry the DefInjected writer loops over, the
    definition name it was sorted by is the part of its key before the first
    dot (the whole key when there is no dot) and has no dot itself; a key
    with a dot is the definition name, a dot and the field; and in a
    Backstory definition type no entry is left with the field [baseDesc]. *)
Theorem prepared_entry_shape (recover : bool) (def_type : string)
    (archive english : Dict.t string) (entries : list Entry)
    (p : DefInjected.Processed) :
  In p (DefInjected.prepare recover def_type archive english entries) ->
  DefInjected.p_def_name p = DefInjected.def_of (DefInjected.p_key p)
  /\ has_dot (DefInjected.p_def_name p) = false
  /\ (has_dot (DefInjected.p_key p) = true ->
      DefInjected.p_key p = DefInjected.p_def_name p ++ "." ++ DefInjected.p_field p)
  /\ (has_dot (DefInjected.p_key p) = false -> DefInjected.p_field p = "")
  /\ (contains "Backstory" def_type = true -> DefInjected.p_field p <> "baseDesc").
Proof.
  unfold DefInjected.prepare. intro H.
  apply DefInjectedFacts.in_sort_entries, in_map_iff in H as (e & <- & _).
  destruct (process_entry_shape (contains "Backstory" def_type) e)
    as (H1 & H2 & H3 & H4 & H5 & _).
  auto.
Qed.

Lemma prepared_entry_shape_witness :
  let p := DefInjected.mkProcessed "Settler.description" "A settler." "Settler"
             "description" in
  DefInjected.p_def_name p = DefInjected.def_of (DefInjected.p_key p)
  /\ DefInjected.p_field p <> "baseDesc".
Proof.
  intro p.
  destruct (prepared_entry_shape false "BackstoryDef" [] []
              [mkEntry "Settler.baseDesc" "A settler."] p) as (H1 & _ & _ & _ & H5).
  - now left.
  - split; [exact H1|now apply H5].
Defined.

(** *** What the writers put in the files *)

Lemma archived_not_empty d :
  all_values archived d -> all_values (fun v => v <> "") d.
Proof. intros H k v Hk. exact (proj1 (proj2 (H k v Hk))). Qed.

(** X12. With the archives as the loaders build them, the Keyed writer
    never writes an element without text: every value is an old text, an
    archive text or the placeholder. *)
Theorem keyed_values_not_empty (files : option (list FileState))
    (entries : list Entry) (original_filename : string)
    (output_file local_file : FileState) (k v : string) :
  In (LiveElement k v)
     (fst (Keyed.save_keyed_translations (load_archive_translations files)
             entries original_filename output_file local_file)) ->
  v <> "".
Proof.
  unfold Keyed.save_keyed_translations. cbn [fst]. intro H.
  apply KeyedFacts.keyed_live_in_document in H as [_ ->].
  pose proof (keyed_existing_values output_file) as HE.
  pose proof (archived_not_empty _ (load_single_archived local_file)) as HL.
  pose proof (archived_not_empty _ (load_archive_archived files)) as HA.
  unfold Keyed.resolve.
  assert (Hstart : Dict.get_default k "TODO" (Keyed.load_existing output_file) <> "").
  { unfold Dict.get_default.
    destruct (Dict.get k (Keyed.load_existing output_file)) eqn:E;
      [exact (HE k _ E)|discriminate]. }
  destruct (_ && Dict.mem k (load_archive_translations files)) eqn:Ec;
    [|exact Hstart].
  apply andb_true_iff in Ec as [_ Em].
  destruct (Dict.get k (load_single_xml_translations local_file)) eqn:El;
    [exact (HL k _ El)|].
  unfold Dict.mem in Em. unfold Dict.get_default.
  destruct (Dict.get k (load_archive_translations files)) eqn:Ea;
    [exact (HA k _ Ea)|discriminate].
Qed.

Lemma keyed_values_not_empty_witness : "Hola" <> "".
Proof.
  refine (keyed_values_not_empty
            (Some [Parsed [("Greeting", Some " Hola ")]])
            [mkEntry "Greeting" "Hello"] "Keys.xml" Missing Missing
            "Greeting" "Hola" _).
  in_list.
Defined.

Lemma live_keys_read ws : live_keys ws = map fst (flat_map read_element ws).
Proof.
  unfold live_keys. induction ws as [|[c|k v] ws IH]; cbn [flat_map read_element];
    [reflexivity|exact IH|].
  cbn [app map fst]. now rewrite IH.
Qed.

(** X13. Both writers write one element for every entry they loop over,
    in the order of the entries and under the key of the entry: no entry is
    dropped, doubled or moved. *)
Theorem one_element_per_entry (run : DefInjected.Run) (def_type : string)
    (entries : list Entry) (original_filename : string)
    (output_file local_file : FileState) :
  live_keys (fst (DefInjected.save_def_type run def_type entries original_filename
                    output_file local_file))
  = map DefInjected.p_key
      (DefInjected.prepare (DefInjected.recover_option run) def_type
         (DefInjected.global_archive_translations run)
         (DefInjected.english_translations run) entries)
  /\
  live_keys (fst (Keyed.save_keyed_translations
                    (DefInjected.global_archive_translations run)
                    entries original_filename output_file local_file))
  = map key entries.
Proof.
  rewrite !live_keys_read. unfold DefInjected.save_def_type,
    Keyed.save_keyed_translations. cbn [fst]. split.
  - match goal with
    | |- context [DefInjected.document ?e ?l ?a ?p] =>
        rewrite (DefInjectedFacts.read_back_document e l a p)
    end.
    rewrite map_map. cbn [fst]. now rewrite map_id.
  - match goal with
    | |- context [Keyed.document ?e ?l ?a ?p] =>
        rewrite (KeyedFacts.keyed_read_back_document e l a p)
    end.
    rewrite map_map. reflexivity.
Qed.

Lemma save_translations_fold run original_filename output_files local_files d :
  forall acc,
    fold_left
      (fun (acc : list (string * list Write) * list string)
           (item : string * list Entry) =>
         let '(def_type, entries) := item in
         match entries with
         | [] => acc
         | _ :: _ =>
             let '(ws, line) :=
               DefInjected.save_def_type run def_type entries original_filename
                 (output_files def_type) (local_files def_type) in
             ((fst acc ++ [(def_type, ws)])%list, (snd acc ++ [line])%list)
         end) d acc
    = ((fst acc
        ++ flat_map (fun item : string * list Entry =>
                       match snd item with
                       | [] => []
                       | _ :: _ =>
                           [(fst item,
                             fst (DefInjected.save_def_type run (fst item) (snd item)
                                    original_filename (output_files (fst item))
                                    (local_files (fst item))))]
                       end) d)%list,
       (snd acc
        ++ flat_map (fun item : string * list Entry =>
                       match snd item with
                       | [] => []
                       | _ :: _ =>
                           [snd (DefInjected.save_def_type run (fst item) (snd item)
                                   original_filename (output_files (fst item))
                                   (local_files (fst item)))]
                       end) d)%list).
Proof.
  induction d as [|[def_type [|e es]] d IH]; intros [fs ls].
  - cbn [fold_left fst snd flat_map]. now rewrite !app_nil_r.
  - cbn [fold_left fst snd flat_map]. rewrite IH. reflexivity.
  - cbn [fold_left flat_map fst snd].
    destruct (DefInjected.save_def_type run def_type (e :: es) original_filename
                (output_files def_type) (local_files def_type)) as [ws line].
    rewrite IH. cbn [fst snd app]. now rewrite <- !app_assoc.
Qed.

(** X14. [save_translations] writes a file for a definition type exactly
    when the type has entries, with one log line per file written, and
    every file it writes holds at least one element. *)
Theorem files_for_types_with_entries (run : DefInjected.Run)
    (translations_dict : Dict.t (list Entry)) (original_filename : string)
    (output_files local_files : string -> FileState) :
  let result :=
    DefInjected.save_translations run translations_dict original_filename
      output_files local_files in
  List.length (snd result) = List.length (fst result)
  /\ (forall def_type ws,
        In (def_type, ws) (fst result) <->
        exists entries,
          In (def_type, entries) translations_dict /\ entries <> []
          /\ ws = fst (DefInjected.save_def_type run def_type entries
                         original_filename (output_files def_type)
                         (local_files def_type)))
  /\ (forall def_type ws,
        In (def_type, ws) (fst result) -> exists k v, In (LiveElement k v) ws).
Proof.
  intro result. unfold result, DefInjected.save_translations.
  rewrite save_translations_fold. cbn [fst snd app].
  assert (Hiff : forall def_type ws,
             In (def_type, ws)
                (flat_map (fun item : string * list Entry =>
                             match snd item with
                             | [] => []
                             | _ :: _ =>
                                 [(fst item,
                                   fst (DefInjected.save_def_type run (fst item)
                                          (snd item) original_filename
                                          (output_files (fst item))
                                          (local_files (fst item))))]
                             end) translations_dict)
             <-> exists entries,
                 In (def_type, entries) translations_dict /\ entries <> []
                 /\ ws = fst (DefInjected.save_def_type run def_type entries
                                original_filename (output_files def_type)
                                (local_files def_type))).
  { intros def_type ws. rewrite in_flat_map. split.
    - intros ([dt es] & Hin & H). cbn [fst snd] in H.
      destruct es as [|e es]; [destruct H|]. destruct H as [H|[]].
      injection H as <- <-. exists (e :: es). repeat split; auto. discriminate.
    - intros (es & Hin & Hne & ->). exists (def_type, es). split; [exact Hin|].
      cbn [fst snd]. destruct es; [congruence|now left]. }
  split; [|split].
  - clear Hiff.
    induction translations_dict as [|[dt [|e es]] d IH]; cbn [flat_map fst snd];
      [reflexivity|exact IH|].
    cbn [app List.length]. now rewrite IH.
  - exact Hiff.
  - intros def_type ws H. apply Hiff in H as (es & _ & Hne & ->).
    destruct es as [|e es]; [congruence|].
    unfold DefInjected.save_def_type. cbn [fst].
    set (prepared := DefInjected.prepare _ _ _ _ _).
    assert (Hp : exists p, In p prepared).
    { exists (DefInjected.process_entry (contains "Backstory" def_type) e).
      unfold prepared, DefInjected.prepare.
      apply DefInjectedFacts.in_sort_entries, in_map.
      unfold DefInjected.recover_implicit.
      destruct (DefInjected.recover_option run); [apply in_or_app; left|]; now left. }
    destruct Hp as (p & Hp). exists (DefInjected.p_key p). eexists.
    apply DefInjectedFacts.live_in_document. split; [|reflexivity].
    apply in_map. exact Hp.
Qed.

End WritersMore.

(** * The source text in the comments *)

Module CommentsMore.

Import Text TextFacts.

Lemma prefix_nil s : prefix "" s = true.
Proof. now destruct s. Qed.

Lemma prefix_dash_cons c x :
  prefix "--" (String c x) = true <-> c = "-"%char /\ prefix "-" x = true.
Proof.
  cbn [prefix]. destruct (ascii_dec "-" c) as [<-|Hne].
  - tauto.
  - split; [discriminate|]. intros [-> _]. congruence.
Qed.

Lemma replace_dashes_first s :
  prefix "-" (replace "--" "- -" s) = prefix "-" s.
Proof.
  unfold replace. destruct s as [|c r]; [reflexivity|].
  cbn [replace_from]. destruct (prefix "--" (String c r)) eqn:E.
  - apply prefix_dash_cons in E as [-> _].
    change ("- -" ++ replace_from "--" "- -" (String.length "--" - 1) r)
      with (String "-" (String " " (String "-"
              (replace_from "--" "- -" (String.length "--" - 1) r)))).
    cbn [prefix]. destruct (ascii_dec "-" "-"); [|congruence].
    now rewrite prefix_nil.
  - cbn [prefix]. destruct (ascii_dec "-" c); [now rewrite !prefix_nil|reflexivity].
Qed.

Lemma contains_cons sub c r :
  contains sub (String c r) = prefix sub (String c r) || contains sub r.
Proof. reflexivity. Qed.

Lemma replace_dashes_safe n :
  forall s, String.length s <= n ->
            contains "---" s = false ->
            contains "--" (replace "--" "- -" s) = false.
Proof.
  induction n as [|n IH]; intros s Hlen Hno.
  - destruct s; [reflexivity|cbn in Hlen; lia].
  - destruct s as [|c r]; [reflexivity|].
    rewrite contains_cons in Hno. apply orb_false_iff in Hno as [Hp Hr].
    unfold replace. cbn [replace_from].
    destruct (prefix "--" (String c r)) eqn:E.
    + apply prefix_dash_cons in E as [-> E].
      destruct r as [|c' r']; [discriminate|].
      cbn [prefix] in E. destruct (ascii_dec "-" c') as [<-|]; [|discriminate].
      change (String.length "--" - 1) with 1. cbn [replace_from].
      assert (Hd : prefix "-" r' = false).
      { destruct (prefix "-" r') eqn:Ed; [|reflexivity].
        destruct r' as [|c'' r'']; [discriminate|].
        cbn [prefix] in Ed. destruct (ascii_dec "-" c'') as [<-|]; [|discriminate].
        cbn [prefix] in Hp. destruct (ascii_dec "-" "-"); [|congruence].
        rewrite prefix_nil in Hp. discriminate. }
      rewrite contains_cons in Hr. apply orb_false_iff in Hr as [_ Hr'].
      assert (Hrec : contains "--" (replace "--" "- -" r') = false).
      { apply IH; [cbn in Hlen; lia|exact Hr']. }
      unfold replace in Hrec.
      pose proof (replace_dashes_first r') as Hf. unfold replace in Hf.
      change ("- -" ++ replace_from "--" "- -" 0 r')
        with (String "-" (String " " (String "-" (replace_from "--" "- -" 0 r')))).
      rewrite !contains_cons, Hrec.
      change (prefix "--" (String "-" (String " " (String "-" (replace_from "--" "- -" 0 r')))))
        with false.
      change (prefix "--" (String " " (String "-" (replace_from "--" "- -" 0 r'))))
        with false.
      cbn [orb]. rewrite orb_false_r.
      destruct (prefix "--" (String "-" (replace_from "--" "- -" 0 r'))) eqn:E2;
        [|reflexivity].
      apply prefix_dash_cons in E2 as [_ E2]. congruence.
    + assert (Hrec : contains "--" (replace "--" "- -" r) = false).
      { apply IH; [cbn in Hlen; lia|exact Hr]. }
      unfold replace in Hrec. rewrite contains_cons, Hrec, orb_false_r.
      destruct (prefix "--" (String c (replace_from "--" "- -" 0 r))) eqn:E2;
        [|reflexivity].
      apply prefix_dash_cons in E2 as [-> E2].
      pose proof (replace_dashes_first r) as Hf. unfold replace in Hf.
      rewrite Hf in E2.
      assert (prefix "--" (String "-" r) = true) by (apply prefix_dash_cons; auto).
      congruence.
Qed.

(** X15. The source text both writers put in the comment above an element
    has no double hyphen when the text has no run of three hyphens: every
    pair of hyphens is opened by a blank. *)
Theorem comment_text_safe (source_text : string) :
  contains "---" source_text = false ->
  contains "--" (replace "--" "- -" source_text) = false.
Proof. apply (replace_dashes_safe (String.length source_text)). lia. Qed.

Lemma comment_text_safe_witness :
  contains "--" (replace "--" "- -" "wait -- no--yes") = false.
Proof. apply comment_text_safe. reflexivity. Defined.

End CommentsMore.

(** * The tag boxes *)

Module TagsMore.

Import Text Tags TextFacts.

Lemma split_commas_not_nil s : split_commas s <> [].
Proof.
  destruct s as [|c r]; cbn [split_commas]; [discriminate|].
  destruct (Ascii.eqb c comma); [discriminate|].
  destruct (split_commas r); discriminate.
Qed.

Lemma split_commas_pieces s :
  Forall (fun piece => has_comma piece = false) (split_commas s).
Proof.
  induction s as [|c r IH]; cbn [split_commas].
  - repeat constructor.
  - destruct (Ascii.eqb c comma) eqn:E.
    + constructor; [reflexivity|exact IH].
    + destruct (split_commas r) as [|piece pieces]; [repeat constructor; cbn; now rewrite E|].
      inversion IH; subst. constructor; [|assumption].
      cbn [has_comma]. now rewrite E.
Qed.

Lemma has_comma_app a b : has_comma (a ++ b) = has_comma a || has_comma b.
Proof.
  induction a as [|c a IH]; [reflexivity|].
  cbn [append has_comma]. now rewrite IH, orb_assoc.
Qed.

Lemma lstrip_no_comma s : has_comma s = false -> has_comma (lstrip s) = false.
Proof.
  destruct (lstrip_suffix s) as (p & Hp & _). intro H.
  rewrite Hp, has_comma_app in H. now apply orb_false_iff in H.
Qed.

Lemma rstrip_no_comma s : has_comma s = false -> has_comma (rstrip s) = false.
Proof.
  destruct (rstrip_split s) as (w & Hw & _). intro H.
  rewrite Hw, has_comma_app in H. now apply orb_false_iff in H.
Qed.

(** X16. Every tag read from a box is trimmed, is not empty and holds no
    comma, whatever the text of the box is. *)
Theorem tags_read_are_clean (box tag : string) :
  In tag (update_tags_from_ui box) ->
  tag <> "" /\ strip tag = tag /\ has_comma tag = false.
Proof.
  unfold update_tags_from_ui. intro H.
  apply in_flat_map in H as (piece & Hin & H).
  destruct (truthy (strip piece)) eqn:E; [|destruct H].
  destruct H as [<-|[]]. repeat split.
  - now apply truthy_true.
  - apply strip_idem.
  - unfold strip. apply rstrip_no_comma, lstrip_no_comma.
    pose proof (split_commas_pieces box) as Hall.
    rewrite Forall_forall in Hall. now apply Hall.
Qed.

Lemma tags_read_are_clean_witness :
  "texPath" <> "" /\ strip "texPath" = "texPath" /\ has_comma "texPath" = false.
Proof.
  apply (tags_read_are_clean " verbClass ,, texPath ,").
  in_list.
Defined.

Lemma split_commas_plain t : has_comma t = false -> split_commas t = [t].
Proof.
  induction t as [|c r IH]; cbn [has_comma split_commas]; [reflexivity|].
  intro H. apply orb_false_iff in H as [Hc Hr]. now rewrite Hc, (IH Hr).
Qed.

Lemma split_commas_app t s :
  has_comma t = false -> split_commas (t ++ "," ++ s) = t :: split_commas s.
Proof.
  induction t as [|c r IH]; intro H.
  - reflexivity.
  - cbn [has_comma] in H. apply orb_false_iff in H as [Hc Hr].
    change (String c r ++ "," ++ s) with (String c (r ++ "," ++ s)).
    cbn [split_commas]. now rewrite Hc, (IH Hr).
Qed.

Lemma read_clean_piece t : clean t ->
  (if truthy (strip (String " " t)) then [strip (String " " t)] else []) = [t]
  /\ (if truthy (strip t) then [strip t] else []) = [t].
Proof.
  intros (Hne & Hs & _).
  rewrite (strip_blank_cons " " t eq_refl), Hs.
  apply truthy_true in Hne. now rewrite Hne.
Qed.

Lemma read_joined_tail tags :
  tags <> [] -> Forall clean tags ->
  update_tags_from_ui (String " " (String.concat ", " tags)) = tags.
Proof.
  induction tags as [|t [|t2 rest] IH]; intros Hne Hall; [congruence| |].
  - inversion Hall as [|? ? Ht _]; subst. cbn [String.concat].
    unfold update_tags_from_ui.
    rewrite (split_commas_plain (String " " t)).
    + cbn [flat_map]. rewrite (proj1 (read_clean_piece t Ht)). reflexivity.
    + cbn [has_comma]. now rewrite (proj2 (proj2 Ht)).
  - inversion Hall as [|? ? Ht Hrest]; subst.
    change (String.concat ", " (t :: t2 :: rest))
      with (t ++ "," ++ String " " (String.concat ", " (t2 :: rest))).
    change (String " " (t ++ "," ++ String " " (String.concat ", " (t2 :: rest))))
      with (String " " t ++ "," ++ String " " (String.concat ", " (t2 :: rest))).
    unfold update_tags_from_ui.
    rewrite split_commas_app by (cbn [has_comma]; now rewrite (proj2 (proj2 Ht))).
    cbn [flat_map]. rewrite (proj1 (read_clean_piece t Ht)).
    cbn [app]. f_equal. apply IH; [discriminate|exact Hrest].
Qed.

(** X17. The text [load_tags_to_ui] hands to a box is read by
    [update_tags_from_ui] as the list it was made from, when the box gives
    that text back as it was set and every tag is trimmed, is not empty and
    holds no comma.  [box] stands for the text widget, from the text set to
    the text returned. *)
Theorem tags_round_trip (box : string -> string) (tags : list string) :
  box (load_tags_to_ui tags) = load_tags_to_ui tags ->
  Forall (fun tag => tag <> "" /\ strip tag = tag /\ has_comma tag = false) tags ->
  update_tags_from_ui (box (load_tags_to_ui tags)) = tags.
Proof.
  intros -> Hall. unfold load_tags_to_ui.
  destruct tags as [|t [|t2 rest]].
  - reflexivity.
  - inversion Hall as [|? ? Ht _]; subst. cbn [String.concat].
    unfold update_tags_from_ui.
    rewrite (split_commas_plain t) by exact (proj2 (proj2 Ht)).
    cbn [flat_map]. rewrite (proj2 (read_clean_piece t Ht)). reflexivity.
  - inversion Hall as [|? ? Ht Hrest]; subst.
    change (String.concat ", " (t :: t2 :: rest))
      with (t ++ "," ++ String " " (String.concat ", " (t2 :: rest))).
    unfold update_tags_from_ui.
    rewrite split_commas_app by exact (proj2 (proj2 Ht)).
    cbn [flat_map]. rewrite (proj2 (read_clean_piece t Ht)).
    cbn [app]. f_equal.
    apply (read_joined_tail (t2 :: rest)); [discriminate|exact Hrest].
Qed.

Lemma tags_round_trip_witness :
  update_tags_from_ui (load_tags_to_ui ["verbClass"; "texPath"; "iconPath"])
  = ["verbClass"; "texPath"; "iconPath"].
Proof.
  apply (tags_round_trip (fun text => text)); [reflexivity|].
  repeat constructor; try discriminate.
Defined.

End TagsMore.

(** * The version filter and the merge *)

Module VersionsMore.

Import Text Versions TextFacts.

Lemma is_version_not_word tv :
  is_version tv = true -> (tv =? "Todas") = false /\ (tv =? "Base") = false
                          /\ (tv =? ".") = false.
Proof.
  intro H. repeat split; apply String.eqb_neq; intros ->; discriminate.
Qed.

Lemma prefix_app_self (sep x : string) : prefix sep (sep ++ x) = true.
Proof.
  induction sep as [|c sep IH]; cbn [append prefix].
  - now destruct x.
  - destruct (ascii_dec c c); [exact IH|congruence].
Qed.

Lemma contains_middle (a sep x : string) : contains sep (a ++ sep ++ x) = true.
Proof.
  induction a as [|c a IH].
  - cbn [append]. destruct (sep ++ x) eqn:E.
    + cbn [contains]. rewrite <- E, prefix_app_self. reflexivity.
    + cbn [contains]. rewrite <- E, prefix_app_self. reflexivity.
  - change (String c a ++ sep ++ x) with (String c (a ++ sep ++ x)).
    cbn [contains]. rewrite IH. apply orb_true_r.
Qed.

(** X19. Without the merge, a version chosen in the box keeps the
    directory of that version alone: a directory is processed exactly when
    its path is the one segment of the version, and its output path is its
    own; the base directory and every other directory are skipped. *)
Theorem version_filter (sep target_version : string) (rel_path out : list string) :
  is_version target_version = true ->
  contains sep target_version = false ->
  resolve sep target_version false rel_path = Some out
  <-> rel_path = [target_version] /\ out = [target_version].
Proof.
  intros Hv Hsep. destruct (is_version_not_word _ Hv) as (Ht & Hb & Hdot).
  unfold resolve. rewrite Ht, Hb. cbn [andb negb].
  destruct rel_path as [|a [|b rest]].
  - cbn [str_path]. rewrite String.eqb_sym, Hdot. cbn [negb]. split; [discriminate|].
    intros [E _]. discriminate.
  - cbn [str_path String.concat]. destruct (a =? target_version) eqn:E; cbn [negb].
    + apply String.eqb_eq in E. subst a. split.
      * intro H. injection H as <-. auto.
      * intros [_ ->]. reflexivity.
    + apply String.eqb_neq in E. split; [discriminate|].
      intros [H _]. injection H as H. congruence.
  - assert (E : (str_path sep (a :: b :: rest) =? target_version) = false).
    { apply String.eqb_neq. intro H.
      pose proof (contains_middle a sep (String.concat sep (b :: rest))) as Hc.
      change (a ++ sep ++ String.concat sep (b :: rest))
        with (str_path sep (a :: b :: rest)) in Hc.
      rewrite H in Hc. congruence. }
    rewrite E. cbn [negb]. split; [discriminate|].
    intros [H _]. discriminate.
Qed.

Lemma version_filter_witness :
  resolve "/" "1.5" false ["1.5"] = Some ["1.5"].
Proof.
  apply (version_filter "/" "1.5" ["1.5"] ["1.5"] eq_refl eq_refl).
  split; reflexivity.
Defined.

End VersionsMore.

(** * The version merge before the flattening *)

Module OutputPathMore.

Import Text Versions Paths TextFacts PathsFacts.

Lemma version_not_wrapper tv : is_version tv = true -> (lower tv =? "mods") = false.
Proof.
  intro H. destruct tv as [|c r]; [discriminate|].
  unfold is_version in H. cbn [starts_with_digit] in H.
  apply andb_true_iff in H as [Hd _].
  apply String.eqb_neq. intro E. cbn in E. injection E as E _.
  unfold lower_char in E. destruct (is_upper c) eqn:Eu.
  - unfold is_upper, is_digit, in_range in *.
    apply andb_true_iff in Hd as [_ Hd]. apply andb_true_iff in Eu as [Eu _].
    apply Nat.leb_le in Hd, Eu. lia.
  - subst c. discriminate.
Qed.

Lemma find_mods_from parts i j : find_mods parts i = Some j -> i <= j.
Proof.
  revert i. induction parts as [|p rest IH]; intros i H; cbn [find_mods] in H.
  - discriminate.
  - destruct (lower p =? "mods").
    + injection H as <-. lia.
    + apply IH in H. lia.
Qed.

(** X20. What the merge into a version sends out stays under the folder
    of that version when the wrapper folders are flattened after it: the
    first segment of the output path is the target version, with the
    flattening option or without it. *)
Theorem merged_output_under_target (sep target_version : string)
    (simplify : bool) (rel_path : list string) :
  is_version target_version = true ->
  exists below,
    option_map (flatten simplify) (resolve sep target_version true rel_path)
    = Some (target_version :: below).
Proof.
  intro Hv.
  destruct (VersionsMore.is_version_not_word _ Hv) as (Ht & Hb & _).
  assert (E : exists b, resolve sep target_version true rel_path
                        = Some (target_version :: b)).
  { unfold resolve. rewrite Ht, Hb. cbn [app].
    destruct rel_path as [|first rest]; [now exists []|].
    destruct (is_version first); eauto. }
  destruct E as [b ->]. cbn [option_map]. unfold flatten.
  destruct simplify; [|now exists b].
  unfold simplify_mods. cbn [find_mods].
  rewrite (version_not_wrapper _ Hv).
  destruct (find_mods b (0 + 1)) as [j|] eqn:Ej; [|now exists b].
  destruct (Nat.ltb (j + 1) (List.length (target_version :: b))); [|now exists b].
  apply find_mods_from in Ej. destruct j as [|j]; [lia|].
  cbn [firstn app]. eauto.
Qed.

Lemma merged_output_under_target_witness :
  exists below,
    option_map (flatten true) (resolve "/" "1.5" true ["1.4"; "Mods"; "Core"; "Patches"])
    = Some ("1.5" :: below).
Proof.
  exact (merged_output_under_target "/" "1.5" true
           ["1.4"; "Mods"; "Core"; "Patches"] eq_refl).
Defined.

End OutputPathMore.

(** * From a Keyed source file to its output *)

Module KeyedMore.

Import Text Output Notions KeyedFile TextFacts OutputFacts.

Lemma keyed_entries_keys (source_children : list (string * option string)) :
  map key (Keyed.keyed_entries source_children)
  = map fst (filter (fun child : string * option string => truthy_opt (snd child))
               source_children).
Proof.
  unfold Keyed.keyed_entries.
  induction source_children as [|[t [raw|]] cs IH];
    cbn [flat_map filter snd fst truthy_opt].
  - reflexivity.
  - destruct (truthy raw); cbn [app map key fst]; now rewrite IH.
  - exact IH.
Qed.

Lemma keyed_live_keys (existing local_translations archive : Dict.t string)
    (entries : list Entry) :
  live_keys (Keyed.document existing local_translations archive entries)
  = map key entries.
Proof.
  rewrite WritersMore.live_keys_read.
  rewrite (KeyedFacts.keyed_read_back_document existing local_translations
             archive entries).
  rewrite map_map. reflexivity.
Qed.

(** X21. A Keyed source file gets an output file exactly when one of the
    elements of its root has a text, and the output then has one element
    for every such element, under the same tag and in the order of the
    source; an element without text gives none. *)
Theorem keyed_file_follows_source (archive : Dict.t string)
    (source_children : list (string * option string)) (file_name : string)
    (output_file local_file : FileState) :
  let with_text :=
    map fst (filter (fun child : string * option string => truthy_opt (snd child))
               source_children) in
  match fst (process_keyed_file archive (Some source_children) file_name
               output_file local_file) with
  | None => with_text = []
  | Some ws => with_text <> [] /\ live_keys ws = with_text
  end.
Proof.
  cbv zeta. rewrite <- keyed_entries_keys. unfold process_keyed_file.
  destruct (Keyed.keyed_entries source_children) as [|e es] eqn:E.
  - reflexivity.
  - unfold Keyed.save_keyed_translations. cbn [fst].
    split; [discriminate|]. apply keyed_live_keys.
Qed.

End KeyedMore.

(** * The published file id *)

Module AboutFileMore.

Import Text AboutFile TextFacts.





(** A blank id file in front of the one that holds the id: the blank one
    is the copy, under the name made from the id of the other. *)
Lemma blank_id_file_copied :
  create_minimal_about (Some "author.mod") [Content " "; Content " 2890901044 "] true
  = Some ("About_2890901044.xml", Some (Content " ")).
Proof. reflexivity. Qed.

End AboutFileMore.
